(** * mark.js: a shallow embedding of the matching core

    The development follows [src/dist/mark.umd.js]: the pattern
    synthesiser [RegExpCreator] and the match/wrap engine [Mark$1].

    - A JavaScript string is a sequence of UTF-16 code units; it is
      modelled as a [list N].  String literals are written with [js].
    - A JavaScript number that the code uses as an index is a [Z]; the
      two non-integral values the code relies on ([NaN], [Infinity]) are
      explicit constructors where they can occur.
    - Callbacks ([each], [noMatch], [filter]) are modelled by the trace
      of their calls or by a Rocq function. *)

From Stdlib Require Import String Ascii.
From Stdlib Require Import ZArith NArith List Bool Lia.
From Stdlib Require Import Sorting.Permutation Sorting.Sorted.
From Stdlib Require QArith.
Import ListNotations.

Set Implicit Arguments.
Set Warnings "-register-all".
Local Open Scope Z_scope.

(** ** JavaScript strings *)

Definition jschar := N.
Definition jsstring := list jschar.

Definition ch (a : ascii) : jschar := N_of_ascii a.
Definition js (s : String.string) : jsstring :=
  map ch (String.list_ascii_of_string s).

Definition jslen (s : jsstring) : Z := Z.of_nat (length s).

Definition jschar_eqb (a b : jschar) : bool := N.eqb a b.

Fixpoint jsstring_eqb (a b : jsstring) : bool :=
  match a, b with
  | [], [] => true
  | x :: a', y :: b' => jschar_eqb x y && jsstring_eqb a' b'
  | _, _ => false
  end.

(** ** The search cursor

    [regex.lastIndex] is an ordinary number property.  The code stores
    either an index or [Infinity] in it. *)

Module Cursor.

Inductive num := Fin (n : Z) | Infinity.

(** [a > b] on numbers. *)
Definition gt (a b : num) : bool :=
  match a, b with
  | Fin x, Fin y => x >? y
  | Fin _, Infinity => false
  | Infinity, Fin _ => true
  | Infinity, Infinity => false
  end.

(** [x++] *)
Definition incr (a : num) : num :=
  match a with
  | Fin x => Fin (x + 1)
  | Infinity => Infinity
  end.

Record regex := { source : jsstring; lastIndex : num }.

Definition set_lastIndex (r : regex) (v : num) : regex :=
  {| source := source r; lastIndex := v |}.

(** [setLastIndex(regex, end)], mark.umd.js 1093-1101. *)
Definition setLastIndex (r : regex) (end_ : Z) : regex :=
  if gt (Fin end_) (lastIndex r) then set_lastIndex r (Fin end_)
  else if end_ >? 0 then set_lastIndex r (incr (lastIndex r))
  else set_lastIndex r Infinity.

(** The last lines of [wrapMatchGroupsD], 1089-1091, and of
    [separateGroupsD], 1030-1034: [match0] is [match[0]], [end_] the end
    of the last group that was looked at, or 0. *)
Definition wrapMatchGroupsD_cursor (match0 : jsstring) (r : regex)
  (end_ : Z) : regex :=
  if jslen match0 =? 0 then setLastIndex r end_ else r.

Definition separateGroupsD_cursor (isWrapped : bool) (match0 : jsstring)
  (r : regex) (end_ : Z) : regex :=
  if isWrapped then set_lastIndex r (Fin 0)
  else if jslen match0 =? 0 then setLastIndex r end_
  else r.

End Cursor.

(** ** The host-language operations the code relies on

    [String.prototype.replace] with a global regular expression,
    [GetSubstitution] for replacement strings, [split]/[join],
    [Array.prototype.sort], [trim] and the character classes. *)

Module Host.

Definition c_backslash : jschar := ch "\".
Definition c_question : jschar := ch "?".
Definition c_star : jschar := ch "*".
Definition c_dollar : jschar := ch "$".
Definition c_amp : jschar := ch "&".
Definition c_backtick : jschar := ch "`".
Definition c_apostrophe : jschar := ch "'".
Definition c_pipe : jschar := ch "|".
Definition c_lparen : jschar := ch "(".
Definition c_rparen : jschar := ch ")".
Definition c_lbracket : jschar := ch "[".
Definition c_rbracket : jschar := ch "]".
Definition c_colon : jschar := ch ":".
Definition c_lt : jschar := ch "<".
Definition c_eq : jschar := ch "=".
Definition c_bang : jschar := ch "!".
Definition c_space : jschar := ch " ".

Definition mem (c : jschar) (l : jsstring) : bool := existsb (N.eqb c) l.

(** LineTerminator: LF, CR, U+2028, U+2029. *)
Definition is_line_terminator (c : jschar) : bool :=
  mem c [10; 13; 8232; 8233]%N.

(** The class [\s] (WhiteSpace and LineTerminator), also what [trim]
    strips. *)
Definition is_space (c : jschar) : bool :=
  mem c [9; 10; 11; 12; 13; 32; 160; 5760; 8232; 8233; 8239; 8287;
         12288; 65279]%N
  || (N.leb 8192 c && N.leb c 8202).

(** [/\S/.test(s)] *)
Definition has_non_space (s : jsstring) : bool :=
  existsb (fun c => negb (is_space c)) s.

(** [s.trim()] *)
Fixpoint trim_start (s : jsstring) : jsstring :=
  match s with
  | c :: rest => if is_space c then trim_start rest else s
  | [] => []
  end.

Definition trim (s : jsstring) : jsstring :=
  rev (trim_start (rev (trim_start s))).

(** [s.substring(a, b)]: both bounds are clamped to [0, length] and
    swapped when out of order. *)
Definition clamp (len x : Z) : Z := Z.max 0 (Z.min x len).

Definition substring (s : jsstring) (a b : Z) : jsstring :=
  let a' := clamp (jslen s) a in
  let b' := clamp (jslen s) b in
  let lo := Z.min a' b' in
  let hi := Z.max a' b' in
  firstn (Z.to_nat (hi - lo)) (skipn (Z.to_nat lo) s).

(** [l.join(sep)] *)
Fixpoint join (sep : jsstring) (l : list jsstring) : jsstring :=
  match l with
  | [] => []
  | [x] => x
  | x :: rest => x ++ sep ++ join sep rest
  end.

(** [s.split(c)] for a one-character separator. *)
Fixpoint split_char_from (c : jschar) (s cur : jsstring) : list jsstring :=
  match s with
  | [] => [cur]
  | x :: rest =>
      if N.eqb x c then cur :: split_char_from c rest []
      else split_char_from c rest (cur ++ [x])
  end.

Definition split_char (c : jschar) (s : jsstring) : list jsstring :=
  split_char_from c s [].

(** [s.split(/c+/)]: the separators are the maximal runs of characters
    in the class [p]. *)
Fixpoint split_runs_from (p : jschar -> bool) (s cur : jsstring)
  (inrun : bool) : list jsstring :=
  match s with
  | [] => [cur]
  | x :: rest =>
      if p x then
        if inrun then split_runs_from p rest cur true
        else cur :: split_runs_from p rest [] true
      else split_runs_from p rest (cur ++ [x]) false
  end.

Definition split_runs (p : jschar -> bool) (s : jsstring) : list jsstring :=
  split_runs_from p s [] false.

(** [a > b] and [a < b] on strings: code units, lexicographically. *)
Fixpoint string_ltb (a b : jsstring) : bool :=
  match a, b with
  | _, [] => false
  | [], _ :: _ => true
  | x :: a', y :: b' =>
      if N.ltb x y then true
      else if N.eqb x y then string_ltb a' b'
      else false
  end.

Definition string_gtb (a b : jsstring) : bool := string_ltb b a.

(** [Array.prototype.sort(cmp)].  The sort is stable; the model is the
    stable insertion sort, which is the result of every conforming
    implementation when [cmp] is a consistent comparator. *)
Section Sort.
Context {A : Type}.
Variable cmp : A -> A -> Z.

Fixpoint sort_insert (x : A) (l : list A) : list A :=
  match l with
  | [] => [x]
  | y :: rest =>
      if cmp x y <=? 0 then x :: y :: rest else y :: sort_insert x rest
  end.

Fixpoint sort (l : list A) : list A :=
  match l with
  | [] => []
  | x :: rest => sort_insert x (sort rest)
  end.

(** [x] may stand before [y] in the order of [cmp]. *)
Definition before (x y : A) : Prop := cmp x y <= 0.
End Sort.

(** [GetSubstitution] for a replacement string when the pattern has no
    capture groups: [$$], [$&], [$`] and [$'] are expanded, every other
    [$] is literal. *)
Fixpoint expand (t before matched after : jsstring) : jsstring :=
  match t with
  | [] => []
  | c :: t' =>
      if N.eqb c c_dollar then
        match t' with
        | d :: t'' =>
            if N.eqb d c_dollar then c_dollar :: expand t'' before matched after
            else if N.eqb d c_amp then matched ++ expand t'' before matched after
            else if N.eqb d c_backtick then before ++ expand t'' before matched after
            else if N.eqb d c_apostrophe then after ++ expand t'' before matched after
            else c_dollar :: expand t' before matched after
        | [] => [c_dollar]
        end
      else c :: expand t' before matched after
  end.

(** [s.replace(re, ...)] for a global [re].  The matcher [m] gives, for
    the text that starts at the current position, the length of the
    match that starts there together with the captures the replacer
    looks at; [f] is the replacer.  [skip] counts the characters of the
    last match that are still to be consumed.  After an empty match the
    search resumes one character further. *)
Section Replace.
Context {G : Type}.
Variable m : jsstring -> option (nat * G).
Variable f : G -> jsstring -> jsstring -> jsstring -> jsstring.

Fixpoint replace_from (before s : jsstring) (skip : nat) : jsstring :=
  match s with
  | [] =>
      match skip, m [] with
      | O, Some (_, g) => f g before [] []
      | _, _ => []
      end
  | c :: rest =>
      match skip with
      | S k => replace_from (before ++ [c]) rest k
      | O =>
          match m s with
          | Some (O, g) =>
              f g before [] s ++ c :: replace_from (before ++ [c]) rest 0
          | Some (S k, g) =>
              f g before (firstn (S k) s) (skipn (S k) s)
                ++ replace_from (before ++ [c]) rest k
          | None => c :: replace_from (before ++ [c]) rest 0
          end
      end
  end.

Definition replace (s : jsstring) : jsstring := replace_from [] s 0.
End Replace.

(** [s.replace(re, template)] with a replacement string. *)
Definition replace_with (m : jsstring -> option (nat * unit))
  (template s : jsstring) : jsstring :=
  replace m (fun _ => expand template) s.

(** The matcher of a one-character class. *)
Definition match_class (p : jschar -> bool) (s : jsstring)
  : option (nat * unit) :=
  match s with
  | c :: _ => if p c then Some (1%nat, tt) else None
  | [] => None
  end.

(** The matcher of [/c+/] for a class [p]: the run is maximal. *)
Fixpoint run_length (p : jschar -> bool) (s : jsstring) : nat :=
  match s with
  | c :: rest => if p c then S (run_length p rest) else O
  | [] => O
  end.

Definition match_run (p : jschar -> bool) (s : jsstring)
  : option (nat * unit) :=
  match run_length p s with
  | O => None
  | n => Some (n, tt)
  end.

(** The matcher of [/(?:\\)*x/]: a greedy run of backslashes, then [x]. *)
Fixpoint match_backslashes_then (x : jschar) (s : jsstring)
  : option (nat * unit) :=
  match s with
  | [] => None
  | c :: rest =>
      if N.eqb c c_backslash then
        match match_backslashes_then x rest with
        | Some (n, _) => Some (S n, tt)
        | None => if N.eqb c x then Some (1%nat, tt) else None
        end
      else if N.eqb c x then Some (1%nat, tt) else None
  end.

(** A pattern source in which every syntax character is escaped, apart
    from the [|] between alternatives, denotes an ordered choice
    between literal texts.  [literal_alternatives] reads them back. *)
Fixpoint literal_alternatives_from (src cur : jsstring) : list jsstring :=
  match src with
  | [] => [cur]
  | c :: rest =>
      if N.eqb c c_backslash then
        match rest with
        | d :: rest' => literal_alternatives_from rest' (cur ++ [d])
        | [] => [cur]
        end
      else if N.eqb c c_pipe then cur :: literal_alternatives_from rest []
      else literal_alternatives_from rest (cur ++ [c])
  end.

Definition literal_alternatives (src : jsstring) : list jsstring :=
  literal_alternatives_from src [].

(** Does the literal [k] match at the head of [s]?  With the [i] flag
    the characters are compared after [canonicalize]. *)
Fixpoint literal_matches (canon : jschar -> jschar) (k s : jsstring) : bool :=
  match k, s with
  | [], _ => true
  | x :: k', y :: s' => N.eqb (canon x) (canon y) && literal_matches canon k' s'
  | _ :: _, [] => false
  end.

(** Ordered choice: the first alternative that matches wins. *)
Fixpoint match_alternatives (canon : jschar -> jschar)
  (alts : list jsstring) (s : jsstring) : option (nat * unit) :=
  match alts with
  | [] => None
  | k :: rest =>
      if literal_matches canon k s then Some (length k, tt)
      else match_alternatives canon rest s
  end.

End Host.

(** ** The pattern synthesiser: class [RegExpCreator]
    (mark.umd.js 351-526) *)

Module RegExpCreator.
Import Host.

Inductive accval := Partially | Complementary | Exactly.

(** [opt.accuracy] is a string or an object [{value, limiters}]. *)
Inductive accuracy :=
| AccString (v : accval)
| AccObject (value : accval) (limiters : list jsstring).

Inductive wildcards := Disabled | Enabled | WithSpaces.

(** A value of the [synonyms] object: a string or an array of strings. *)
Inductive synval := SynString (v : jsstring) | SynArray (vs : list jsstring).

(** The [synonyms] object, in the order [for ... in] enumerates it. *)
Definition synonyms := list (jsstring * synval).

Record boundary := { bchar : jsstring }.

Record options := {
  diacritics : bool;
  accuracy_of : accuracy;
  caseSensitive : bool;
  ignoreJoiners : bool;
  ignorePunctuation : list jsstring;
  wildcards_of : wildcards;
  blockElementsBoundary : option boundary
}.

(** [sortByLength], 402-407. *)
Definition byLength (a b : jsstring) : Z :=
  if jslen a =? jslen b then (if string_gtb a b then 1 else -1)
  else jslen b - jslen a.

Definition sortByLength (arry : list jsstring) : list jsstring :=
  sort byLength arry.

(** [escapeStr], 408-410: [str.replace(/[\-\[\]\/\{\}\(\)\*\+\?\.\\\^\$\|]/g, '\\$&')]. *)
Definition syntax_chars : jsstring := js "-[]/{}()*+?.\^$|".

Definition is_syntax_char (c : jschar) : bool := mem c syntax_chars.

Definition escapeStr (str : jsstring) : jsstring :=
  replace_with (match_class is_syntax_char) (js "\$&") str.

(** [setupWildcardsRegExp], 433-440. *)
Definition wildcard_replacer (lit mark : jschar)
  (_ : unit) (_ val _ : jsstring) : jsstring :=
  match val with
  | c :: _ => if N.eqb c c_backslash then [lit] else [mark]
  | [] => [mark]
  end.

Definition setupWildcardsRegExp (str : jsstring) : jsstring :=
  let str1 :=
    replace (match_backslashes_then c_question)
            (wildcard_replacer c_question 1%N) str in
  replace (match_backslashes_then c_star)
          (wildcard_replacer c_star 2%N) str1.

(** One of the two replacements of [setupWildcardsRegExp], read in a
    single pass from left to right: [k] counts the backslashes met
    since the last character that was written.  [x] is the wildcard
    character and [mark] its placeholder. *)
Fixpoint placeholder_pass (x mark : jschar) (s : jsstring) (k : nat)
  : jsstring :=
  match s with
  | [] => repeat c_backslash k
  | c :: rest =>
      if N.eqb c c_backslash then placeholder_pass x mark rest (S k)
      else if N.eqb c x then
        (match k with O => mark | _ => x end) :: placeholder_pass x mark rest 0
      else repeat c_backslash k ++ c :: placeholder_pass x mark rest 0
  end.

Definition ends_with_backslash (s : jsstring) : bool :=
  match rev s with
  | c :: _ => N.eqb c c_backslash
  | [] => false
  end.

(** The placeholding stage as the specification words it, to be
    compared with [setupWildcardsRegExp]: a backslash with a [?] or a
    [*] after it gives that character, a [?] or a [*] elsewhere gives
    U+0001 or U+0002, and every other character stays. *)
Fixpoint placeholders_of_spec (s : jsstring) : jsstring :=
  match s with
  | [] => []
  | c :: rest =>
      match rest with
      | d :: rest' =>
          if N.eqb c c_backslash && (N.eqb d c_question || N.eqb d c_star)
          then d :: placeholders_of_spec rest'
          else (if N.eqb c c_question then 1%N
                else if N.eqb c c_star then 2%N else c)
               :: placeholders_of_spec rest
      | [] =>
          [if N.eqb c c_question then 1%N
           else if N.eqb c c_star then 2%N else c]
      end
  end.

(** [createSynonymsRegExp], 411-432.  When the value of a key is an
    array, [unshift] and [sort] change the caller's array in place; the
    function therefore also returns the [synonyms] object as it leaves
    it.  [canonicalize] is the case folding of the [i] flag. *)
Section Synonyms.
Variable canonicalize : jschar -> jschar.

Definition fold_case (case_sensitive : bool) : jschar -> jschar :=
  if case_sensitive then (fun c => c) else canonicalize.

Definition synonym_keys (wc : wildcards) (sorted : list jsstring)
  : list jsstring :=
  filter (fun k => negb (jsstring_eqb k []))
    (map (fun key =>
            escapeStr (match wc with
                       | Disabled => key
                       | _ => setupWildcardsRegExp key
                       end)) sorted).

Definition replace_synonyms (case_sensitive : bool) (keys : list jsstring)
  (str : jsstring) : jsstring :=
  let pattern := join (js "|") (map escapeStr keys) in
  replace_with
    (match_alternatives (fold_case case_sensitive)
       (literal_alternatives pattern))
    (js "(?:" ++ join (js "|") keys ++ js ")") str.

Fixpoint createSynonymsRegExp_loop (o : options) (syn : synonyms)
  (str : jsstring) : jsstring * synonyms :=
  match syn with
  | [] => (str, [])
  | (index, v) :: rest =>
      let unshifted :=
        index :: match v with SynArray vs => vs | SynString s => [s] end in
      let sorted := sortByLength unshifted in
      let v' := match v with SynArray _ => SynArray sorted | _ => v end in
      let keys := synonym_keys (wildcards_of o) sorted in
      let str' :=
        if (1 <? length keys)%nat
        then replace_synonyms (caseSensitive o) keys str
        else str in
      let '(res, rest') := createSynonymsRegExp_loop o rest str' in
      (res, (index, v') :: rest')
  end.

Definition createSynonymsRegExp := createSynonymsRegExp_loop.
End Synonyms.

(** [createWildcardsRegExp], 441-448. *)
Definition createWildcardsRegExp (o : options) (str : jsstring) : jsstring :=
  let spaces := match wildcards_of o with WithSpaces => true | _ => false end in
  let anyChar :=
    match spaces, blockElementsBoundary o with
    | true, Some b =>
        js "[^" ++ (match bchar b with [] => [1%N] | c => c end) ++ js "]*?"
    | _, _ => js "[\S\s]*?"
    end in
  let str1 :=
    replace_with (match_class (N.eqb 1%N))
      (if spaces then js "[\S\s]?" else js "\S?") str in
  replace_with (match_class (N.eqb 2%N))
    (if spaces then anyChar else js "\S*") str1.

(** [setupIgnoreJoinersRegExp], 449-453: the matcher of
    [/(\(\?:|\|)|\\?.(?=([|)]|$)|.)/g].  The boolean tells whether
    group 1 or group 2 took part in the match. *)
Definition starts_with (p s : jsstring) : bool :=
  literal_matches (fun c => c) p s.

Definition joiner_dot (n : nat) (c : jschar) (rest : jsstring)
  : option (nat * bool) :=
  if is_line_terminator c then None
  else match rest with
       | [] => Some (n, true)
       | d :: _ =>
           if N.eqb d c_pipe || N.eqb d c_rparen then Some (n, true)
           else if is_line_terminator d then None
           else Some (n, false)
       end.

Definition match_joiner_site (s : jsstring) : option (nat * bool) :=
  if starts_with (js "(?:") s then Some (3%nat, true)
  else if starts_with (js "|") s then Some (1%nat, true)
  else match s with
       | [] => None
       | c :: rest =>
           if N.eqb c c_backslash then
             match rest with
             | d :: rest' =>
                 match joiner_dot 2 d rest' with
                 | Some r => Some r
                 | None => joiner_dot 1 c rest
                 end
             | [] => joiner_dot 1 c rest
             end
           else joiner_dot 1 c rest
       end.

Definition setupIgnoreJoinersRegExp (str : jsstring) : jsstring :=
  replace match_joiner_site
    (fun (grouped : bool) _ m _ => if grouped then m else m ++ [0%N]) str.

(** [createJoinersRegExp], 454-466. *)
Definition createJoinersRegExp (o : options) (str : jsstring) : jsstring :=
  let joiner1 :=
    match ignorePunctuation o with
    | [] => []
    | ps => [escapeStr (join [] ps)]
    end in
  let joiner :=
    joiner1 ++ (if ignoreJoiners o then [js "\u00ad\u200b\u200c\u200d"] else []) in
  match joiner with
  | [] => str
  | _ => join (js "[" ++ join [] joiner ++ js "]*") (split_runs (N.eqb 0%N) str)
  end.

(** [createDiacriticsRegExp], 467-491. *)
Definition diacritics_table : list (jsstring * jsstring) :=
  [ ([97; 224; 225; 7843; 227; 7841; 259; 7857; 7855; 7859; 7861; 7863;
      226; 7847; 7845; 7849; 7851; 7853; 228; 229; 257; 261],
     [65; 192; 193; 7842; 195; 7840; 258; 7856; 7854; 7858; 7860; 7862;
      194; 7846; 7844; 7848; 7850; 7852; 196; 197; 256; 260]);
    ([99; 231; 263; 269], [67; 199; 262; 268]);
    ([100; 273; 271], [68; 272; 270]);
    ([101; 232; 233; 7867; 7869; 7865; 234; 7873; 7871; 7875; 7877; 7879;
      235; 283; 275; 281],
     [69; 200; 201; 7866; 7868; 7864; 202; 7872; 7870; 7874; 7876; 7878;
      203; 282; 274; 280]);
    ([105; 236; 237; 7881; 297; 7883; 238; 239; 299],
     [73; 204; 205; 7880; 296; 7882; 206; 207; 298]);
    ([108; 322], [76; 321]);
    ([110; 241; 328; 324], [78; 209; 327; 323]);
    ([111; 242; 243; 7887; 245; 7885; 244; 7891; 7889; 7893; 7895; 7897;
      417; 7903; 7905; 7899; 7901; 7907; 246; 248; 333],
     [79; 210; 211; 7886; 213; 7884; 212; 7890; 7888; 7892; 7894; 7896;
      416; 7902; 7904; 7898; 7900; 7906; 214; 216; 332]);
    ([114; 345], [82; 344]);
    ([115; 353; 347; 537; 351], [83; 352; 346; 536; 350]);
    ([116; 357; 539; 355], [84; 356; 538; 354]);
    ([117; 249; 250; 7911; 361; 7909; 432; 7915; 7913; 7917; 7919; 7921;
      251; 252; 367; 363],
     [85; 217; 218; 7910; 360; 7908; 431; 7914; 7912; 7916; 7918; 7920;
      219; 220; 366; 362]);
    ([121; 253; 7923; 7927; 7929; 7925; 255],
     [89; 221; 7922; 7926; 7928; 7924; 376]);
    ([122; 382; 380; 378], [90; 381; 379; 377]) ]%N.

Fixpoint diacritics_class (case_sensitive : bool)
  (table : list (jsstring * jsstring)) (c : jschar) : jsstring :=
  match table with
  | [] => [c]
  | (lower, upper) :: rest =>
      if case_sensitive then
        if mem c lower then js "[" ++ lower ++ js "]"
        else if mem c upper then js "[" ++ upper ++ js "]"
        else diacritics_class case_sensitive rest c
      else if mem c lower || mem c upper
           then js "[" ++ lower ++ upper ++ js "]"
           else diacritics_class case_sensitive rest c
  end.

Definition createDiacriticsRegExp (o : options) (str : jsstring) : jsstring :=
  concat (map (diacritics_class (caseSensitive o) diacritics_table) str).

(** [createMergedBlanksRegExp], 492-494. *)
Definition createMergedBlanksRegExp (str : jsstring) : jsstring :=
  replace_with (match_run is_space) (js "[\s]+") str.

(** [createAccuracyRegExp], 495-525. *)
Record patternObj := {
  lookbehind : jsstring;
  pattern : jsstring;
  lookahead : jsstring
}.

Definition punctuation_chars : jsstring :=
  [33; 34; 35; 36; 37; 38; 39; 40; 41; 42; 43; 44; 45; 46; 47; 58; 59; 60;
   61; 62; 63; 64; 91; 92; 93; 94; 95; 96; 123; 124; 125; 126; 161; 191]%N.

(** [typeof acc === 'string' ? acc : acc.value] and
    [typeof acc === 'string' ? [] : acc.limiters] *)
Definition accuracy_value (o : options) : accval :=
  match accuracy_of o with AccString v => v | AccObject v _ => v end.

Definition accuracy_limiters (o : options) : list jsstring :=
  match accuracy_of o with AccString _ => [] | AccObject _ l => l end.

Definition createAccuracyParts (o : options) (str : jsstring) : patternObj :=
  let val := accuracy_value o in
  let ls := accuracy_limiters o in
  let lsJoin :=
    fold_left (fun acc limiter => acc ++ js "|" ++ escapeStr limiter) ls [] in
  match val with
  | Partially =>
      {| lookbehind := js "()"; pattern := str; lookahead := [] |}
  | Complementary =>
      let lsJoin' :=
        js "\s" ++ (match lsJoin with
                    | [] => escapeStr punctuation_chars
                    | _ => lsJoin
                    end) in
      {| lookbehind := js "()";
         pattern := js "[^" ++ lsJoin' ++ js "]*" ++ str
                    ++ js "[^" ++ lsJoin' ++ js "]*";
         lookahead := [] |}
  | Exactly =>
      {| lookbehind := js "(^|\s" ++ lsJoin ++ js ")";
         pattern := str;
         lookahead := js "(?=$|\s" ++ lsJoin ++ js ")" |}
  end.

Definition whole_pattern (p : patternObj) : jsstring :=
  lookbehind p ++ js "(" ++ pattern p ++ js ")" ++ lookahead p.

(** What [create] returns: the three parts, or a [RegExp]. *)
Record regexp := { source : jsstring; flags : jsstring }.

Inductive created :=
| Parts (p : patternObj)
| Compiled (r : regexp).

Definition createAccuracyRegExp (o : options) (str : jsstring)
  (patterns : bool) : patternObj + jsstring :=
  let p := createAccuracyParts o str in
  if patterns then inl p else inr (whole_pattern p).

(** [create], 363-390. *)
Section Create.
Variable canonicalize : jschar -> jschar.

Definition joiners_wanted (o : options) : bool :=
  ignoreJoiners o || negb (length (ignorePunctuation o) =? 0)%nat.

Definition create_body (o : options) (syn : synonyms) (str : jsstring)
  : jsstring * synonyms :=
  let str := match wildcards_of o with
             | Disabled => str
             | _ => setupWildcardsRegExp str
             end in
  let str := escapeStr str in
  let '(str, syn') :=
    match syn with
    | [] => (str, syn)
    | _ => createSynonymsRegExp canonicalize o syn str
    end in
  let str := if joiners_wanted o then setupIgnoreJoinersRegExp str else str in
  let str := if diacritics o then createDiacriticsRegExp o str else str in
  let str := createMergedBlanksRegExp str in
  let str := if joiners_wanted o then createJoinersRegExp o str else str in
  let str := match wildcards_of o with
             | Disabled => str
             | _ => createWildcardsRegExp o str
             end in
  (str, syn').

Definition create (o : options) (syn : synonyms) (str : jsstring)
  (patterns : bool) : created * synonyms :=
  let '(str, syn') := create_body o syn str in
  match createAccuracyRegExp o str patterns with
  | inl p => (Parts p, syn')
  | inr src =>
      (Compiled {| source := src;
                   flags := js "gm" ++ (if caseSensitive o then [] else js "i") |},
       syn')
  end.
End Create.

End RegExpCreator.

(** ** Results of code that can throw

    [Throw] is an uncaught exception ([TypeError] on a property of
    [undefined], [IndexSizeError] of [splitText]).  [OutOfFuel] only
    says that the bound given to a loop of the model was too small. *)

Inductive outcome (A : Type) :=
| Ok (a : A)
| Throw
| OutOfFuel.

Arguments Ok {A} a.
Arguments Throw {A}.
Arguments OutOfFuel {A}.

Definition bind {A B : Type} (x : outcome A) (k : A -> outcome B) : outcome B :=
  match x with
  | Ok a => k a
  | Throw => Throw
  | OutOfFuel => OutOfFuel
  end.

Notation "'do' x <- e ;; k" := (bind e (fun x => k))
  (at level 10, x pattern, e at level 100, k at level 200).

Definition lift {A : Type} (x : option A) : outcome A :=
  match x with
  | Some a => Ok a
  | None => Throw
  end.

(** ** Search terms: [getSeparatedKeywords] (mark.umd.js 595-616) *)

Module Keywords.
Import Host.

Definition indexOf_absent (stack : list jsstring) (kw : jsstring) : bool :=
  negb (existsb (jsstring_eqb kw) stack).

(** [if (kw.trim() && stack.indexOf(kw) === -1) stack.push(kw)] *)
Definition push_keyword (stack : list jsstring) (kw : jsstring)
  : list jsstring :=
  if negb (jsstring_eqb (trim kw) []) && indexOf_absent stack kw
  then stack ++ [kw] else stack.

Record separated := { keywords : list jsstring; length_of : Z }.

Definition collect_keywords (separateWordSearch : bool) (sv : list jsstring)
  : list jsstring :=
  fold_left
    (fun stack kw =>
       if negb separateWordSearch then push_keyword stack kw
       else fold_left push_keyword (split_char c_space kw) stack)
    sv [].

(** [stack.sort] sorts the array in place and returns it, so the
    [length] property is read from the sorted array. *)
Definition getSeparatedKeywords (separateWordSearch : bool)
  (sv : list jsstring) : separated :=
  let stack :=
    sort (fun a b => jslen b - jslen a)
         (collect_keywords separateWordSearch sv) in
  {| keywords := stack; length_of := Z.of_nat (length stack) |}.

(** The strings [push_keyword] is offered: the terms themselves, or
    their pieces between single spaces. *)
Definition candidates (separateWordSearch : bool) (sv : list jsstring)
  : list jsstring :=
  if separateWordSearch then flat_map (split_char c_space) sv else sv.

(** [k] is a piece of [s] between two separators [c]: it holds no
    [c]; before it in [s] there is a [c] or nothing, and after it
    there is a [c] or nothing. *)
Definition piece_of (c : jschar) (k s : jsstring) : Prop :=
  mem c k = false /\
  exists a b, s = a ++ k ++ b /\
    (a = [] \/ exists a', a = a' ++ [c]) /\
    (b = [] \/ exists b', b = c :: b').

(** The invariant of the stack while the terms in [seen] have been
    offered to [push_keyword]. *)
Definition good_stack (seen stack : list jsstring) : Prop :=
  NoDup stack /\
  forall k, In k stack <-> (In k seen /\ has_non_space k = true).

End Keywords.

(** ** Range validation: [isNumeric], [checkRanges],
    [callNoMatchOnInvalidRanges], [checkWhitespaceRanges]
    (mark.umd.js 617-704) *)

Module Ranges.
Import Host.

(** The numbers of a subtraction: NaN, a number, or an infinity. *)
Inductive number := NaN | Num (q : QArith_base.Q) | Inf (negative : bool).

(** The values a caller can put in [start] and [length], by what the
    code reads of them: whether [typeof] finds the property
    [undefined]; whether [isNumeric] finds the value numeric; what
    [parseInt(_, 10)] reads in it ([None] is NaN); and the number it
    converts to in the subtraction of [sort]'s comparator.  A Symbol
    converts neither to a string nor to a number: [isNumeric],
    [parseInt] and the subtraction throw a TypeError.  (A BigInt is
    not modelled.)  The integers that [parseInt] gives are exact in
    the model; in the code they are doubles, so that the model is the
    code as long as they and their sums are below 2^53 in size. *)
Inductive jsval :=
| VUndefined
| VSymbol
| VValue (numeric : bool) (parsed : option Z) (number : number).

(** The number 5, or a string that reads as 5. *)
Definition VNumber (z : Z) : jsval :=
  VValue true (Some z) (Num (QArith_base.inject_Z z)).

(** [Infinity] and [-Infinity]: numeric, but [parseInt] gives NaN. *)
Definition VInfinity (negative : bool) : jsval :=
  VValue true None (Inf negative).

(** A value that is not numeric: ['5px'] is [VOther (Some 5) NaN],
    [null] is [VOther None (Num 0)]. *)
Definition VOther (parsed : option Z) (number : number) : jsval :=
  VValue false parsed number.

Definition converts (v : jsval) : bool :=
  match v with VSymbol => false | _ => true end.

(** What [isNumeric] and [parseInt] give for a value that converts. *)
Definition numeric (v : jsval) : bool :=
  match v with
  | VValue n _ _ => n
  | _ => false
  end.

Definition parsed_int (v : jsval) : option Z :=
  match v with
  | VValue _ p _ => p
  | _ => None
  end.

(** [isNumeric(value)]: [Number(parseFloat(value)) == value]. *)
Definition isNumeric (v : jsval) : outcome bool :=
  if converts v then Ok (numeric v) else Throw.

(** [parseInt(value, 10)]; [None] is NaN. *)
Definition parseInt (v : jsval) : outcome (option Z) :=
  if converts v then Ok (parsed_int v) else Throw.

(** A range as the caller wrote it, and a range that passed
    [checkRanges] ([item.start = start; item.length = end - start]). *)
Record rawRange := { r_start : jsval; r_length : jsval }.
Record range := { start : Z; length_of : Z }.

(** An entry of the array: an object, or [null] or [undefined] in its
    place.  (A number, a string or a boolean in the place of a range
    has no [start]: it goes the way of an object without [start].) *)
Inductive entry :=
| EObject (r : rawRange)
| ENull
| EUndefined.

(** The comparator of [sort], 631-633: [a.start - b.start].  Reading
    [start] of [null] throws a TypeError, and so does the subtraction
    when one of the two is a Symbol. *)
Definition comparable (e : entry) : bool :=
  match e with
  | EObject r => converts (r_start r)
  | _ => false
  end.

(** The number a value converts to, [a - b], and the sign [sort]
    reads from the result of the comparator; NaN counts as [+0]. *)
Definition toNumber (v : jsval) : number :=
  match v with
  | VValue _ _ n => n
  | _ => NaN
  end.

Definition minus (a b : number) : number :=
  match a, b with
  | Num x, Num y => Num (QArith_base.Qminus x y)
  | Inf s, Num _ => Inf s
  | Num _, Inf s => Inf (negb s)
  | Inf s, Inf t => if Bool.eqb s t then NaN else Inf s
  | _, _ => NaN
  end.

Definition sort_sign (v : number) : Z :=
  match v with
  | NaN => 0
  | Num q => Z.sgn (QArith_base.Qnum q)
  | Inf false => 1
  | Inf true => -1
  end.

(** The comparator on two entries that are [comparable]. *)
Definition by_start (a b : entry) : Z :=
  match a, b with
  | EObject x, EObject y =>
      sort_sign (minus (toNumber (r_start x)) (toNumber (r_start y)))
  | _, _ => 0
  end.

(** Whether the comparator is consistent on the entries: no [start] is
    NaN, or the comparator finds no two entries different. *)
Definition ordered (e : entry) : bool :=
  match e with
  | EObject r => match toNumber (r_start r) with NaN => false | _ => true end
  | _ => false
  end.

Definition consistent (l : list entry) : bool :=
  forallb ordered l
  || forallb (fun a => forallb (fun b => by_start a b =? 0) l) l.

Definition is_undefined (e : entry) : bool :=
  match e with EUndefined => true | _ => false end.

(** [a + b], [a >= b], [a > b] on numbers that may be NaN. *)
Definition nan_add (a b : option Z) : option Z :=
  match a, b with
  | Some x, Some y => Some (x + y)
  | _, _ => None
  end.

Definition nan_geb (a b : option Z) : bool :=
  match a, b with
  | Some x, Some y => x >=? y
  | _, _ => false
  end.

Definition nan_gtb (a b : option Z) : bool :=
  match a, b with
  | Some x, Some y => x >? y
  | _, _ => false
  end.

Record checked := {
  c_start : option Z;
  c_end : option Z;
  c_valid : bool;
  c_noMatch : list entry             (* the calls of [opt.noMatch] *)
}.

(** [callNoMatchOnInvalidRanges(range, last)], 648-677.  The two
    [parseInt] come before the test, so a Symbol in [start] or in
    [length] throws there. *)
Definition callNoMatchOnInvalidRanges (item : entry) (last : Z)
  : outcome checked :=
  let rejected (start end_ : option Z) :=
    Ok {| c_start := start; c_end := end_; c_valid := false;
          c_noMatch := [item] |} in
  match item with
  | EObject r =>
      match r_start r with
      | VUndefined => rejected None None
      | _ =>
          do start <- parseInt (r_start r) ;;
          do len <- parseInt (r_length r) ;;
          let end_ := nan_add start len in
          do numeric_start <- isNumeric (r_start r) ;;
          do numeric_length <-
            (if numeric_start then isNumeric (r_length r) else Ok false) ;;
          if numeric_length && nan_geb start (Some last)
             && nan_gtb end_ start
          then Ok {| c_start := start; c_end := end_; c_valid := true;
                     c_noMatch := [] |}
          else rejected start end_
      end
  | _ => rejected None None
  end.

(** What [checkRanges] hands to [opt.noMatch]: a single entry, or the
    whole argument when it is not an array of objects. *)
Inductive report :=
| NoMatchRange (r : entry)
| NoMatchArray (a : list entry).

(** The [forEach] of [checkRanges], 635-645: the accepted stack, the
    [noMatch] calls and the last accepted end. *)
Fixpoint checkRanges_each (wrapAllRanges : bool) (items : list entry)
  (last : Z) : outcome (list range * list report * Z) :=
  match items with
  | [] => Ok ([], [], last)
  | item :: rest =>
      do c <- callNoMatchOnInvalidRanges item last ;;
      let reports := map NoMatchRange (c_noMatch c) in
      match c_valid c, c_start c, c_end c with
      | true, Some s, Some e =>
          do (stack, reps, last') <-
            checkRanges_each wrapAllRanges rest
              (if wrapAllRanges then last else e) ;;
          Ok ({| start := s; length_of := e - s |} :: stack,
              reports ++ reps, last')
      | _, _, _ =>
          do (stack, reps, last') <-
            checkRanges_each wrapAllRanges rest last ;;
          Ok (stack, reports ++ reps, last')
      end
  end.

Section Engine.
(** The order in which the [sort] of the engine leaves entries on
    which the comparator is not consistent: the language leaves it to
    the implementation. *)
Variable engine_order : list entry -> list entry.

(** [array.sort((a, b) => a.start - b.start)], 630-633.  [undefined]
    entries are not handed to the comparator and come last.  With two
    or more other entries each of them is compared, so one that is not
    [comparable] makes the call throw.  Where the comparator is
    consistent the result is that of the stable sort. *)
Definition sort_entries (array : list entry) : outcome (list entry) :=
  let defined := filter (fun e => negb (is_undefined e)) array in
  let undefineds := filter is_undefined array in
  if (2 <=? length defined)%nat && negb (forallb comparable defined)
  then Throw
  else Ok ((if consistent defined then sort by_start defined
            else engine_order defined) ++ undefineds).

(** [checkRanges(array)], 620-647, for an array.  [array[0]] has to be
    an object, or the first branch is taken. *)
Definition checkRanges (wrapAllRanges : bool) (array : list entry)
  : outcome (list range * list report) :=
  match array with
  | EObject _ :: _ =>
      do sorted <- sort_entries array ;;
      do (stack, reps, _) <- checkRanges_each wrapAllRanges sorted 0 ;;
      Ok (stack, reps)
  | _ => Ok ([], [NoMatchArray array])
  end.
End Engine.

(** The bounds of a range that [callNoMatchOnInvalidRanges] finds
    valid. *)
Definition accepted_bounds (item : entry) (last : Z)
  : outcome (option (Z * Z)) :=
  do c <- callNoMatchOnInvalidRanges item last ;;
  Ok match c_valid c, c_start c, c_end c with
     | true, Some s, Some e => Some (s, e)
     | _, _, _ => None
     end.

(** The end of an accepted range, and what makes an entry invalid
    after the ranges in [accepted]: it is no object, its start or its
    length is not numeric, its end is not greater than its start, or,
    when overlaps are not allowed, its start is before the end of an
    accepted range. *)
Definition range_end (a : range) : Z := start a + length_of a.

Definition invalid_range (wrapAllRanges : bool) (accepted : list range)
  (item : entry) : Prop :=
  match item with
  | EObject r =>
      numeric (r_start r) = false \/
      numeric (r_length r) = false \/
      nan_gtb (nan_add (parsed_int (r_start r)) (parsed_int (r_length r)))
              (parsed_int (r_start r)) = false \/
      (wrapAllRanges = false /\
       exists a s, In a accepted /\ parsed_int (r_start r) = Some s /\
                   s < range_end a)
  | _ => True
  end.

(** An entry in which nothing throws: an object whose [start] and
    [length] are no Symbols, or [undefined]. *)
Definition plain (e : entry) : bool :=
  match e with
  | EObject r => converts (r_start r) && converts (r_length r)
  | ENull => false
  | EUndefined => true
  end.

Record rechecked := {
  w_start : Z;
  w_end : Z;
  w_valid : bool;
  w_noMatch : list range
}.

(** [checkWhitespaceRanges(range, originalLength, string)], 678-704. *)
Definition checkWhitespaceRanges (r : range) (originalLength : Z)
  (string : jsstring) : rechecked :=
  let max := jslen string in
  let offset := originalLength - max in
  let start0 := start r - offset in
  let start := if start0 >? max then max else start0 in
  let end0 := start + length_of r in
  let end_ := if end0 >? max then max else end0 in
  if (start <? 0) || (end_ - start <=? 0) then
    {| w_start := start; w_end := end_; w_valid := false; w_noMatch := [r] |}
  else if negb (has_non_space (substring string start end_)) then
    {| w_start := start; w_end := end_; w_valid := false; w_noMatch := [r] |}
  else
    {| w_start := start; w_end := end_; w_valid := true; w_noMatch := [] |}.

End Ranges.

(** ** Fragments: the node list of [getTextNodesAcrossElements] and
    [getTextNodes], and the wrap operations (mark.umd.js 772-999)

    A DOM text node is modelled by its [textContent]; a marker element
    by the text it wraps. *)

Module Fragments.
Import Host.

Record nodeInfo := {
  start : Z;
  end_ : Z;
  offset : Z;
  startOffset : option Z;      (* absent on the objects the wraps create *)
  node : jsstring
}.

Record dict := {
  value : jsstring;
  nodes : list nodeInfo;
  lastIndex : nat;
  lastTextIndex : Z
}.

Definition set_nodes (d : dict) (l : list nodeInfo) : dict :=
  {| value := value d; nodes := l; lastIndex := lastIndex d;
     lastTextIndex := lastTextIndex d |}.

Definition set_lastIndex (d : dict) (i : nat) : dict :=
  {| value := value d; nodes := nodes d; lastIndex := i;
     lastTextIndex := lastTextIndex d |}.

Definition set_lastTextIndex (d : dict) (x : Z) : dict :=
  {| value := value d; nodes := nodes d; lastIndex := lastIndex d;
     lastTextIndex := x |}.

(** *** Fragment collection

    For every text node the tree walker delivers, the DOM inspection of
    [checkParents]/[checkNextSiblings] leaves a value in [type]: [0]
    (none), [1] (block element) or [2] (boundary element).  The walker
    and that inspection are external; a text node arrives here as its
    text and that value. *)

Record textNode := { text : jsstring; blockType : Z }.

Record collector := {
  val : jsstring;
  collected : list nodeInfo;
  running_startOffset : Z
}.

(** The [forEachNode] callback of [getTextNodesAcrossElements],
    801-843.  [boundary] is [opt.blockElementsBoundary], [str] its
    marker followed by a space. *)
Definition collect_node (boundary : bool) (str : jsstring) (c : collector)
  (t : textNode) : collector :=
  let start := jslen (val c) in
  let txt := text t in
  let endBySpace :=
    match rev txt with
    | last :: _ => is_space last
    | [] => false
    end in
  let ty := if boundary || negb endBySpace then blockType t else 0 in
  let '(val', offset) :=
    if negb (ty =? 0) then
      if negb endBySpace then
        if ty =? 1 then (val c ++ txt ++ js " ", 1)
        else if ty =? 2 then (val c ++ txt ++ js " " ++ str, 3)
        else (val c, 0)
      else if ty =? 2 then (val c ++ txt ++ str, 2)
      else (val c, 0)
    else (val c, 0) in
  let val'' := if offset =? 0 then val' ++ txt else val' in
  {| val := val'';
     collected := collected c ++
       [{| start := start; end_ := jslen val'' - offset; offset := offset;
           startOffset := Some (running_startOffset c); node := txt |}];
     running_startOffset := running_startOffset c - offset |}.

Definition getTextNodesAcrossElements
  (boundary : option RegExpCreator.boundary) (ts : list textNode) : dict :=
  let str := match boundary with
             | Some {| RegExpCreator.bchar := c :: _ |} => [c; c_space]
             | _ => [1%N; c_space]
             end in
  let c := fold_left
             (collect_node (match boundary with Some _ => true | None => false end) str)
             ts {| val := []; collected := []; running_startOffset := 0 |} in
  {| value := val c; nodes := collected c; lastIndex := 0;
     lastTextIndex := 0 |}.

(** [getTextNodes], 863-896. *)
Definition getTextNodes_step (c : collector) (txt : jsstring) : collector :=
  {| val := val c ++ txt;
     collected := collected c ++
       [{| start := jslen (val c); end_ := jslen (val c ++ txt); offset := 0;
           startOffset := None; node := txt |}];
     running_startOffset := 0 |}.

Definition getTextNodes (ts : list jsstring) : dict :=
  let c := fold_left getTextNodes_step ts
             {| val := []; collected := []; running_startOffset := 0 |} in
  {| value := val c; nodes := collected c; lastIndex := 0;
     lastTextIndex := 0 |}.

(** The first lines of [getTextNodesAcrossElements], 773-778: with
    [cacheTextNodes] the list of the previous search is used again. *)
Definition reuse_cache (d : dict) : dict :=
  {| value := value d; nodes := nodes d; lastIndex := 0; lastTextIndex := 0 |}.

(** Consecutive fragments are contiguous: the end of a fragment plus
    its boundary offset is the start of the next one. *)
Fixpoint contiguous (l : list nodeInfo) : bool :=
  match l with
  | a :: ((b :: _) as rest) =>
      (end_ a + offset a =? start b) && contiguous rest
  | _ => true
  end.

(** The span from [start_] to [end'] covers some text of the
    fragment. *)
Definition covers (start_ end' : Z) (n : nodeInfo) : bool :=
  Z.max start_ (start n) <? Z.min end' (end_ n).

(** A fragment whose bounds agree with its text, and a list of such
    fragments that is contiguous. *)
Definition well_sized (n : nodeInfo) : Prop :=
  start n <= end_ n /\ 0 <= offset n /\ jslen (node n) = end_ n - start n.

Definition chain (l : list nodeInfo) : Prop :=
  contiguous l = true /\ Forall well_sized l.

(** The text of a fragment that the span from [start_] to [end']
    covers, and these texts for the covered fragments of a list. *)
Definition marked_text (start_ end' : Z) (n : nodeInfo) : jsstring :=
  let s := Z.max start_ (start n) - start n in
  let e := Z.min end' (end_ n) - start n in
  firstn (Z.to_nat (e - s)) (skipn (Z.to_nat s) (node n)).

Definition markers (l : list nodeInfo) (start_ end' : Z) : list jsstring :=
  map (marked_text start_ end') (filter (covers start_ end') l).

(** The first marker of a range is flagged with [rangeStart], the
    others are not. *)
Definition flagged (rangeStart : bool) (texts : list jsstring)
  : list (jsstring * bool) :=
  match texts with
  | [] => []
  | t :: ts => (t, rangeStart) :: map (fun t => (t, false)) ts
  end.

(** The fragment at [i] is the one to work on when it is the last one
    or the next one starts after [start_]. *)
Definition is_here (post : list nodeInfo) (start_ : Z) : Prop :=
  match post with
  | [] => True
  | n2 :: _ => start_ < start n2
  end.

(** The fragments a search can still reach: all of them when the list
    is kept between searches, otherwise those from [lastIndex] on. *)
Definition live (wrapAllRanges : bool) (d : dict) : list nodeInfo :=
  if wrapAllRanges then nodes d else skipn (lastIndex d) (nodes d).

(** *** DOM operations *)

(** The conversion of a number to the [unsigned long] of a DOM
    method: modulo 2^32. *)
Definition unsigned_long (k : Z) : Z := k mod 2 ^ 32.

(** [node.splitText(k)]: the node keeps the first [offset] code units,
    the new node gets the rest; [IndexSizeError] when [offset] is
    greater than the length.  [offset] is [k] as an [unsigned long].
    The data of a text node is shorter than 2^32 code units (its
    [length] is an [unsigned long] too), so a [k] within the data is
    its own [unsigned long]; this is how the first case is written. *)
Definition splitText (txt : jsstring) (k : Z) : outcome (jsstring * jsstring) :=
  let offset :=
    if (0 <=? k) && (k <=? jslen txt) then k else unsigned_long k in
  if offset >? jslen txt then Throw
  else Ok (firstn (Z.to_nat offset) txt, skipn (Z.to_nat offset) txt).

(** [wrapRangeInTextNode(node, start, end)], 901-906: the text of the
    node it returns and the text of the marker element. *)
Definition wrapRangeInTextNode (txt : jsstring) (s e : Z)
  : outcome (jsstring * jsstring) :=
  do (_, startNode) <- splitText txt s ;;
  do (marked, retNode) <- splitText startNode (e - s) ;;
  Ok (retNode, marked).

(** [array.splice(index, deleteCount, items...)] *)
Definition splice {A : Type} (l : list A) (index deleteCount : nat)
  (items : list A) : list A :=
  firstn index l ++ items ++ skipn (index + deleteCount) l.

(** Assignment to a property of [dict.nodes[index]]. *)
Definition update {A : Type} (l : list A) (index : nat) (x : A) : list A :=
  splice l index 1 [x].

Record inserted := {
  new_nodes : list nodeInfo;
  retNode : nodeInfo;
  markNode : jsstring;
  increment : nat
}.

(** [wrapRangeInTextNodeInsert(dict, n, s, e, start, index)], 918-954.
    [n] is the object at [dict.nodes[index]]; its fields are assigned
    in place. *)
Definition wrapRangeInTextNodeInsert (l : list nodeInfo) (n : nodeInfo)
  (s e start_ : Z) (index : nat) : outcome inserted :=
  let ended := e =? jslen (node n) in
  if (s =? 0) && ended then
    Ok {| new_nodes := update l index n; retNode := n; markNode := node n;
          increment := 0 |}
  else
    do (kept, nd) <- splitText (node n) s ;;
    do (marked, restNode) <- splitText nd (e - s) ;;
    let mNode := {| start := start_; end_ := start n + e; offset := 0;
                    startOffset := None; node := marked |} in
    let ret := {| start := start n + e; end_ := end_ n; offset := offset n;
                  startOffset := None; node := restNode |} in
    if s =? 0 then
      Ok {| new_nodes := splice l index 1 [mNode; ret]; retNode := ret;
            markNode := marked; increment := 1 |}
    else
      let n' := {| start := start n; end_ := start_; offset := 0;
                   startOffset := startOffset n; node := kept |} in
      if ended then
        Ok {| new_nodes := update (splice l (index + 1) 0 [mNode]) index n';
              retNode := ret; markNode := marked; increment := 1 |}
      else
        Ok {| new_nodes := update (splice l (index + 1) 0 [mNode; ret]) index n';
              retNode := ret; markNode := marked; increment := 2 |}.

(** *** [wrapRangeInMappedTextNode], 955-999

    [filterCb] and [eachCb] are closures over the caller's variables;
    [S] is the state of those variables. *)
Section Mapped.
Variable S : Type.
Variable filterCb : S -> nodeInfo -> bool * S.
Variable eachCb : S -> jsstring -> bool -> S.
(** [this.opt.wrapAllRanges || this.opt.cacheTextNodes] *)
Variable wrapAllRanges : bool.

(** [while (i >= 0 && dict.nodes[i].start > start) i--], for [i = k - 1].
    Every caller's [filterCb] reads a property of the fragment it is
    given, so leaving the list at index -1 ends in a [TypeError]. *)
Fixpoint rewind (l : list nodeInfo) (start_ : Z) (k : nat) : outcome nat :=
  match k with
  | O => Throw
  | Datatypes.S k' =>
      match nth_error l k' with
      | None => Throw
      | Some n => if start n >? start_ then rewind l start_ k' else Ok k'
      end
  end.

(** The [for] loop, 966-998. *)
Fixpoint mapped_loop (fuel : nat) (d : dict) (i : nat) (start_ end' : Z)
  (rangeStart : bool) (st : S) : outcome (dict * S) :=
  match fuel with
  | O => OutOfFuel
  | Datatypes.S fuel' =>
      if (i <? length (nodes d))%nat then
        let here :=
          if (i + 1 =? length (nodes d))%nat then Ok true
          else do n1 <- lift (nth_error (nodes d) (i + 1)) ;;
               Ok (start n1 >? start_) in
        do here <- here ;;
        if here then
          do n <- lift (nth_error (nodes d) i) ;;
          let '(accept, st) := filterCb st n in
          if negb accept then
            Ok (if (lastIndex d <? i)%nat then set_lastIndex d i else d, st)
          else
            let s := start_ - start n in
            let e := (if end' >? end_ n then end_ n else end') - start n in
            do (d, n, rangeStart, st) <-
              (if (s >=? 0) && (e >? s) then
                 if wrapAllRanges then
                   do ret <- wrapRangeInTextNodeInsert (nodes d) n s e start_ i ;;
                   Ok (set_nodes d (new_nodes ret), retNode ret, false,
                       eachCb st (markNode ret) rangeStart)
                 else
                   do (rest, marked) <- wrapRangeInTextNode (node n) s e ;;
                   let n' := {| start := start n + e; end_ := end_ n;
                                offset := offset n;
                                startOffset := startOffset n;
                                node := rest |} in
                   Ok (set_lastTextIndex (set_nodes d (update (nodes d) i n'))
                         (start n'),
                       n', false, eachCb st marked rangeStart)
               else Ok (d, n, rangeStart, st)) ;;
            if end' >? end_ n then
              mapped_loop fuel' d (i + 1) (end_ n + offset n) end' rangeStart st
            else Ok (set_lastIndex d i, st)
        else mapped_loop fuel' d (i + 1) start_ end' rangeStart st
      else Ok (d, st)
  end.

Definition wrapRangeInMappedTextNode (fuel : nat) (d : dict)
  (start_ end' : Z) (st : S) : outcome (dict * S) :=
  if wrapAllRanges then
    do i <- rewind (nodes d) start_ (lastIndex d + 1) ;;
    mapped_loop fuel d i start_ end' true st
  else if start_ <? lastTextIndex d then Ok (d, st)
  else mapped_loop fuel d (lastIndex d) start_ end' true st.

(** The calls of the two callbacks, and the state after a sequence of
    them. *)
Inductive action :=
| AFilter (n : nodeInfo)
| AEach (element : jsstring) (rangeStart : bool).

Definition act (st : S) (a : action) : S :=
  match a with
  | AFilter n => snd (filterCb st n)
  | AEach element rangeStart => eachCb st element rangeStart
  end.

Definition run (acts : list action) (st : S) : S := fold_left act acts st.

Definition eaches (acts : list action) : list (jsstring * bool) :=
  flat_map (fun a => match a with
                     | AEach element rangeStart => [(element, rangeStart)]
                     | AFilter _ => []
                     end) acts.

End Mapped.

End Fragments.

(** ** The matchers that work on the fragment list
    (mark.umd.js 1314-1386) *)

Module Engine.
Import Host Fragments.

(** What [regex.exec] returns: [match.index] and the array
    [match[0], match[1], ...], where a group that took no part is
    [undefined]. *)
Record jsmatch := { m_index : Z; m_groups : list (option jsstring) }.

(** The calls of the caller's callbacks, in the order they happen. *)
Inductive call :=
| CallFilter (text nd : jsstring) (matchStart : bool) (off : option Z)
| CallEach (element : jsstring) (matchStart : bool) (count : Z)
| CallNoMatch (r : Ranges.range)
| CallRangeFilter (nd : jsstring) (r : Ranges.range) (text : jsstring)
    (counter : nat)
| CallRangeEach (element : jsstring) (r : Ranges.range) (matchStart : bool)
    (count : Z).

(** The variables the closures of a matcher share. *)
Record closure := {
  count : Z;
  matchStart : bool;
  abort : bool;                 (* [execution.abort] *)
  log : list call
}.

Section Across.
(** The caller's [filter]: it sees the calls so far, the match, the
    text node and [filterInfo]; it answers and may set
    [filterInfo.execution.abort]. *)
Variable filter : list call -> jsmatch -> jsstring -> jsstring -> bool ->
                  option Z -> bool * bool.
Variable wrapAllRanges : bool.

Definition group (m : jsmatch) (k : nat) : outcome jsstring :=
  match nth_error (m_groups m) k with
  | Some (Some g) => Ok g
  | _ => Throw
  end.

(** [for (let i = 1; i < index; i++) start += match[i].length] *)
Fixpoint skip_groups (m : jsmatch) (i n : nat) (start_ : Z) : outcome Z :=
  match n with
  | O => Ok start_
  | Datatypes.S n' =>
      do g <- group m i ;;
      skip_groups m (i + 1) n' (start_ + jslen g)
  end.

Definition across_filterCb (m : jsmatch) (text : jsstring) (c : closure)
  (obj : nodeInfo) : bool * closure :=
  let '(accept, stop) :=
    filter (log c) m text (node obj) (matchStart c) (startOffset obj) in
  (accept,
   {| count := count c; matchStart := false; abort := abort c || stop;
      log := log c ++ [CallFilter text (node obj) (matchStart c) (startOffset obj)] |}).

Definition across_eachCb (c : closure) (element : jsstring)
  (rangeStart : bool) : closure :=
  let count' := if rangeStart then count c + 1 else count c in
  {| count := count'; matchStart := matchStart c; abort := abort c;
     log := log c ++ [CallEach element rangeStart count'] |}.

(** The body of the [while] loop of [wrapMatchesAcrossElements],
    1324-1347, for one match. *)
Definition wrapMatch (fuel : nat) (index : nat) (m : jsmatch) (d : dict)
  (c : closure) : outcome (dict * closure) :=
  let c := {| count := count c; matchStart := true; abort := abort c;
              log := log c |} in
  do start_ <- skip_groups m 1 (index - 1) (m_index m) ;;
  do text <- group m index ;;
  wrapRangeInMappedTextNode (across_filterCb m text) across_eachCb
    wrapAllRanges fuel d start_ (start_ + jslen text) c.

(** The [while] loop over the successive results of [regex.exec]. *)
Fixpoint wrapMatches_loop (fuel : nat) (index : nat) (ms : list jsmatch)
  (d : dict) (c : closure) : outcome (dict * closure) :=
  match ms with
  | [] => Ok (d, c)
  | m :: rest =>
      match nth_error (m_groups m) index with
      | Some (Some []) => Ok (d, c)
      | _ =>
          do (d', c') <- wrapMatch fuel index m d c ;;
          if abort c' then Ok (d', c')
          else wrapMatches_loop fuel index rest d' c'
      end
  end.

(** [wrapMatchesAcrossElements(regex, ignoreGroups, ...)]; the result
    holds the count that [endCb] receives. *)
Definition wrapMatchesAcrossElements (fuel : nat) (ignoreGroups : nat)
  (ms : list jsmatch) (d : dict) : outcome (dict * closure) :=
  let index := match ignoreGroups with O => O | _ => (ignoreGroups + 1)%nat end in
  wrapMatches_loop fuel index ms d
    {| count := 0; matchStart := true; abort := false; log := [] |}.
End Across.

(** A [filter] option that accepts everything, and the calls of
    [each] in a log. *)
Definition accept_all (_ : list call) (_ : jsmatch) (_ _ : jsstring)
  (_ : bool) (_ : option Z) : bool * bool := (true, false).

Definition each_calls (l : list call) : list call :=
  filter (fun c => match c with CallEach _ _ _ => true | _ => false end) l.

(** The calls of [each] for the markers of one match, when the count
    was [count] before it. *)
Definition marker_calls (count : Z) (texts : list jsstring) : list call :=
  match texts with
  | [] => []
  | t :: ts =>
      CallEach t true (count + 1)
      :: map (fun t => CallEach t false (count + 1)) ts
  end.

Section RangeMarking.
Variable filter : list call -> jsstring -> Ranges.range -> jsstring -> nat -> bool.
Variable wrapAllRanges : bool.

Definition range_filterCb (r : Ranges.range) (text : jsstring) (counter : nat)
  (c : closure) (obj : nodeInfo) : bool * closure :=
  (filter (log c) (node obj) r text counter,
   {| count := count c; matchStart := matchStart c; abort := abort c;
      log := log c ++ [CallRangeFilter (node obj) r text counter] |}).

Definition range_eachCb (r : Ranges.range) (c : closure)
  (element : jsstring) (rangeStart : bool) : closure :=
  let count' := if rangeStart then count c + 1 else count c in
  {| count := count'; matchStart := matchStart c; abort := abort c;
     log := log c ++ [CallRangeEach element r rangeStart count'] |}.

Definition report_noMatch (c : closure) (rs : list Ranges.range) : closure :=
  {| count := count c; matchStart := matchStart c; abort := abort c;
     log := log c ++ map CallNoMatch rs |}.

(** The callback of [ranges.forEach] in [wrapRangeFromIndex],
    1359-1383. *)
Definition wrapRange (fuel : nat) (originalLength : Z) (r : Ranges.range)
  (counter : nat) (d : dict) (c : closure) : outcome (dict * closure) :=
  let w := Ranges.checkWhitespaceRanges r originalLength (value d) in
  let c := report_noMatch c (Ranges.w_noMatch w) in
  if Ranges.w_valid w then
    wrapRangeInMappedTextNode
      (range_filterCb r (substring (value d) (Ranges.w_start w) (Ranges.w_end w))
         counter)
      (range_eachCb r) wrapAllRanges fuel d (Ranges.w_start w) (Ranges.w_end w) c
  else Ok (d, c).

Fixpoint wrapRanges_loop (fuel : nat) (originalLength : Z)
  (rs : list Ranges.range) (counter : nat) (d : dict) (c : closure)
  : outcome (dict * closure) :=
  match rs with
  | [] => Ok (d, c)
  | r :: rest =>
      do (d', c') <- wrapRange fuel originalLength r counter d c ;;
      wrapRanges_loop fuel originalLength rest (counter + 1) d' c'
  end.

(** [wrapRangeFromIndex(ranges, ...)], 1355-1386. *)
Definition wrapRangeFromIndex (fuel : nat) (rs : list Ranges.range)
  (d : dict) : outcome (dict * closure) :=
  wrapRanges_loop fuel (jslen (value d)) rs 0 d
    {| count := 0; matchStart := true; abort := false; log := [] |}.
End RangeMarking.

End Engine.

(** ** Capture groups of a pattern source:
    [collectRegexGroupIndexes] (mark.umd.js 1132-1164) *)

Module Groups.
Import Host.

Record scanner := {
  groups : list Z;
  stack : list Z;              (* the top of the stack is the head *)
  index : Z;
  brackets : Z;
  charsRange : bool
}.

(** [reg.test(str.substring(i))] for
    [reg = /^\(\?<(?![=!])|^\((?!\?)/], where [after] is the text that
    follows the parenthesis at [i]. *)
Definition opens_capture (after : jsstring) : bool :=
  match after with
  | [] => true
  | c :: r =>
      if N.eqb c c_question then
        match r with
        | d :: r' =>
            if N.eqb d c_lt then
              match r' with
              | e :: _ => negb (N.eqb e c_eq || N.eqb e c_bang)
              | [] => true
              end
            else false
        | [] => false
        end
      else true
  end.

Definition on_open (after : jsstring) (st : scanner) : scanner :=
  if charsRange st then st
  else if opens_capture after then
    {| groups := if brackets st =? 0 then groups st ++ [index st] else groups st;
       stack := 1 :: stack st;
       index := index st + 1;
       brackets := brackets st + 1;
       charsRange := charsRange st |}
  else
    {| groups := groups st; stack := 0 :: stack st; index := index st;
       brackets := brackets st; charsRange := charsRange st |}.

(** [!charsRange && stack.pop() === 1] *)
Definition on_close (st : scanner) : scanner :=
  if charsRange st then st
  else
    match stack st with
    | [] => st
    | top :: below =>
        {| groups := groups st; stack := below; index := index st;
           brackets := if top =? 1 then brackets st - 1 else brackets st;
           charsRange := charsRange st |}
    end.

Definition set_charsRange (st : scanner) (b : bool) : scanner :=
  {| groups := groups st; stack := stack st; index := index st;
     brackets := brackets st; charsRange := b |}.

(** The [while] loop; a backslash skips the character after it. *)
Fixpoint scan (str : jsstring) (st : scanner) : scanner :=
  match str with
  | [] => st
  | c :: rest =>
      if N.eqb c c_lparen then scan rest (on_open rest st)
      else if N.eqb c c_rparen then scan rest (on_close st)
      else if N.eqb c c_backslash then
        match rest with
        | [] => st
        | _ :: rest' => scan rest' st
        end
      else if N.eqb c c_lbracket then scan rest (set_charsRange st true)
      else if N.eqb c c_rbracket then scan rest (set_charsRange st false)
      else scan rest st
  end.

Definition collectRegexGroupIndexes (source : jsstring) : list Z :=
  groups (scan source {| groups := []; stack := []; index := 1;
                         brackets := 0; charsRange := false |}).

(** *** The structure of a pattern

    The reference the scanner is compared with: a pattern as a forest
    of atoms and groups, its source text, and the numbers the engine
    gives to its capturing groups (in the order of their opening
    parentheses, from 1). *)

Inductive classItem :=
| ClassChar (c : jschar)
| ClassEscape (c : jschar).

Inductive groupKind :=
| Capturing
| Named (name : jsstring)
| NonCapturing
| Lookahead
| NegativeLookahead
| Lookbehind
| NegativeLookbehind.

Inductive re :=
| Char (c : jschar)
| Escape (c : jschar)
| Class (items : list classItem)
| Group (k : groupKind) (body : list re).

Definition is_capturing (k : groupKind) : bool :=
  match k with
  | Capturing | Named _ => true
  | _ => false
  end.

Definition header (k : groupKind) : jsstring :=
  match k with
  | Capturing => []
  | Named name => js "?<" ++ name ++ js ">"
  | NonCapturing => js "?:"
  | Lookahead => js "?="
  | NegativeLookahead => js "?!"
  | Lookbehind => js "?<="
  | NegativeLookbehind => js "?<!"
  end.

Definition print_item (i : classItem) : jsstring :=
  match i with
  | ClassChar c => [c]
  | ClassEscape c => [c_backslash; c]
  end.

Fixpoint print (r : re) : jsstring :=
  match r with
  | Char c => [c]
  | Escape c => [c_backslash; c]
  | Class items => js "[" ++ concat (map print_item items) ++ js "]"
  | Group k body =>
      js "(" ++ header k
        ++ (fix print_all (l : list re) : jsstring :=
              match l with
              | [] => []
              | x :: l' => print x ++ print_all l'
              end) body
        ++ js ")"
  end.

Definition print_all (l : list re) : jsstring := concat (map print l).

(** The number of capturing groups in a pattern. *)
Fixpoint captures (r : re) : Z :=
  match r with
  | Group k body =>
      (if is_capturing k then 1 else 0)
      + (fix captures_all (l : list re) : Z :=
           match l with
           | [] => 0
           | x :: l' => captures x + captures_all l'
           end) body
  | _ => 0
  end.

Definition captures_all (l : list re) : Z :=
  fold_right (fun x acc => captures x + acc) 0 l.

(** The numbers of the capturing groups that lie in no other capturing
    group, left to right, when the next free number is [next]. *)
Fixpoint top_level (r : re) (next : Z) : list Z :=
  match r with
  | Group k body =>
      if is_capturing k then [next]
      else (fix top_level_all (l : list re) (next : Z) : list Z :=
              match l with
              | [] => []
              | x :: l' => top_level x next ++ top_level_all l' (next + captures x)
              end) body next
  | _ => []
  end.

Fixpoint top_level_all (l : list re) (next : Z) : list Z :=
  match l with
  | [] => []
  | x :: l' => top_level x next ++ top_level_all l' (next + captures x)
  end.

(** Which forests are patterns: a plain character is none of
    [( ) \[ \\]; inside a class anything but [\]] and [\\] is plain; a
    group name holds none of these and does not begin with [=] or [!];
    a capturing group does not begin with [?]. *)
Definition plain (c : jschar) : bool :=
  negb (mem c (js "()[\")).

Definition plain_in_class (c : jschar) : bool :=
  negb (mem c (js "]\")).

Definition name_ok (name : jsstring) : bool :=
  forallb (fun c => plain c && negb (N.eqb c c_rbracket)) name
  && match name with
     | c :: _ => negb (N.eqb c c_eq || N.eqb c c_bang)
     | [] => true
     end.

Definition kind_ok (k : groupKind) (body : list re) : bool :=
  match k with
  | Capturing =>
      match body with
      | Char c :: _ => negb (N.eqb c c_question)
      | _ => true
      end
  | Named name => name_ok name
  | _ => true
  end.

Fixpoint well_formed (r : re) : bool :=
  match r with
  | Char c => plain c
  | Escape _ => true
  | Class items =>
      forallb (fun i => match i with
                        | ClassChar c => plain_in_class c
                        | ClassEscape _ => true
                        end) items
  | Group k body =>
      kind_ok k body
      && (fix well_formed_all (l : list re) : bool :=
            match l with
            | [] => true
            | x :: l' => well_formed x && well_formed_all l'
            end) body
  end.

Definition well_formed_all (l : list re) : bool := forallb well_formed l.

(** The scanner after a pattern whose top-level capturing groups are
    [tops] and that holds [n] capturing groups. *)
Definition advance (st : scanner) (tops : list Z) (n : Z) : scanner :=
  {| groups := groups st ++ (if brackets st =? 0 then tops else []);
     stack := stack st;
     index := index st + n;
     brackets := brackets st;
     charsRange := false |}.

(** What the scanner does with the source of one pattern. *)
Definition scans (r : re) : Prop :=
  well_formed r = true ->
  forall (k : jsstring) (st : scanner),
    charsRange st = false -> 0 <= brackets st ->
    scan (print r ++ k) st
    = scan k (advance st (top_level r (index st)) (captures r)).

(** The characters the scanner passes over. *)
Definition inert (c : jschar) : bool := negb (mem c (js "()[]\")).

End Groups.

(** ** The stages of the pattern synthesiser, character by character

    Reference readings of [escapeStr] and [createMergedBlanksRegExp],
    and the checks on the table of [createDiacriticsRegExp] that the
    properties of these stages rest on. *)

Module PatternPieces.
Import Host RegExpCreator.

(** What [escapeStr] writes for one character. *)
Definition escaped (c : jschar) : jsstring :=
  if is_syntax_char c then [c_backslash; c] else [c].

(** [createMergedBlanksRegExp] read in a single pass from left to
    right: [inrun] tells that the character before was white space, so
    that the class for the run has been written already. *)
Fixpoint merge_pass (s : jsstring) (inrun : bool) : jsstring :=
  match s with
  | [] => []
  | c :: rest =>
      if is_space c then
        if inrun then merge_pass rest true
        else js "[\s]+" ++ merge_pass rest true
      else c :: merge_pass rest false
  end.

(** A row of the table is in order when every character of the row is
    given the class of that row: no row before it holds the
    character. *)
Definition row_in_order (row : jsstring * jsstring) : bool :=
  let '(lower, upper) := row in
  forallb (fun c =>
     jsstring_eqb (diacritics_class false diacritics_table c)
                  (js "[" ++ lower ++ upper ++ js "]")) (lower ++ upper)
  && forallb (fun c =>
     jsstring_eqb (diacritics_class true diacritics_table c)
                  (js "[" ++ lower ++ js "]")) lower
  && forallb (fun c =>
     jsstring_eqb (diacritics_class true diacritics_table c)
                  (js "[" ++ upper ++ js "]")) upper.

(** A character that is neither white space nor U+0000, the mark of
    [setupIgnoreJoinersRegExp]. *)
Definition solid (c : jschar) : bool :=
  negb (is_space c) && negb (N.eqb 0%N c).

End PatternPieces.

(** ** Where a fragment lies in the text of its dictionary *)

Module Placement.
Import Fragments.

(** The fragment [n] lies in the text [v] at its own bounds. *)
Definition placed (v : jsstring) (n : nodeInfo) : Prop :=
  exists pre post, v = pre ++ node n ++ post /\ start n = jslen pre /\
                   end_ n = jslen pre + jslen (node n).

End Placement.

(** ** Combined patterns: [createCombinePattern] (mark.umd.js 391-401),
    [getCurrentTerm] and [getPatterns] (1545-1580) *)

Module Combine.
Import Host RegExpCreator.

Section Patterns.
Variable canonicalize : jschar -> jschar.

(** [this.create(str, true)]: the object that
    [createAccuracyRegExp(str, true)] returns, and the [synonyms]
    object as the call leaves it. *)
Definition create_parts (o : options) (syn : synonyms) (str : jsstring)
  : patternObj * synonyms :=
  let '(str', syn') := create_body canonicalize o syn str in
  (createAccuracyParts o str', syn').

(** [array.map(str => `${group}${this.create(str, true).pattern})`)] *)
Fixpoint combine_map (o : options) (group : jsstring) (syn : synonyms)
  (array : list jsstring) : list jsstring * synonyms :=
  match array with
  | [] => ([], syn)
  | str :: rest =>
      let '(p, syn1) := create_parts o syn str in
      let '(ps, syn2) := combine_map o group syn1 rest in
      ((group ++ pattern p ++ js ")") :: ps, syn2)
  end.

(** [createCombinePattern(array, capture)]; [None] is [null]. *)
Definition createCombinePattern (o : options) (syn : synonyms)
  (array : list jsstring) (capture : bool) : option patternObj * synonyms :=
  match array with
  | [] => (None, syn)
  | first :: _ =>
      let group := if capture then js "(" else js "(?:" in
      let '(obj, syn1) := create_parts o syn first in
      let '(ps, syn2) := combine_map o group syn1 array in
      (Some {| lookbehind := lookbehind obj;
               pattern := join (js "|") ps;
               lookahead := lookahead obj |}, syn2)
  end.

(** [opt.combinePatterns]: an integer, [Infinity], or a value that is
    not a number or not numeric ([true], [NaN]). *)
Inductive combineOpt :=
| CombineNumber (n : Z)
| CombineInfinity
| CombineOther.

(** The chunk size [num] of [getPatterns], 1559-1566. *)
Definition chunk_size (v : combineOpt) : Z :=
  match v with
  | CombineInfinity => 2 ^ 31
  | CombineNumber n => n
  | CombineOther => 10
  end.

Record combined := {
  patterns : list jsstring;
  terms : list (list jsstring)
}.

(** The [for] loop of [getPatterns], 1568-1578, from round [k] on, with
    [rounds] rounds to go. *)
Fixpoint getPatterns_loop (o : options) (first : patternObj)
  (all : list jsstring) (num : nat) (rounds k : nat) (syn : synonyms)
  : outcome (combined * synonyms) :=
  match rounds with
  | O => Ok ({| patterns := []; terms := [] |}, syn)
  | S rounds' =>
      let patternTerms := firstn num (skipn (k * num) all) in
      match createCombinePattern o syn patternTerms true with
      | (None, _) => Throw
      | (Some cp, syn1) =>
          do (res, syn2) <-
            getPatterns_loop o first all num rounds' (k + 1) syn1 ;;
          Ok ({| patterns :=
                   (lookbehind first ++ js "(" ++ pattern cp ++ js ")"
                    ++ lookahead first) :: patterns res;
                 terms := patternTerms :: terms res |}, syn2)
      end
  end.

(** [getPatterns(terms)].  Without a first term [create] throws; when
    [num] is zero the number of rounds is [Infinity] and the first
    round throws on the [null] of [createCombinePattern]; when [num] is
    negative there is no round. *)
Definition getPatterns (o : options) (syn : synonyms) (combine : combineOpt)
  (all : list jsstring) : outcome (combined * synonyms) :=
  match all with
  | [] => Throw
  | t0 :: _ =>
      let '(first, syn1) := create_parts o syn t0 in
      let num := chunk_size combine in
      if num =? 0 then Throw
      else if num <? 0 then Ok ({| patterns := []; terms := [] |}, syn1)
      else
        let count := (Z.of_nat (length all) + num - 1) / num in
        getPatterns_loop o first all (Z.to_nat num) (Z.to_nat count) 0 syn1
  end.
End Patterns.

(** A value that counts as true in [if (match[i])]: a string that is
    not empty. *)
Definition truthy (g : option (option jsstring)) : bool :=
  match g with
  | Some (Some (_ :: _)) => true
  | _ => false
  end.

(** [getCurrentTerm(match, terms)]: [i] is the index before [--i];
    [None] is [undefined]. *)
Fixpoint getCurrentTerm_loop (m : list (option jsstring))
  (terms : list jsstring) (i : nat) : option jsstring :=
  match i with
  | O => Some (js " ")
  | S i' =>
      if (2 <? i')%nat then
        if truthy (nth_error m i') then nth_error terms (i' - 3)
        else getCurrentTerm_loop m terms i'
      else Some (js " ")
  end.

Definition getCurrentTerm (m : list (option jsstring)) (terms : list jsstring)
  : option jsstring :=
  getCurrentTerm_loop m terms (length m).

End Combine.

(** ** The tree: [createMarkElement], [wrapRangeInTextNode],
    [unwrapMatches] and [normalizeTextNode]
    (mark.umd.js 901-917, 1387-1413) *)

Module Dom.
Import Host Fragments.

Inductive dnode :=
| DText (data : jsstring)
| DElem (name : jsstring) (attrs : list (jsstring * jsstring))
    (children : list dnode)
| DComment (data : jsstring).

(** [node.textContent] *)
Fixpoint textContent (n : dnode) : jsstring :=
  match n with
  | DText v => v
  | DElem _ _ children => concat (map textContent children)
  | DComment _ => []
  end.

Definition textContent_all (l : list dnode) : jsstring :=
  concat (map textContent l).

(** The walk of [normalizeTextNode] over a node and the siblings after
    it.  [cur] is the value of the text node the [while] loop is at:
    the text nodes that follow are added to it and removed; at a node
    of another kind the walk writes the text node, goes through the
    children of that node with [inner] and on to the next sibling.
    With [drop_empty] a text node that is left empty is removed, which
    is what [Node.normalize()] does besides. *)
Section Merge.
Variable drop_empty : bool.
Variable inner : dnode -> dnode.

Definition flush (cur : option jsstring) : list dnode :=
  match cur with
  | None => []
  | Some v => if drop_empty && jsstring_eqb v [] then [] else [DText v]
  end.

(** The text of the text node the walk is at, if there is one. *)
Definition cur_text (cur : option jsstring) : jsstring :=
  match cur with Some v => v | None => [] end.

Fixpoint merge_siblings (l : list dnode) (cur : option jsstring)
  : list dnode :=
  match l with
  | [] => flush cur
  | DText v :: rest =>
      merge_siblings rest
        (Some (match cur with Some c => c ++ v | None => v end))
  | x :: rest => flush cur ++ inner x :: merge_siblings rest None
  end.
End Merge.

Fixpoint merge_node (drop_empty : bool) (n : dnode) : dnode :=
  match n with
  | DElem name attrs children =>
      DElem name attrs
        (merge_siblings drop_empty (merge_node drop_empty) children None)
  | _ => n
  end.

(** [normalizeTextNode(node)], 1400-1413: [l] is [node] with the
    siblings that follow it. *)
Definition normalizeTextNode (l : list dnode) : list dnode :=
  merge_siblings false (merge_node false) l None.

(** [node.normalize()] *)
Definition normalize (n : dnode) : dnode := merge_node true n.

(** Whether a list of siblings begins, or ends, with a text node. *)
Definition is_text (n : dnode) : bool :=
  match n with DText _ => true | _ => false end.

Definition starts_with_text (l : list dnode) : bool :=
  match l with x :: _ => is_text x | [] => false end.

Definition ends_with_text (l : list dnode) : bool :=
  starts_with_text (rev l).

(** No two text nodes are adjacent, at any depth; with [drop_empty], no
    text node is empty either. *)
Fixpoint siblings_normal (ok : dnode -> bool) (l : list dnode)
  (after_text : bool) : bool :=
  match l with
  | [] => true
  | x :: l' =>
      ok x
      && match x with
         | DText _ => negb after_text && siblings_normal ok l' true
         | _ => siblings_normal ok l' false
         end
  end.

Fixpoint normal (drop_empty : bool) (n : dnode) : bool :=
  match n with
  | DText v => negb (drop_empty && jsstring_eqb v [])
  | DElem _ _ children => siblings_normal (normal drop_empty) children false
  | DComment _ => true
  end.

Definition normal_siblings (drop_empty : bool) : list dnode -> bool -> bool :=
  siblings_normal (normal drop_empty).

(** [createMarkElement(node)], 907-917, for a text node with the text
    [txt]; [element] and [className] are the options.  Setting
    [textContent] to the empty string leaves the element without a
    child. *)
Definition createMarkElement (element className txt : jsstring) : dnode :=
  DElem (match element with [] => js "mark" | _ => element end)
    ((js "data-markjs", js "true")
     :: match className with [] => [] | _ => [(js "class", className)] end)
    (match txt with [] => [] | _ => [DText txt] end).

(** [wrapRangeInTextNode(node, start, end)], 901-906, in the tree: the
    three nodes that stand in the place of the text node. *)
Definition wrapRangeInTextNode (element className txt : jsstring) (s e : Z)
  : outcome (dnode * dnode * dnode) :=
  do (kept, startNode) <- splitText txt s ;;
  do (marked, retNode) <- splitText startNode (e - s) ;;
  Ok (DText kept, createMarkElement element className marked, DText retNode).

Definition childNodes (n : dnode) : list dnode :=
  match n with
  | DElem _ _ children => children
  | _ => []
  end.

(** [unwrapMatches(node)], 1387-1399.  [node] is a child of an element
    with the given [name] and [attrs]; [pre] and [post] are the
    siblings of [node], [following] the siblings that follow its
    parent.  The result is the parent and those siblings as the call
    leaves them; [ie] is [this.ie]. *)
Definition unwrapMatches (ie : bool) (name : jsstring)
  (attrs : list (jsstring * jsstring)) (pre : list dnode) (node : dnode)
  (post following : list dnode) : list dnode :=
  let parent := DElem name attrs (pre ++ childNodes node ++ post) in
  if ie then normalizeTextNode (parent :: following)
  else normalize parent :: following.

End Dom.

(** ** The contexts of a search: [getContexts] (mark.umd.js 51-76) *)

Module Contexts.
Import Host.

Section Contexts.
Variable node : Type.
(** [a === b] and [a.contains(b)] on nodes, and
    [document.querySelectorAll]. *)
Variable same : node -> node -> bool.
Variable contains : node -> node -> bool.
Variable querySelectorAll : jsstring -> list node.

(** [this.ctx]: nothing, a [NodeList] or an array of nodes, a selector,
    or a single node. *)
Inductive context :=
| NoContext
| Nodes (l : list node)
| Selector (s : jsstring)
| OneNode (n : node).

(** The first lines, 54-66; the empty string counts as no context. *)
Definition requested (c : context) : list node :=
  match c with
  | NoContext => []
  | Nodes l => l
  | Selector [] => []
  | Selector s => querySelectorAll s
  | OneNode n => [n]
  end.

(** The callback of [ctx.forEach], 67-74. *)
Definition keep (filteredCtx : list node) (ctx : node) : list node :=
  let isDescendant :=
    (0 <? length (filter (fun contexts => contains contexts ctx)
                    filteredCtx))%nat in
  if negb (existsb (fun k => same k ctx) filteredCtx) && negb isDescendant
  then filteredCtx ++ [ctx]
  else filteredCtx.

Definition getContexts (c : context) : list node :=
  fold_left keep (requested c) [].
End Contexts.

End Contexts.

(** ** The types of the block elements: [setType] (mark.umd.js 757-771) *)

Module Tags.
Import Host.

(** The object [tags]: its keys in the order they were added, each with
    its value. *)
Definition tags := list (jsstring * Z).

(** [tags[name]] and [tags[name] = v] *)
Fixpoint get (t : tags) (name : jsstring) : option Z :=
  match t with
  | [] => None
  | (k, v) :: rest => if jsstring_eqb k name then Some v else get rest name
  end.

Fixpoint set (t : tags) (name : jsstring) (v : Z) : tags :=
  match t with
  | [] => [(name, v)]
  | (k, x) :: rest =>
      if jsstring_eqb k name then (k, v) :: rest
      else (k, x) :: set rest name v
  end.

(** The properties of [opt.blockElementsBoundary] that [setType] reads:
    [tagNames] is [None] when it is not an array. *)
Record boundaryTags := {
  tagNames : option (list jsstring);
  extend : bool
}.

Section SetType.
Variable toLowerCase : jsstring -> jsstring.

Definition custom_names (b : boundaryTags) : list jsstring :=
  match tagNames b with
  | Some names => map toLowerCase names
  | None => []
  end.

Definition setType (b : boundaryTags) (t : tags) : tags :=
  let custom := negb (length (custom_names b) =? 0)%nat in
  let t1 :=
    if custom then fold_left (fun t name => set t name 2) (custom_names b) t
    else t in
  let t2 :=
    if negb custom || extend b then map (fun kv => (fst kv, 2)) t1
    else t1 in
  set t2 (js "br") 1.
End SetType.

(** The table of [getTextNodesAcrossElements], 784-793. *)
Definition block_elements : tags :=
  map (fun name => (js name, 1))
    [ "div"; "p"; "li"; "td"; "tr"; "th"; "ul"; "ol"; "br"; "dd"; "dl"; "dt";
      "h1"; "h2"; "h3"; "h4"; "h5"; "h6"; "hr"; "blockquote"; "figcaption";
      "figure"; "pre"; "table"; "thead"; "tbody"; "tfoot"; "input"; "img";
      "nav"; "details"; "label"; "form"; "select"; "menu"; "menuitem";
      "main"; "section"; "article"; "aside"; "picture"; "output"; "button";
      "header"; "footer"; "address"; "area"; "canvas"; "map"; "fieldset";
      "textarea"; "track"; "video"; "audio"; "body"; "iframe"; "meter";
      "object"; "svg" ]%string.

End Tags.

(** ** The groups of a match in one text node: [wrapGroups] and
    [separateGroupsD] (mark.umd.js 1000-1036) *)

Module GroupsD.
Import Host Fragments.

(** What [regex.exec] returns with the [d] flag: the array of the
    groups and [match.indices]; a group that took no part is
    [undefined] in both. *)
Record dmatch := {
  d_groups : list (option jsstring);
  d_indices : list (option (Z * Z))
}.

(** The variables of the loop, with the calls of [eachCb] so far: the
    text of the marker and the number of the group. *)
Record dstate := {
  d_node : jsstring;             (* the text of [node] *)
  d_lastIndex : Z;
  d_offset : Z;
  d_isWrapped : bool;
  d_end : Z;
  d_calls : list (jsstring * nat)
}.

Section SeparateGroupsD.
(** [filterCb(group, node, i)]; it sees the calls of [eachCb] so far. *)
Variable filterCb : list (jsstring * nat) -> jsstring -> jsstring -> nat ->
                    bool.

(** [wrapGroups(node, pos, len, eachCb)]: the text of the node it
    returns and the text of the marker it hands to [eachCb]. *)
Definition wrapGroups (node : jsstring) (pos len : Z)
  : outcome (jsstring * jsstring) :=
  wrapRangeInTextNode node pos (pos + len).

(** The body of the [while] loop for the group [i]. *)
Definition separateGroupsD_step (m : dmatch) (st : dstate) (i : nat)
  : outcome dstate :=
  match nth_error (d_groups m) i with
  | Some (Some (c :: g)) =>
      let group := c :: g in
      match nth_error (d_indices m) i with
      | Some (Some (start_, end')) =>
          if start_ >=? d_lastIndex st then
            let st := {| d_node := d_node st; d_lastIndex := d_lastIndex st;
                         d_offset := d_offset st;
                         d_isWrapped := d_isWrapped st; d_end := end';
                         d_calls := d_calls st |} in
            if filterCb (d_calls st) group (d_node st) i then
              do (rest, marked) <-
                wrapGroups (d_node st) (start_ - d_offset st) (end' - start_) ;;
              Ok {| d_node := rest;
                    d_lastIndex := if end' >? d_lastIndex st then end'
                                   else d_lastIndex st;
                    d_offset := end';
                    d_isWrapped := true;
                    d_end := end';
                    d_calls := d_calls st ++ [(marked, i)] |}
            else Ok st
          else Ok st
      | _ => Throw
      end
  | _ => Ok st
  end.

(** [while (++i < match.length)], from [i] on, [n] rounds. *)
Fixpoint separateGroupsD_loop (m : dmatch) (st : dstate) (i n : nat)
  : outcome dstate :=
  match n with
  | O => Ok st
  | S n' =>
      do st' <- separateGroupsD_step m st i ;;
      separateGroupsD_loop m st' (i + 1) n'
  end.

(** [separateGroupsD(node, match, params, filterCb, eachCb)]: the text
    of the node it returns, [params.regex] and the calls of [eachCb]. *)
Definition separateGroupsD (node : jsstring) (m : dmatch) (r : Cursor.regex)
  : outcome (jsstring * Cursor.regex * list (jsstring * nat)) :=
  do st <-
    separateGroupsD_loop m
      {| d_node := node; d_lastIndex := 0; d_offset := 0;
         d_isWrapped := false; d_end := 0; d_calls := [] |}
      1 (length (d_groups m) - 1) ;;
  match nth_error (d_groups m) 0 with
  | Some (Some match0) =>
      Ok (d_node st,
          Cursor.separateGroupsD_cursor (d_isWrapped st) match0 r (d_end st),
          d_calls st)
  | _ =>
      if d_isWrapped st
      then Ok (d_node st, Cursor.set_lastIndex r (Cursor.Fin 0), d_calls st)
      else Throw
  end.
End SeparateGroupsD.

(** The match agrees with the text it was found in: a group that is a
    string lies in the text at its indices. *)
Definition in_text (txt : jsstring) (m : dmatch) : Prop :=
  forall i g,
    nth_error (d_groups m) i = Some (Some g) -> g <> [] ->
    exists s e, nth_error (d_indices m) i = Some (Some (s, e)) /\
                0 <= s <= e /\ e <= jslen txt /\ substring txt s e = g.

(** The calls name groups of the match, each with the text of its
    group, and the groups do not overlap and come in the order of the
    text: each begins at or after [from], where the one before it
    ended. *)
Fixpoint in_order (m : dmatch) (from : Z) (calls : list (jsstring * nat))
  : Prop :=
  match calls with
  | [] => True
  | (marked, i) :: rest =>
      exists s e, nth_error (d_groups m) i = Some (Some marked) /\
                  nth_error (d_indices m) i = Some (Some (s, e)) /\
                  from <= s /\ s <= e /\ in_order m e rest
  end.

End GroupsD.

(** * Properties *)

(** ** The search cursor *)

Module CursorFacts.
Import Cursor.

Lemma setLastIndex_source (r : regex) (end_ : Z) :
  source (setLastIndex r end_) = source r.
Proof.
  unfold setLastIndex.
  destruct (gt (Fin end_) (lastIndex r)); [reflexivity|].
  destruct (end_ >? 0); reflexivity.
Qed.

(** C1.  After a zero-length match whose processing ends at [end_],
    with the cursor at the index [cur], the cursor is updated by
    [setLastIndex], which moves it to [end_] when [end_ > cur];
    otherwise to [cur + 1] when [end_ > 0]; otherwise to [Infinity].
    In each case the new cursor is at least [cur + 1]. *)
Theorem setLastIndex_advances (r : regex) (cur end_ : Z)
  (Hcur : lastIndex r = Fin cur) :
  wrapMatchGroupsD_cursor [] r end_ = setLastIndex r end_ /\
  separateGroupsD_cursor false [] r end_ = setLastIndex r end_ /\
  (end_ > cur -> lastIndex (setLastIndex r end_) = Fin end_) /\
  (end_ <= cur -> end_ > 0 ->
     lastIndex (setLastIndex r end_) = Fin (cur + 1)) /\
  (end_ <= cur -> end_ <= 0 ->
     lastIndex (setLastIndex r end_) = Infinity) /\
  gt (lastIndex (setLastIndex r end_)) (Fin cur) = true /\
  (forall n, lastIndex (setLastIndex r end_) = Fin n -> cur + 1 <= n).
Proof.
  split; [reflexivity|]. split; [reflexivity|].
  unfold setLastIndex. rewrite Hcur. simpl.
  destruct (Z.gtb_spec end_ cur) as [E1|E1]; simpl.
  - split; [reflexivity|]. split; [lia|]. split; [lia|]. split.
    + apply Z.gtb_lt. lia.
    + intros n H. inversion H; subst. lia.
  - destruct (Z.gtb_spec end_ 0) as [E2|E2]; simpl.
    + split; [lia|]. split; [reflexivity|]. split; [lia|]. split.
      * apply Z.gtb_lt. lia.
      * intros n H. inversion H; subst. lia.
    + split; [lia|]. split; [lia|]. split; [reflexivity|]. split.
      * reflexivity.
      * intros n H. discriminate.
Qed.

Lemma setLastIndex_advances_witness :
  lastIndex (setLastIndex {| source := []; lastIndex := Fin 4 |} 4) = Fin 5.
Proof.
  destruct (@setLastIndex_advances {| source := []; lastIndex := Fin 4 |} 4 4
              eq_refl) as (_ & _ & _ & H & _).
  apply H; lia.
Defined.

End CursorFacts.

(** ** Host operations *)

Module HostFacts.
Import Host.

Lemma jsstring_eqb_eq (a b : jsstring) : jsstring_eqb a b = true <-> a = b.
Proof.
  revert b; induction a as [|x a IH]; intros [|y b]; simpl; split;
    try congruence; try reflexivity.
  - intros H. apply andb_true_iff in H as [H1 H2].
    apply N.eqb_eq in H1. apply IH in H2. congruence.
  - intros H. inversion H; subst. apply andb_true_iff; split.
    + apply N.eqb_refl.
    + now apply IH.
Qed.

Lemma jsstring_eqb_refl (a : jsstring) : jsstring_eqb a a = true.
Proof. now apply jsstring_eqb_eq. Qed.

Lemma jsstring_eqb_neq (a b : jsstring) : jsstring_eqb a b = false <-> a <> b.
Proof.
  split.
  - intros H E. apply jsstring_eqb_eq in E. congruence.
  - intros H. destruct (jsstring_eqb a b) eqn:E; [|reflexivity].
    apply jsstring_eqb_eq in E. contradiction.
Qed.

Section SortFacts.
Context {A : Type}.
Variable cmp : A -> A -> Z.

Lemma sort_insert_perm (x : A) (l : list A) :
  Permutation (x :: l) (sort_insert cmp x l).
Proof.
  induction l as [|y l IH]; simpl.
  - apply Permutation_refl.
  - destruct (cmp x y <=? 0).
    + apply Permutation_refl.
    + eapply Permutation_trans; [apply perm_swap|].
      now apply perm_skip.
Qed.

Lemma sort_perm (l : list A) : Permutation l (sort cmp l).
Proof.
  induction l as [|x l IH]; simpl.
  - constructor.
  - eapply Permutation_trans; [|apply sort_insert_perm].
    now apply perm_skip.
Qed.

Lemma sort_length (l : list A) : length (sort cmp l) = length l.
Proof. symmetry. apply Permutation_length, sort_perm. Qed.

Hypothesis cmp_total : forall x y, cmp x y > 0 -> cmp y x <= 0.

Lemma sort_insert_sorted (x : A) (l : list A) :
  Sorted (before cmp) l -> Sorted (before cmp) (sort_insert cmp x l).
Proof.
  induction l as [|y l IH]; simpl; intros Hs.
  - repeat constructor.
  - destruct (Z.leb_spec (cmp x y) 0) as [Hle|Hgt].
    + constructor; [assumption|]. constructor. exact Hle.
    + inversion Hs as [|? ? Hs' Hhd]; subst.
      constructor; [now apply IH|].
      destruct l as [|z l]; simpl.
      * constructor. apply cmp_total. lia.
      * destruct (Z.leb_spec (cmp x z) 0).
        -- constructor. apply cmp_total. lia.
        -- inversion Hhd; subst. now constructor.
Qed.

Lemma sort_sorted (l : list A) : Sorted (before cmp) (sort cmp l).
Proof.
  induction l as [|x l IH]; simpl.
  - constructor.
  - now apply sort_insert_sorted.
Qed.
End SortFacts.

Lemma trim_start_nil (s : jsstring) :
  trim_start s = [] <-> has_non_space s = false.
Proof.
  unfold has_non_space. induction s as [|c s IH]; simpl.
  - tauto.
  - destruct (is_space c); simpl.
    + exact IH.
    + split; discriminate.
Qed.

Lemma trim_start_head (s : jsstring) (c : jschar) (r : jsstring) :
  trim_start s = c :: r -> is_space c = false.
Proof.
  induction s as [|x s IH]; simpl; [discriminate|].
  destruct (is_space x) eqn:E; [exact IH|].
  intros H. inversion H; subst. exact E.
Qed.

Lemma has_non_space_app (a b : jsstring) :
  has_non_space (a ++ b) = has_non_space a || has_non_space b.
Proof. unfold has_non_space. apply existsb_app. Qed.

Lemma has_non_space_rev (s : jsstring) :
  has_non_space (rev s) = has_non_space s.
Proof.
  induction s as [|c s IH]; simpl; [reflexivity|].
  rewrite has_non_space_app, IH. simpl.
  rewrite orb_false_r. apply orb_comm.
Qed.

(** [kw.trim()] is the empty string exactly when [kw] holds nothing
    but white space. *)
Lemma trim_nil (s : jsstring) : trim s = [] <-> has_non_space s = false.
Proof.
  unfold trim. split.
  - intros H. destruct (trim_start s) as [|c r] eqn:E.
    + now apply trim_start_nil.
    + exfalso.
      assert (Hc : is_space c = false) by (eapply trim_start_head; eauto).
      assert (Hr : rev (trim_start (rev (c :: r))) = []) by exact H.
      apply (f_equal (@rev jschar)) in Hr. rewrite rev_involutive in Hr.
      simpl in Hr. apply trim_start_nil in Hr.
      rewrite has_non_space_app in Hr. simpl in Hr.
      rewrite Hc in Hr. simpl in Hr.
      rewrite orb_true_r in Hr. discriminate.
  - intros H. apply trim_start_nil in H. rewrite H. reflexivity.
Qed.

Section ReplaceFacts.
Context {G : Type}.
Variable m : jsstring -> option (nat * G).
Variable f : G -> jsstring -> jsstring -> jsstring -> jsstring.

(** Skipping the rest of a match. *)
Lemma replace_from_skip (s before : jsstring) (k : nat) :
  (k <= length s)%nat ->
  replace_from m f before s k
  = replace_from m f (before ++ firstn k s) (skipn k s) 0.
Proof.
  revert before k. induction s as [|c s IH]; intros before k Hk.
  - simpl in Hk. assert (k = O) by lia. subst. simpl.
    now rewrite app_nil_r.
  - destruct k as [|k].
    + simpl firstn. simpl skipn. now rewrite app_nil_r.
    + simpl. simpl in Hk. rewrite IH by lia.
      now rewrite <- app_assoc.
Qed.

(** A replacer that does not look at the text before the match. *)
Hypothesis f_before : forall g b b' x a, f g b x a = f g b' x a.

Lemma replace_from_before (s before before' : jsstring) (k : nat) :
  replace_from m f before s k = replace_from m f before' s k.
Proof.
  revert before before' k. induction s as [|c s IH]; intros b b' k; simpl.
  - destruct k; [|reflexivity].
    destruct (m []) as [[n g]|]; [apply f_before|reflexivity].
  - destruct k as [|k]; [|apply IH].
    destruct (m (c :: s)) as [[[|n] g]|].
    + rewrite (f_before g b b'). f_equal. f_equal. apply IH.
    + rewrite (f_before g b b'). f_equal. apply IH.
    + f_equal. apply IH.
Qed.
End ReplaceFacts.

End HostFacts.

(** ** Search terms *)

Module KeywordsFacts.
Import Host HostFacts Keywords.

Lemma indexOf_absent_spec (stack : list jsstring) (kw : jsstring) :
  indexOf_absent stack kw = true <-> ~ In kw stack.
Proof.
  unfold indexOf_absent. rewrite negb_true_iff. split.
  - intros H Hin.
    assert (existsb (jsstring_eqb kw) stack = true).
    { apply existsb_exists. exists kw. split; [assumption|].
      apply jsstring_eqb_refl. }
    congruence.
  - intros H. destruct (existsb (jsstring_eqb kw) stack) eqn:E; [|reflexivity].
    apply existsb_exists in E as (x & Hx & Heq).
    apply jsstring_eqb_eq in Heq. subst. contradiction.
Qed.

Lemma push_keyword_good (seen stack : list jsstring) (kw : jsstring) :
  good_stack seen stack -> good_stack (seen ++ [kw]) (push_keyword stack kw).
Proof.
  intros [Hnd Hin]. unfold push_keyword.
  destruct (jsstring_eqb (trim kw) []) eqn:Et; simpl.
  - apply jsstring_eqb_eq, trim_nil in Et. split; [assumption|].
    intros k. rewrite Hin, in_app_iff. simpl. split.
    + tauto.
    + intros [[H|[H|[]]] Hk]; [tauto|]. subst. congruence.
  - apply jsstring_eqb_neq in Et.
    assert (Hns : has_non_space kw = true).
    { destruct (has_non_space kw) eqn:E; [reflexivity|].
      apply trim_nil in E. contradiction. }
    destruct (indexOf_absent stack kw) eqn:Ea.
    + apply indexOf_absent_spec in Ea. split.
      * apply NoDup_rev in Hnd.
        rewrite <- (rev_involutive (stack ++ [kw])).
        apply NoDup_rev. rewrite rev_app_distr. simpl.
        constructor; [|assumption]. rewrite <- in_rev. assumption.
      * intros k. rewrite !in_app_iff, Hin. simpl. split.
        -- intros [H|[H|[]]]; [tauto|]. subst. tauto.
        -- intros [[H|[H|[]]] Hk]; [tauto|]. subst. tauto.
    + split; [assumption|].
      assert (Hk : In kw stack).
      { destruct (in_dec (list_eq_dec N.eq_dec) kw stack) as [H|H];
          [assumption|].
        apply indexOf_absent_spec in H. congruence. }
      intros k. rewrite in_app_iff, Hin. simpl. split.
      * tauto.
      * intros [[H|[H|[]]] Hk']; [tauto|]. subst. now apply Hin.
Qed.

Lemma push_keywords_good (l seen stack : list jsstring) :
  good_stack seen stack ->
  good_stack (seen ++ l) (fold_left push_keyword l stack).
Proof.
  revert seen stack. induction l as [|kw l IH]; intros seen stack H; simpl.
  - now rewrite app_nil_r.
  - replace (seen ++ kw :: l) with ((seen ++ [kw]) ++ l)
      by (rewrite <- app_assoc; reflexivity).
    apply IH. now apply push_keyword_good.
Qed.

Lemma collect_keywords_good (sep : bool) (sv seen stack : list jsstring) :
  good_stack seen stack ->
  good_stack (seen ++ candidates sep sv)
    (fold_left
       (fun stack kw =>
          if negb sep then push_keyword stack kw
          else fold_left push_keyword (split_char c_space kw) stack)
       sv stack).
Proof.
  revert seen stack. induction sv as [|kw sv IH]; intros seen stack H.
  - destruct sep; simpl; now rewrite app_nil_r.
  - destruct sep; simpl in *.
    + rewrite app_assoc. apply IH. now apply push_keywords_good.
    + replace (seen ++ kw :: sv) with ((seen ++ [kw]) ++ sv)
        by (rewrite <- app_assoc; reflexivity).
      apply IH. now apply push_keyword_good.
Qed.

(** *** What [split] returns *)

Lemma split_char_from_cur (c : jschar) (s cur : jsstring) :
  split_char_from c s cur
  = match split_char_from c s [] with
    | p :: ps => (cur ++ p) :: ps
    | [] => [cur]
    end.
Proof.
  revert cur. induction s as [|x s IH]; intros cur; cbn [split_char_from].
  - now rewrite app_nil_r.
  - destruct (N.eqb x c); [now rewrite app_nil_r|].
    rewrite (IH (cur ++ [x])), (IH ([] ++ [x])).
    destruct (split_char_from c s []) as [|p ps]; [reflexivity|].
    now rewrite <- app_assoc.
Qed.

Lemma split_char_cons (c x : jschar) (s : jsstring) :
  split_char c (x :: s)
  = if N.eqb x c then [] :: split_char c s
    else match split_char c s with
         | p :: ps => (x :: p) :: ps
         | [] => [[x]]
         end.
Proof.
  unfold split_char. cbn [split_char_from].
  destruct (N.eqb x c); [reflexivity|]. now rewrite split_char_from_cur.
Qed.

Lemma split_char_nil (c : jschar) : split_char c [] = [[]].
Proof. reflexivity. Qed.

Lemma split_char_nonempty (c : jschar) (s : jsstring) : split_char c s <> [].
Proof.
  destruct s as [|x s]; [discriminate|]. rewrite split_char_cons.
  destruct (N.eqb x c); [discriminate|].
  destruct (split_char c s); discriminate.
Qed.

Lemma split_char_free (c : jschar) (k : jsstring) :
  mem c k = false -> split_char c k = [k].
Proof.
  induction k as [|x k IH]; intros H; [reflexivity|].
  unfold mem in H. cbn [existsb] in H. apply orb_false_iff in H as [Hx Hk].
  rewrite split_char_cons, N.eqb_sym, Hx, (IH Hk). reflexivity.
Qed.

Lemma split_char_app (c : jschar) (a t : jsstring) :
  split_char c (a ++ c :: t) = split_char c a ++ split_char c t.
Proof.
  induction a as [|x a IH].
  - cbn [app]. now rewrite split_char_cons, N.eqb_refl.
  - cbn [app]. rewrite !split_char_cons, IH.
    destruct (N.eqb x c); [reflexivity|].
    destruct (split_char c a) as [|p ps] eqn:E; [|reflexivity].
    now apply split_char_nonempty in E.
Qed.

Lemma piece_of_split (c : jschar) (k s : jsstring) :
  piece_of c k s -> In k (split_char c s).
Proof.
  intros (Hk & a & b & -> & Ha & Hb).
  assert (Hkb : In k (split_char c (k ++ b))).
  { destruct Hb as [->|(b' & ->)].
    - rewrite app_nil_r, split_char_free by exact Hk. now left.
    - rewrite split_char_app, split_char_free by exact Hk. now left. }
  destruct Ha as [->|(a' & ->)]; [exact Hkb|].
  rewrite <- app_assoc. cbn [app]. rewrite split_char_app.
  apply in_or_app. now right.
Qed.

Lemma split_char_pieces (c : jschar) (s : jsstring) :
  exists p ps,
    split_char c s = p :: ps /\
    (mem c p = false /\
     exists b, s = p ++ b /\ (b = [] \/ exists b', b = c :: b')) /\
    forall k, In k ps ->
      mem c k = false /\
      exists a' b, s = (a' ++ [c]) ++ k ++ b /\
                   (b = [] \/ exists b', b = c :: b').
Proof.
  induction s as [|x s (p & ps & E & (Hp & b & Hs & Hb) & Hps)].
  - exists [], []. split; [reflexivity|]. split.
    + split; [reflexivity|]. exists []. split; [reflexivity|now left].
    + intros k [].
  - rewrite split_char_cons, E. destruct (N.eqb_spec x c) as [->|Hx].
    + exists [], (p :: ps). split; [reflexivity|]. split.
      * split; [reflexivity|]. exists (c :: s). split; [reflexivity|].
        right. now exists s.
      * intros k [<-|Hk].
        -- split; [exact Hp|]. exists [], b. split; [|exact Hb].
           cbn [app]. now rewrite Hs.
        -- destruct (Hps k Hk) as (Hm & a' & b0 & Hs' & Hb0).
           split; [exact Hm|]. exists (c :: a'), b0. split; [|exact Hb0].
           cbn [app]. now rewrite Hs'.
    + exists (x :: p), ps. split; [reflexivity|]. split.
      * split.
        -- unfold mem in *. cbn [existsb]. rewrite Hp, orb_false_r.
           apply N.eqb_neq. congruence.
        -- exists b. split; [|exact Hb]. cbn [app]. now rewrite Hs.
      * intros k Hk. destruct (Hps k Hk) as (Hm & a' & b0 & Hs' & Hb0).
        split; [exact Hm|]. exists (x :: a'), b0. split; [|exact Hb0].
        cbn [app]. now rewrite Hs'.
Qed.

Lemma split_char_spec (c : jschar) (k s : jsstring) :
  In k (split_char c s) <-> piece_of c k s.
Proof.
  split; [|apply piece_of_split].
  destruct (split_char_pieces c s) as (p & ps & -> & (Hp & b & Hs & Hb) & Hps).
  intros [<-|Hk].
  - split; [exact Hp|]. exists [], b. split; [exact Hs|]. split; [now left|exact Hb].
  - destruct (Hps k Hk) as (Hm & a' & b0 & Hs' & Hb0).
    split; [exact Hm|]. exists (a' ++ [c]), b0. split; [exact Hs'|].
    split; [right; now exists a'|exact Hb0].
Qed.

(** C10.  The keywords [getSeparatedKeywords] returns have no
    duplicates, none is blank or white space only, they are exactly
    the non-blank terms (with [separateWordSearch], the non-blank
    pieces of the terms between single spaces), they come longest
    first, and [length] is their number. *)
Theorem getSeparatedKeywords_spec (separateWordSearch : bool)
  (sv : list jsstring) :
  let r := getSeparatedKeywords separateWordSearch sv in
  NoDup (keywords r) /\
  (forall k, In k (keywords r) -> trim k <> [] /\ has_non_space k = true) /\
  (forall k, In k (keywords r) <->
             has_non_space k = true /\
             exists s, In s sv /\
                       if separateWordSearch then piece_of c_space k s
                       else k = s) /\
  StronglySorted (fun a b => jslen a >= jslen b) (keywords r) /\
  length_of r = Z.of_nat (length (keywords r)).
Proof.
  set (cmp := fun a b : jsstring => jslen b - jslen a).
  assert (Hgood : good_stack (candidates separateWordSearch sv)
                    (collect_keywords separateWordSearch sv)).
  { apply (@collect_keywords_good separateWordSearch sv [] []).
    split; [constructor|]. intros k. simpl. tauto. }
  destruct Hgood as [Hnd Hin].
  assert (Hperm := sort_perm cmp (collect_keywords separateWordSearch sv)).
  assert (Hmem : forall k,
             In k (sort cmp (collect_keywords separateWordSearch sv)) <->
             In k (candidates separateWordSearch sv) /\ has_non_space k = true).
  { intros k. rewrite <- Hin. split; intros H.
    - eapply Permutation_in; [apply Permutation_sym; exact Hperm|exact H].
    - eapply Permutation_in; [exact Hperm|exact H]. }
  assert (Hcand : forall k,
             In k (candidates separateWordSearch sv) <->
             exists s, In s sv /\
                       if separateWordSearch then piece_of c_space k s
                       else k = s).
  { intros k. unfold candidates. destruct separateWordSearch.
    - rewrite in_flat_map. split; intros (s & Hs & Hk); exists s;
        (split; [exact Hs|]); now apply split_char_spec.
    - split.
      + intros Hk. now exists k.
      + intros (s & Hs & ->). exact Hs. }
  simpl. repeat apply conj.
  - eapply Permutation_NoDup; eauto.
  - intros k Hk. apply Hmem in Hk as [_ Hk]. split; [|assumption].
    intros E. apply trim_nil in E. congruence.
  - intros k. split.
    + intros Hk. apply Hmem in Hk as [Hc Hn].
      split; [exact Hn|now apply Hcand].
    + intros [Hn Hc]. apply Hmem. split; [now apply Hcand|exact Hn].
  - apply Sorted_StronglySorted.
    + intros a b c Hab Hbc. lia.
    + assert (Hs : Sorted (before cmp)
                     (sort cmp (collect_keywords separateWordSearch sv))).
      { apply sort_sorted. intros x y. unfold cmp. lia. }
      eapply Sorted_ind with (P := fun l => Sorted _ l); [constructor| |exact Hs].
      intros a l _ IH Hhd. constructor; [assumption|].
      destruct Hhd; constructor. unfold before, cmp in *. lia.
  - reflexivity.
Qed.

(** Two terms with a doubled space, a space at the end and a piece
    that comes twice. *)
Example getSeparatedKeywords_example :
  getSeparatedKeywords true [js "ab cde"; js "f  ab "]
    = {| keywords := [js "cde"; js "ab"; js "f"]; length_of := 3 |} /\
  getSeparatedKeywords false [js "ab cde"; js "f  ab "]
    = {| keywords := [js "ab cde"; js "f  ab "]; length_of := 2 |}.
Proof. split; reflexivity. Qed.

End KeywordsFacts.

(** ** The pattern synthesiser *)

Module RegExpCreatorFacts.
Import Host HostFacts RegExpCreator.

Lemma createAccuracyParts_partially (o : options) (str : jsstring) :
  accuracy_value o = Partially ->
  createAccuracyParts o str =
    {| lookbehind := js "()"; pattern := str; lookahead := [] |}.
Proof. intros H. unfold createAccuracyParts. rewrite H. reflexivity. Qed.

(** C9.  With accuracy [partially], whatever the other options, the
    whole pattern is [()] followed by the body in a capturing group and
    nothing after it; the parts are the lookbehind [()], the body and
    an empty lookahead; the [RegExp] has the flags [gm], and [i] as
    well exactly when [caseSensitive] is false. *)
Theorem create_partially (canonicalize : jschar -> jschar) (o : options)
  (syn : synonyms) (str : jsstring)
  (Hacc : accuracy_value o = Partially) :
  let body := fst (create_body canonicalize o syn str) in
  fst (create canonicalize o syn str false) =
    Compiled {| source := js "()" ++ js "(" ++ body ++ js ")";
                flags := if caseSensitive o then js "gm" else js "gmi" |} /\
  fst (create canonicalize o syn str true) =
    Parts {| lookbehind := js "()"; pattern := body; lookahead := [] |} /\
  (forall s, createAccuracyRegExp o s false
             = inr (js "()" ++ js "(" ++ s ++ js ")")).
Proof.
  unfold create, createAccuracyRegExp, whole_pattern.
  destruct (create_body canonicalize o syn str) as [body syn'] eqn:E.
  simpl. rewrite !createAccuracyParts_partially by assumption. simpl.
  repeat split.
  - destruct (caseSensitive o); reflexivity.
  - intros s. rewrite createAccuracyParts_partially by assumption.
    reflexivity.
Qed.

Lemma create_partially_witness :
  fst (create (fun c => c)
         {| diacritics := false; accuracy_of := AccString Partially;
            caseSensitive := true; ignoreJoiners := false;
            ignorePunctuation := []; wildcards_of := Disabled;
            blockElementsBoundary := None |} [] (js "lorem") false)
  = Compiled {| source := js "()(lorem)"; flags := js "gm" |}.
Proof.
  exact (proj1 (@create_partially (fun c => c)
         {| diacritics := false; accuracy_of := AccString Partially;
            caseSensitive := true; ignoreJoiners := false;
            ignorePunctuation := []; wildcards_of := Disabled;
            blockElementsBoundary := None |} [] (js "lorem") eq_refl)).
Defined.

(** *** Wildcard placeholders *)

Section Placeholders.
Variables x mark : jschar.
Hypothesis x_not_backslash : x <> c_backslash.
Hypothesis mark_not_backslash : mark <> c_backslash.

Let pass := placeholder_pass x mark.
Let matcher := match_backslashes_then x.
Let replacer := wildcard_replacer x mark.

Lemma match_backslashes_bound (s : jsstring) (n : nat) (g : unit) :
  matcher s = Some (n, g) -> (1 <= n <= length s)%nat.
Proof.
  unfold matcher. revert n g. induction s as [|c s IH]; intros n g; simpl.
  - discriminate.
  - destruct (N.eqb c c_backslash).
    + destruct (match_backslashes_then x s) as [[n' g']|].
      * intros H. inversion H; subst. specialize (IH n' g' eq_refl). lia.
      * destruct (N.eqb c x); intros H; inversion H; subst; lia.
    + destruct (N.eqb c x); intros H; inversion H; subst; lia.
Qed.

Lemma pass_backslash (s : jsstring) (k : nat) :
  pass (c_backslash :: s) k = pass s (S k).
Proof. reflexivity. Qed.

Lemma pass_cons (c : jschar) (s : jsstring) (k : nat) :
  c <> c_backslash ->
  pass (c :: s) k =
    if N.eqb c x then (match k with O => mark | _ => x end) :: pass s 0
    else repeat c_backslash k ++ c :: pass s 0.
Proof.
  intros E. apply N.eqb_neq in E. unfold pass.
  cbn [placeholder_pass]. now rewrite E.
Qed.

Lemma matcher_backslash (s : jsstring) :
  matcher (c_backslash :: s) =
    match matcher s with
    | Some (n, _) => Some (S n, tt)
    | None => None
    end.
Proof.
  unfold matcher. cbn [match_backslashes_then].
  rewrite N.eqb_refl.
  destruct (match_backslashes_then x s) as [[n g]|]; [reflexivity|].
  destruct (N.eqb_spec c_backslash x) as [E|E]; [|reflexivity].
  exfalso. apply x_not_backslash. symmetry. exact E.
Qed.

Lemma matcher_cons (c : jschar) (s : jsstring) :
  c <> c_backslash ->
  matcher (c :: s) = if N.eqb c x then Some (1%nat, tt) else None.
Proof.
  intros E. apply N.eqb_neq in E. unfold matcher.
  cbn [match_backslashes_then]. now rewrite E.
Qed.

Lemma pass_pending_match (s : jsstring) (n : nat) (g : unit) (k : nat) :
  matcher s = Some (n, g) ->
  pass s (S k) = x :: pass (skipn n s) 0.
Proof.
  revert n g k. induction s as [|c s IH]; intros n g k H.
  - discriminate.
  - destruct (N.eq_dec c c_backslash) as [E|E].
    + subst c. rewrite matcher_backslash in H.
      destruct (matcher s) as [[n' g']|] eqn:Hm; [|discriminate].
      inversion H; subst. rewrite pass_backslash.
      exact (IH n' g' (S k) eq_refl).
    + rewrite matcher_cons in H by assumption.
      rewrite pass_cons by assumption.
      destruct (N.eqb c x) eqn:Ex; [|discriminate].
      inversion H; subst. reflexivity.
Qed.

Lemma pass_pending_nomatch (s : jsstring) (k : nat) :
  matcher s = None ->
  pass s (S k) = c_backslash :: pass s k.
Proof.
  revert k. induction s as [|c s IH]; intros k H.
  - reflexivity.
  - destruct (N.eq_dec c c_backslash) as [E|E].
    + subst c. rewrite matcher_backslash in H. rewrite !pass_backslash.
      apply IH. destruct (matcher s) as [[? ?]|]; [discriminate|reflexivity].
    + rewrite matcher_cons in H by assumption.
      rewrite !pass_cons by assumption.
      destruct (N.eqb c x); [discriminate|]. reflexivity.
Qed.

(** The replacement of the code and the single pass agree. *)
Lemma replace_is_pass (s : jsstring) :
  replace matcher replacer s = pass s 0.
Proof.
  unfold replace. generalize (@nil jschar) as before.
  remember (length s) as n eqn:Hn.
  assert (Hle : (length s <= n)%nat) by lia. clear Hn.
  revert s Hle. induction n as [|n IH]; intros s Hle before.
  - destruct s; [reflexivity|simpl in Hle; lia].
  - destruct s as [|c s]; [reflexivity|].
    simpl in Hle.
    destruct (N.eq_dec c c_backslash) as [E|E].
    + subst c. cbn [replace_from]. rewrite matcher_backslash, pass_backslash.
      destruct (matcher s) as [[n' g]|] eqn:Hm.
      * assert (Hbd := match_backslashes_bound _ Hm).
        rewrite replace_from_skip by lia.
        rewrite IH by (rewrite length_skipn; lia).
        rewrite (pass_pending_match _ 0 Hm). reflexivity.
      * rewrite IH by lia.
        now rewrite pass_pending_nomatch.
    + cbn [replace_from]. rewrite matcher_cons, pass_cons by assumption.
      destruct (N.eqb c x) eqn:Ex.
      * rewrite IH by lia. cbn [firstn].
        unfold replacer, wildcard_replacer.
        apply N.eqb_neq in E. rewrite E. reflexivity.
      * rewrite IH by lia. reflexivity.
Qed.

(** A character that is neither a backslash nor the wildcard is
    written as it is, after the pending backslashes. *)
Lemma pass_other (a : jsstring) (c : jschar) (b : jsstring) (k : nat) :
  c <> c_backslash -> c <> x ->
  pass (a ++ c :: b) k = pass a k ++ c :: pass b 0.
Proof.
  intros Hc Hx. revert k. induction a as [|d a IH]; intros k.
  - simpl. rewrite pass_cons by assumption.
    apply N.eqb_neq in Hx. now rewrite Hx.
  - simpl. destruct (N.eq_dec d c_backslash) as [E|E].
    + subst d. rewrite !pass_backslash. apply IH.
    + rewrite !pass_cons by assumption. destruct (N.eqb d x).
      * rewrite IH. reflexivity.
      * rewrite IH, <- app_assoc. reflexivity.
Qed.

(** After a character that is not a backslash nothing is pending. *)
Lemma pass_app_after (a : jsstring) (c : jschar) (b : jsstring) (k : nat) :
  c <> c_backslash ->
  pass ((a ++ [c]) ++ b) k = pass (a ++ [c]) k ++ pass b 0.
Proof.
  intros Hc. revert k. induction a as [|d a IH]; intros k.
  - simpl. rewrite !pass_cons by assumption.
    destruct (N.eqb c x); simpl.
    + reflexivity.
    + now rewrite <- app_assoc.
  - simpl. destruct (N.eq_dec d c_backslash) as [E|E].
    + subst d. rewrite !pass_backslash. apply IH.
    + rewrite !pass_cons by assumption. destruct (N.eqb d x).
      * rewrite IH. reflexivity.
      * rewrite IH, <- app_assoc. reflexivity.
Qed.

Lemma ends_with_backslash_false (a : jsstring) :
  ends_with_backslash a = false ->
  a = [] \/ exists a' c, a = a' ++ [c] /\ c <> c_backslash.
Proof.
  unfold ends_with_backslash. intros H.
  destruct (rev a) as [|c r] eqn:E.
  - left. apply (f_equal (@rev jschar)) in E.
    now rewrite rev_involutive in E.
  - right. exists (rev r), c. split.
    + apply (f_equal (@rev jschar)) in E. now rewrite rev_involutive in E.
    + now apply N.eqb_neq.
Qed.

Lemma ends_with_backslash_last (a : jsstring) (c : jschar) :
  ends_with_backslash (a ++ [c]) = N.eqb c c_backslash.
Proof. unfold ends_with_backslash. now rewrite rev_app_distr. Qed.

Lemma pass_app (a b : jsstring) :
  ends_with_backslash a = false ->
  pass (a ++ b) 0 = pass a 0 ++ pass b 0.
Proof.
  intros H. apply ends_with_backslash_false in H as [->|(a' & c & -> & Hc)].
  - reflexivity.
  - now apply pass_app_after.
Qed.

Lemma pass_last (a : jsstring) (c : jschar) (k : nat) :
  c <> c_backslash ->
  exists out l, pass (a ++ [c]) k = out ++ [l] /\ l <> c_backslash.
Proof.
  intros Hc. revert k. induction a as [|d a IH]; intros k.
  - simpl. rewrite pass_cons by assumption.
    destruct (N.eqb c x).
    + exists [], (match k with O => mark | _ => x end). split; [reflexivity|].
      destruct k; assumption.
    + exists (repeat c_backslash k), c. split; [reflexivity|assumption].
  - simpl. destruct (N.eq_dec d c_backslash) as [E|E].
    + subst d. rewrite pass_backslash. apply IH.
    + rewrite pass_cons by assumption.
      destruct (IH 0%nat) as (out & l & Ho & Hl). rewrite Ho.
      destruct (N.eqb d x).
      * exists (match k with O => mark | _ => x end :: out), l.
        split; [reflexivity|assumption].
      * exists (repeat c_backslash k ++ d :: out), l.
        split; [|assumption]. now rewrite <- app_assoc.
Qed.

Lemma pass_keeps_end (a : jsstring) :
  ends_with_backslash a = false ->
  ends_with_backslash (pass a 0) = false.
Proof.
  intros H. apply ends_with_backslash_false in H as [->|(a' & c & -> & Hc)].
  - reflexivity.
  - destruct (pass_last a' 0 Hc) as (out & l & -> & Hl).
    rewrite ends_with_backslash_last. now apply N.eqb_neq.
Qed.

(** A run of backslashes is kept pending. *)
Lemma pass_backslashes (j : nat) (s : jsstring) (k : nat) :
  pass (repeat c_backslash j ++ s) k = pass s (j + k).
Proof.
  revert k. induction j as [|j IH]; intros k; [reflexivity|].
  simpl. rewrite pass_backslash, IH. f_equal. lia.
Qed.
(** Without the wildcard in it, a string is left as it is. *)
Lemma pass_free (s : jsstring) (k : nat) :
  mem x s = false -> pass s k = repeat c_backslash k ++ s.
Proof.
  revert k. induction s as [|c s IH]; intros k H.
  - cbn. now rewrite app_nil_r.
  - unfold mem in H. cbn [existsb] in H.
    apply orb_false_iff in H as [Hc Hs].
    destruct (N.eq_dec c c_backslash) as [E|E].
    + subst c. rewrite pass_backslash, (IH (S k) Hs).
      cbn [repeat]. rewrite repeat_cons, <- app_assoc. reflexivity.
    + rewrite pass_cons by assumption. rewrite N.eqb_sym, Hc.
      now rewrite (IH 0%nat Hs).
Qed.
End Placeholders.

Lemma setupWildcards_passes (s : jsstring) :
  setupWildcardsRegExp s
  = placeholder_pass c_star 2%N (placeholder_pass c_question 1%N s 0) 0.
Proof.
  unfold setupWildcardsRegExp.
  rewrite !replace_is_pass by discriminate. reflexivity.
Qed.

(** C8.  In a term, after a part [a] that does not end in a backslash:
    a [?] with no backslash before it becomes U+0001 and such a [*]
    becomes U+0002; a [?] or [*] with a run of one or more backslashes
    before it becomes that [?] or [*] alone, and the whole run goes
    with it.  The parts of the term before and after are treated on
    their own, and a term without [?] and [*] is left as it is. *)
Theorem setupWildcards_placeholders (j : nat) (a b : jsstring)
  (Ha : ends_with_backslash a = false) :
  setupWildcardsRegExp (a ++ repeat c_backslash j ++ [c_question] ++ b)
    = setupWildcardsRegExp a
        ++ [match j with O => 1%N | S _ => c_question end]
        ++ setupWildcardsRegExp b /\
  setupWildcardsRegExp (a ++ repeat c_backslash j ++ [c_star] ++ b)
    = setupWildcardsRegExp a
        ++ [match j with O => 2%N | S _ => c_star end]
        ++ setupWildcardsRegExp b /\
  (forall t, mem c_question t = false -> mem c_star t = false ->
             setupWildcardsRegExp t = t).
Proof.
  rewrite !setupWildcards_passes.
  assert (Hq : c_question <> c_backslash) by discriminate.
  assert (Hs : c_star <> c_backslash) by discriminate.
  assert (H1 : 1%N <> c_backslash) by discriminate.
  assert (H2 : 2%N <> c_backslash) by discriminate.
  assert (Ha' := pass_keeps_end Hq H1 a Ha).
  split; [|split].
  - rewrite (pass_app c_question 1%N a _ Ha).
    rewrite pass_backslashes by discriminate.
    cbn [app]. rewrite (pass_cons c_question 1%N) by discriminate.
    change (N.eqb c_question c_question) with true. cbv iota.
    rewrite Nat.add_0_r.
    destruct j; rewrite pass_other by discriminate; reflexivity.
  - rewrite (pass_app c_question 1%N a _ Ha).
    rewrite pass_backslashes by discriminate.
    cbn [app]. rewrite (pass_cons c_question 1%N) by discriminate.
    change (N.eqb c_star c_question) with false. cbv iota.
    rewrite Nat.add_0_r.
    rewrite (pass_app c_star 2%N _ _ Ha').
    rewrite pass_backslashes by discriminate.
    rewrite (pass_cons c_star 2%N) by discriminate.
    change (N.eqb c_star c_star) with true. cbv iota.
    rewrite Nat.add_0_r. now destruct j.
  - intros t Hq' Hs'. rewrite setupWildcards_passes.
    rewrite (pass_free c_question 1%N) by (discriminate || exact Hq').
    cbn [repeat app].
    now rewrite (pass_free c_star 2%N) by (discriminate || exact Hs').
Qed.

Lemma setupWildcards_placeholders_witness :
  ends_with_backslash (js "lor") = false /\
  setupWildcardsRegExp
    (js "lor" ++ repeat c_backslash 0 ++ [c_question] ++ js "m")
    = setupWildcardsRegExp (js "lor") ++ [1%N]
        ++ setupWildcardsRegExp (js "m").
Proof.
  split; [reflexivity|].
  exact (proj1 (@setupWildcards_placeholders 0 (js "lor") (js "m") eq_refl)).
Defined.

(** In [a\\?b] the [?] stands after two backslashes.  The code gives
    [a?b]: it takes both backslashes away.  Read as the specification
    words it, the stage gives [a\?b]: the backslash of [\?] goes and
    the one before it stays. *)
Lemma setupWildcards_placeholders_counterexample :
  setupWildcardsRegExp (js "a\\?b") = js "a?b" /\
  placeholders_of_spec (js "a\\?b") = js "a\?b" /\
  setupWildcardsRegExp (js "a\\?b") <> placeholders_of_spec (js "a\\?b").
Proof.
  split; [reflexivity|]. split; [reflexivity|]. discriminate.
Qed.

(** X2.  Every backslash of a run before a [?] or a [*] goes with it:
    the pattern of the code is [(?:\\)*\?], not [\\\?]. *)
Lemma setupWildcards_backslash_run (j : nat) (a b : jsstring) :
  ends_with_backslash a = false ->
  setupWildcardsRegExp (a ++ repeat c_backslash (S j) ++ [c_question] ++ b)
    = setupWildcardsRegExp a ++ [c_question] ++ setupWildcardsRegExp b /\
  setupWildcardsRegExp (a ++ repeat c_backslash (S j) ++ [c_star] ++ b)
    = setupWildcardsRegExp a ++ [c_star] ++ setupWildcardsRegExp b.
Proof.
  intros Ha. rewrite !setupWildcards_passes.
  assert (Hq : c_question <> c_backslash) by discriminate.
  assert (H1 : 1%N <> c_backslash) by discriminate.
  assert (Ha' := pass_keeps_end Hq H1 a Ha).
  rewrite !(pass_app c_question 1%N a _ Ha).
  rewrite !pass_backslashes by discriminate. split.
  - simpl. rewrite pass_other by discriminate. reflexivity.
  - cbn [app]. rewrite (pass_cons c_question 1%N) by discriminate.
    change (N.eqb c_star c_question) with false. cbv iota.
    rewrite (pass_app c_star 2%N _ _ Ha').
    rewrite pass_backslashes by discriminate.
    rewrite (pass_cons c_star 2%N) by discriminate.
    reflexivity.
Qed.

(** *** Synonyms *)

Lemma string_ltb_asym (a b : jsstring) :
  string_ltb a b = true -> string_ltb b a = false.
Proof.
  revert b. induction a as [|x a IH]; intros [|y b]; cbn; try congruence.
  destruct (N.ltb_spec x y) as [H|H].
  - intros _. destruct (N.ltb_spec y x); [lia|].
    destruct (N.eqb_spec y x); [lia|reflexivity].
  - destruct (N.eqb_spec x y) as [E|E]; [|discriminate].
    subst. rewrite N.ltb_irrefl, N.eqb_refl. apply IH.
Qed.

(** X1.  [sortByLength] rearranges the array, longest first; strings of
    the same length come in ascending order. *)
Lemma sortByLength_sorted (arry : list jsstring) :
  Permutation arry (sortByLength arry) /\
  Sorted (fun a b => jslen b < jslen a \/
                     (jslen a = jslen b /\ string_gtb a b = false))
         (sortByLength arry).
Proof.
  split; [apply sort_perm|].
  assert (Hs : Sorted (before byLength) (sortByLength arry)).
  { apply sort_sorted. intros x y. unfold byLength.
    destruct (Z.eqb_spec (jslen x) (jslen y)) as [E|E].
    - rewrite E, Z.eqb_refl.
      destruct (string_gtb x y) eqn:G; [|lia].
      unfold string_gtb in *. rewrite (string_ltb_asym _ _ G). lia.
    - destruct (Z.eqb_spec (jslen y) (jslen x)); lia. }
  eapply Sorted_ind with (P := fun l => Sorted _ l); [constructor| |exact Hs].
  intros a l _ IH Hhd. constructor; [assumption|].
  destruct Hhd as [|b l Hab]; constructor.
  unfold before, byLength in Hab.
  destruct (Z.eqb_spec (jslen a) (jslen b)) as [E|E].
  - right. split; [exact E|]. destruct (string_gtb a b); [lia|reflexivity].
  - left. lia.
Qed.

(** A replacement string without a dollar sign stands for itself. *)
Lemma expand_no_dollar (t before matched after : jsstring) :
  mem c_dollar t = false -> expand t before matched after = t.
Proof.
  induction t as [|c t IH]; [reflexivity|].
  unfold mem. cbn [existsb expand]. intros H.
  apply orb_false_iff in H as [H1 H2].
  rewrite N.eqb_sym in H1. rewrite H1. f_equal. now apply IH.
Qed.

(** The synonyms [{"lorem": ["ipsum", "dolores"]}] and the term
    [x lorem y]: the set, longest first, takes the place of [lorem]. *)
Example synonyms_lorem :
  fst (createSynonymsRegExp (fun c => c)
         {| diacritics := false; accuracy_of := AccString Partially;
            caseSensitive := true; ignoreJoiners := false;
            ignorePunctuation := []; wildcards_of := Disabled;
            blockElementsBoundary := None |}
         [(js "lorem", SynArray [js "ipsum"; js "dolores"])]
         (js "x lorem y"))
  = js "x (?:dolores|ipsum|lorem) y".
Proof. reflexivity. Qed.

(** C7.  The synonyms [{"a": "b$&"}] and the term [a]: the set is the
    key and its value, longest first, each escaped, [b\$&] and [a].
    The term should become [(?:b\$&|a)]; but the alternation is given
    to [replace] as a replacement string, where [$&] stands for the
    matched text, and the term becomes [(?:b\a|a)]. *)
Theorem synonym_with_dollar_ampersand (canonicalize : jschar -> jschar) :
  let o := {| diacritics := false; accuracy_of := AccString Partially;
              caseSensitive := true; ignoreJoiners := false;
              ignorePunctuation := []; wildcards_of := Disabled;
              blockElementsBoundary := None |} in
  let syn := [(js "a", SynString (js "b$&"))] in
  synonym_keys Disabled (sortByLength [js "a"; js "b$&"])
    = [js "b\$&"; js "a"] /\
  fst (createSynonymsRegExp canonicalize o syn (js "a")) = js "(?:b\a|a)" /\
  js "(?:b\a|a)" <> js "(?:b\$&|a)".
Proof.
  repeat split. discriminate.
Qed.

End RegExpCreatorFacts.

(** ** Range validation *)

Module RangesFacts.
Import Host HostFacts Ranges.

(** What [callNoMatchOnInvalidRanges] makes of an entry: it throws, or
    it finds the entry valid, or it hands it to [noMatch]. *)
Lemma callNoMatch_cases (item : entry) (last : Z) :
  callNoMatchOnInvalidRanges item last = Throw \/
  (exists r s len,
      item = EObject r /\
      parsed_int (r_start r) = Some s /\
      parsed_int (r_length r) = Some len /\
      numeric (r_start r) = true /\ numeric (r_length r) = true /\
      last <= s /\ 0 < len /\
      callNoMatchOnInvalidRanges item last
      = Ok {| c_start := Some s; c_end := Some (s + len); c_valid := true;
              c_noMatch := [] |}) \/
  (exists c,
      callNoMatchOnInvalidRanges item last = Ok c /\
      c_valid c = false /\ c_noMatch c = [item]).
Proof.
  destruct item as [r| |];
    [|right; right; eexists; repeat split; reflexivity..].
  unfold callNoMatchOnInvalidRanges.
  destruct (r_start r) as [| |n p num] eqn:Es;
    [right; right; eexists; repeat split; reflexivity|now left|].
  destruct (r_length r) as [| |n' p' num'] eqn:El;
    [|now left|].
  - right; right. cbn. destruct n; eexists; repeat split; reflexivity.
  - cbn.
    destruct n; cbn;
      [|right; right; eexists; repeat split; reflexivity].
    destruct n'; cbn;
      [|right; right; eexists; repeat split; reflexivity].
    destruct p as [s|]; cbn;
      [|right; right; eexists; repeat split; reflexivity].
    destruct (Z.geb_spec s last) as [E2|E2]; cbn;
      [|right; right; eexists; repeat split; reflexivity].
    destruct p' as [len|]; cbn;
      [|right; right; eexists; repeat split; reflexivity].
    destruct (Z.gtb_spec (s + len) s) as [E3|E3]; cbn;
      [|right; right; eexists; repeat split; reflexivity].
    right; left. exists r, s, len. rewrite Es, El. cbn.
    repeat split; try reflexivity; lia.
Qed.

Lemma accepted_bounds_some (item : entry) (last s e : Z) :
  accepted_bounds item last = Ok (Some (s, e)) ->
  exists r,
    item = EObject r /\
    parsed_int (r_start r) = Some s /\
    numeric (r_start r) = true /\ numeric (r_length r) = true /\
    nan_add (parsed_int (r_start r)) (parsed_int (r_length r)) = Some e /\
    last <= s /\ s < e.
Proof.
  unfold accepted_bounds.
  destruct (callNoMatch_cases item last)
    as [Ht|[(r & s' & len & -> & H1 & H2 & H3 & H4 & H5 & H6 & Hc)
           |(c & Hc & Hv & _)]]; rewrite ?Ht, ?Hc; cbn [bind].
  - discriminate.
  - cbn. intros H. inversion H; subst. exists r.
    rewrite H1, H2. cbn. repeat split; try assumption; lia.
  - rewrite Hv. discriminate.
Qed.

Lemma accepted_bounds_none (item : entry) (last : Z) :
  accepted_bounds item last = Ok None ->
  exists c,
    callNoMatchOnInvalidRanges item last = Ok c /\
    c_valid c = false /\ c_noMatch c = [item].
Proof.
  unfold accepted_bounds.
  destruct (callNoMatch_cases item last)
    as [Ht|[(r & s' & len & -> & H1 & H2 & H3 & H4 & H5 & H6 & Hc)
           |(c & Hc & Hv & Hn)]]; rewrite ?Ht, ?Hc; cbn [bind].
  - discriminate.
  - cbn. discriminate.
  - intros _. now exists c.
Qed.

Lemma accepted_bounds_throw (item : entry) (last : Z) :
  accepted_bounds item last = Throw ->
  callNoMatchOnInvalidRanges item last = Throw.
Proof.
  unfold accepted_bounds.
  destruct (callNoMatchOnInvalidRanges item last); cbn [bind];
    [discriminate|reflexivity|discriminate].
Qed.

(** One step of the [forEach]. *)
Lemma checkRanges_each_cons (wrapAll : bool) (item : entry)
  (l : list entry) (last : Z) :
  checkRanges_each wrapAll (item :: l) last =
    do b <- accepted_bounds item last ;;
    match b with
    | Some (s, e) =>
        do (stack, reps, last') <-
          checkRanges_each wrapAll l (if wrapAll then last else e) ;;
        Ok ({| start := s; length_of := e - s |} :: stack, reps, last')
    | None =>
        do (stack, reps, last') <- checkRanges_each wrapAll l last ;;
        Ok (stack, NoMatchRange item :: reps, last')
    end.
Proof.
  cbn [checkRanges_each]. unfold accepted_bounds.
  destruct (callNoMatch_cases item last)
    as [Ht|[(r & s' & len & -> & H1 & H2 & H3 & H4 & H5 & H6 & Hc)
           |(c & Hc & Hv & Hn)]]; rewrite ?Ht, ?Hc; cbn [bind].
  - reflexivity.
  - reflexivity.
  - rewrite Hv, Hn. reflexivity.
Qed.

(** The steps of the [forEach], read off a result. *)
Lemma checkRanges_each_inv (wrapAll : bool) (item : entry)
  (l : list entry) (last : Z) (acc : list range) (rep : list report)
  (last' : Z) :
  checkRanges_each wrapAll (item :: l) last = Ok (acc, rep, last') ->
  (exists s e acc',
      accepted_bounds item last = Ok (Some (s, e)) /\
      checkRanges_each wrapAll l (if wrapAll then last else e)
        = Ok (acc', rep, last') /\
      acc = {| start := s; length_of := e - s |} :: acc') \/
  (exists rep',
      accepted_bounds item last = Ok None /\
      checkRanges_each wrapAll l last = Ok (acc, rep', last') /\
      rep = NoMatchRange item :: rep').
Proof.
  rewrite checkRanges_each_cons.
  destruct (accepted_bounds item last) as [[[s e]|]| |]; cbn [bind];
    [| |discriminate|discriminate].
  - destruct (checkRanges_each wrapAll l _) as [[[a1 r1] t1]| |] eqn:E;
      cbn [bind]; [|discriminate|discriminate].
    intros H. inversion H; subst. left. now exists s, e, a1.
  - destruct (checkRanges_each wrapAll l last) as [[[a1 r1] t1]| |] eqn:E;
      cbn [bind]; [|discriminate|discriminate].
    intros H. inversion H; subst. right. now exists r1.
Qed.

(** Every entry is either put on the stack or handed to [noMatch]. *)
Lemma checkRanges_each_total (wrapAll : bool) (l : list entry) (last : Z)
  (acc : list range) (rep : list report) (last' : Z) :
  checkRanges_each wrapAll l last = Ok (acc, rep, last') ->
  (length acc + length rep = length l)%nat.
Proof.
  revert last acc rep. induction l as [|r l IH]; intros last acc rep H.
  - cbn in H. inversion H. reflexivity.
  - apply checkRanges_each_inv in H
      as [(s & e & acc' & _ & H & ->)|(rep' & _ & H & ->)];
      apply IH in H; cbn [length]; lia.
Qed.

(** Without [wrapAllRanges], [last] is past the end of every accepted
    range. *)
Lemma checkRanges_each_last (l : list entry) (last : Z)
  (acc : list range) (rep : list report) (last' : Z) :
  checkRanges_each false l last = Ok (acc, rep, last') ->
  last <= last' /\ forall a, In a acc -> range_end a <= last'.
Proof.
  revert last acc rep. induction l as [|r l IH]; intros last acc rep H.
  - cbn in H. inversion H; subst. split; [lia|]. intros a [].
  - apply checkRanges_each_inv in H
      as [(s & e & acc' & Ha & H & ->)|(rep' & _ & H & ->)].
    + apply accepted_bounds_some in Ha as (_ & _ & _ & _ & _ & _ & H1 & H2).
      apply IH in H as [IH1 IH2]. split; [lia|].
      intros a [<-|Ha].
      * unfold range_end. cbn. lia.
      * now apply IH2.
    + now apply IH in H.
Qed.



(** Where no entry is [null] and no [start] or [length] is a Symbol,
    nothing throws. *)
Lemma callNoMatch_plain (item : entry) (last : Z) :
  plain item = true -> callNoMatchOnInvalidRanges item last <> Throw.
Proof.
  destruct item as [r| |]; [|discriminate..].
  unfold plain, callNoMatchOnInvalidRanges. intros H.
  apply andb_true_iff in H as [Hs Hl].
  destruct (r_start r) as [| |n p num]; [discriminate|discriminate|].
  destruct (r_length r) as [| |n' p' num']; [|discriminate|].
  - cbn. destruct n; discriminate.
  - cbn. destruct n; cbn; [|discriminate].
    destruct (n' && nan_geb p (Some last) && nan_gtb (nan_add p p') p);
      discriminate.
Qed.

Lemma checkRanges_each_plain (wrapAll : bool) (l : list entry) (last : Z) :
  Forall (fun e => plain e = true) l ->
  exists acc rep last',
    checkRanges_each wrapAll l last = Ok (acc, rep, last').
Proof.
  intros Hl. revert last. induction Hl as [|item l Hp _ IH]; intros last.
  - now exists [], [], last.
  - rewrite checkRanges_each_cons.
    destruct (accepted_bounds item last) as [[[s e]|]| |] eqn:Ea;
      cbn [bind].
    + destruct (IH (if wrapAll then last else e)) as (a & r & t & ->).
      cbn [bind]. eauto.
    + destruct (IH last) as (a & r & t & ->). cbn [bind]. eauto.
    + apply accepted_bounds_throw in Ea.
      now apply callNoMatch_plain in Ea.
    + unfold accepted_bounds in Ea.
      destruct (callNoMatch_cases item last)
        as [Ht|[(r & s' & len & -> & _ & _ & _ & _ & _ & _ & Hc)
               |(c & Hc & _)]]; rewrite ?Ht, ?Hc in Ea; discriminate Ea.
Qed.

(** *** The order of the entries *)

Lemma filter_partition {A : Type} (f : A -> bool) (l : list A) :
  Permutation l (filter (fun x => negb (f x)) l ++ filter f l).
Proof.
  induction l as [|x l IH]; [constructor|].
  cbn [filter]. destruct (f x); cbn [negb].
  - now apply Permutation_cons_app.
  - cbn [app]. now constructor.
Qed.

Section Order.
Variable engine_order : list entry -> list entry.
Hypothesis engine_order_perm : forall l, Permutation l (engine_order l).

(** [sort] rearranges the array. *)
Lemma sort_entries_perm (array sorted : list entry) :
  sort_entries engine_order array = Ok sorted -> Permutation array sorted.
Proof.
  unfold sort_entries.
  destruct ((2 <=? length _)%nat && _); [discriminate|].
  intros H. inversion H; subst. clear H.
  eapply Permutation_trans; [apply (filter_partition is_undefined)|].
  apply Permutation_app_tail.
  destruct (consistent _); [apply sort_perm|apply engine_order_perm].
Qed.

Lemma plain_comparable (l : list entry) :
  Forall (fun e => plain e = true) l ->
  forallb comparable (filter (fun e => negb (is_undefined e)) l) = true.
Proof.
  induction 1 as [|e l He _ IH]; [reflexivity|].
  cbn [filter]. destruct e as [r| |]; cbn [is_undefined negb];
    [|discriminate He|exact IH].
  cbn [forallb comparable]. rewrite IH, andb_true_r.
  unfold plain in He. now apply andb_true_iff in He as [-> _].
Qed.

Lemma sort_entries_plain (array : list entry) :
  Forall (fun e => plain e = true) array ->
  exists sorted,
    sort_entries engine_order array = Ok sorted /\
    Forall (fun e => plain e = true) sorted.
Proof.
  intros Hp. unfold sort_entries.
  rewrite (plain_comparable Hp), andb_false_r.
  eexists. split; [reflexivity|].
  assert (Hperm : Permutation array
            ((if consistent (filter (fun e => negb (is_undefined e)) array)
              then sort by_start
                     (filter (fun e => negb (is_undefined e)) array)
              else engine_order
                     (filter (fun e => negb (is_undefined e)) array))
             ++ filter is_undefined array)).
  { eapply Permutation_trans; [apply (filter_partition is_undefined)|].
    apply Permutation_app_tail.
    destruct (consistent _); [apply sort_perm|apply engine_order_perm]. }
  apply Forall_forall. intros e He.
  apply (proj1 (Forall_forall _ _) Hp).
  eapply Permutation_in; [apply Permutation_sym; exact Hperm|exact He].
Qed.

Lemma checkRanges_each_app (wrapAll : bool) (l1 l2 : list entry) (last : Z) :
  checkRanges_each wrapAll (l1 ++ l2) last =
    do (acc1, rep1, last1) <- checkRanges_each wrapAll l1 last ;;
    do (acc2, rep2, last2) <- checkRanges_each wrapAll l2 last1 ;;
    Ok (acc1 ++ acc2, rep1 ++ rep2, last2).
Proof.
  revert last. induction l1 as [|r l1 IH]; intros last.
  - cbn [app checkRanges_each bind].
    now destruct (checkRanges_each wrapAll l2 last) as [[[? ?] ?]| |].
  - cbn [app]. rewrite !checkRanges_each_cons.
    destruct (accepted_bounds r last) as [[[s e]|]| |]; cbn [bind];
      try reflexivity.
    + rewrite IH.
      destruct (checkRanges_each wrapAll l1 _) as [[[a1 r1] t1]| |];
        cbn [bind]; try reflexivity.
      destruct (checkRanges_each wrapAll l2 t1) as [[[a2 r2] t2]| |];
        cbn [bind]; reflexivity.
    + rewrite IH.
      destruct (checkRanges_each wrapAll l1 _) as [[[a1 r1] t1]| |];
        cbn [bind]; try reflexivity.
      destruct (checkRanges_each wrapAll l2 t1) as [[[a2 r2] t2]| |];
        cbn [bind]; reflexivity.
Qed.

Lemma invalid_range_rejected (wrapAll : bool) (acc : list range)
  (item : entry) (last : Z) :
  plain item = true ->
  (wrapAll = false -> forall a, In a acc -> range_end a <= last) ->
  invalid_range wrapAll acc item ->
  accepted_bounds item last = Ok None.
Proof.
  intros Hp Hlast Hinv.
  destruct (accepted_bounds item last) as [[[s e]|]| |] eqn:Ea;
    [|reflexivity| |].
  - exfalso.
    apply accepted_bounds_some in Ea
      as (r & -> & H1 & H2 & H3 & H4 & H5 & H6).
    destruct Hinv as [H|[H|[H|(Hw & a & s' & Ha & Hs & Hlt)]]];
      try congruence.
    + rewrite H4, H1 in H. cbn in H.
      assert ((e >? s) = true) by (apply Z.gtb_lt; lia). congruence.
    + specialize (Hlast Hw a Ha).
      rewrite H1 in Hs. inversion Hs; subst. lia.
  - apply accepted_bounds_throw in Ea.
    now apply callNoMatch_plain in Ea.
  - unfold accepted_bounds in Ea.
    destruct (callNoMatch_cases item last)
      as [Ht|[(r & s' & len & -> & _ & _ & _ & _ & _ & _ & Hc)
             |(c & Hc & _)]]; rewrite ?Ht, ?Hc in Ea; discriminate Ea.
Qed.

(** In an array of objects in which nothing throws, [checkRanges]
    returns and takes the entries in the order [sort] leaves them in.
    An entry that is invalid where it stands is handed to [noMatch]
    and not put on the stack; the entries after it are validated as if
    it were not there.  Every entry is either accepted or handed to
    [noMatch]. *)
Lemma checkRanges_invalid_reported (wrapAll : bool)
  (first : rawRange) (others : list entry) (item : entry) :
  let array := EObject first :: others in
  Forall (fun e => plain e = true) array ->
  In item array ->
  exists stack reps l1 l2 acc1 rep1 last1 acc2 rep2 last2,
    checkRanges engine_order wrapAll array = Ok (stack, reps) /\
    (length stack + length reps = length array)%nat /\
    sort_entries engine_order array = Ok (l1 ++ item :: l2) /\
    checkRanges_each wrapAll l1 0 = Ok (acc1, rep1, last1) /\
    checkRanges_each wrapAll l2 last1 = Ok (acc2, rep2, last2) /\
    (invalid_range wrapAll acc1 item ->
     stack = acc1 ++ acc2 /\ reps = rep1 ++ NoMatchRange item :: rep2).
Proof.
  intros array Hp Hin. subst array.
  destruct (sort_entries_plain Hp) as (sorted & Hs & Hps).
  destruct (checkRanges_each_plain wrapAll 0 Hps) as (stack & reps & t & He).
  assert (Hin' : In item sorted).
  { eapply Permutation_in; [apply (sort_entries_perm _ Hs)|exact Hin]. }
  apply in_split in Hin' as (l1 & l2 & ->).
  assert (Hall := proj1 (Forall_forall _ _) Hps).
  assert (Hp1 : Forall (fun e => plain e = true) l1).
  { apply Forall_forall. intros e Hi. apply Hall.
    apply in_or_app. now left. }
  assert (Hpi : plain item = true).
  { apply Hall. apply in_or_app. right. now left. }
  assert (Hp2 : Forall (fun e => plain e = true) l2).
  { apply Forall_forall. intros e Hi. apply Hall.
    apply in_or_app. right. now right. }
  destruct (checkRanges_each_plain wrapAll 0 Hp1) as (acc1 & rep1 & last1 & E1).
  destruct (checkRanges_each_plain wrapAll last1 Hp2)
    as (acc2 & rep2 & last2 & E2).
  exists stack, reps, l1, l2, acc1, rep1, last1, acc2, rep2, last2.
  split; [unfold checkRanges; rewrite Hs; cbn [bind]; now rewrite He|].
  split.
  { rewrite (checkRanges_each_total _ _ _ He).
    apply Permutation_length, Permutation_sym, (sort_entries_perm _ Hs). }
  split; [exact Hs|]. split; [exact E1|]. split; [exact E2|].
  intros Hinv.
  rewrite checkRanges_each_app, E1 in He. cbn [bind] in He.
  rewrite checkRanges_each_cons in He.
  rewrite (@invalid_range_rejected wrapAll acc1 item last1 Hpi) in He;
    [| |exact Hinv].
  - cbn [bind] in He. rewrite E2 in He. cbn [bind] in He.
    inversion He. split; reflexivity.
  - intros -> a Ha. now apply (checkRanges_each_last _ _ E1).
Qed.

(** With a [null] among the entries [sort] throws, whatever stands
    around it. *)
Lemma checkRanges_null_throws (wrapAll : bool) (first : rawRange)
  (others : list entry) :
  In ENull others ->
  checkRanges engine_order wrapAll (EObject first :: others) = Throw.
Proof.
  intros Hin. unfold checkRanges, sort_entries.
  cbn [filter is_undefined negb length].
  assert (Hd : In ENull (filter (fun e => negb (is_undefined e)) others)).
  { apply filter_In. now split. }
  destruct (filter (fun e => negb (is_undefined e)) others) as [|x d] eqn:E;
    [destruct Hd|].
  cbn [length Nat.leb forallb].
  assert (Hc : forallb comparable (x :: d) = false).
  { destruct (forallb comparable (x :: d)) eqn:Hf; [|reflexivity].
    rewrite forallb_forall in Hf. now specialize (Hf ENull Hd). }
  cbn [forallb] in Hc. rewrite Hc, andb_false_r. reflexivity.
Qed.
End Order.

(** C5.  An array with [null] in the place of a range, as
    [[{start: 0, length: 2}, null]].  [sort] hands [null] to the
    comparator, which reads its [start]: [checkRanges] throws before
    an entry is validated, so that no range is accepted and none is
    handed to [noMatch].  This is so in every engine, with and
    without [wrapAllRanges], whatever else the array holds.
    [callNoMatchOnInvalidRanges] has a branch for an entry that is
    [null] or [undefined]: it hands the entry to [noMatch] and the
    [forEach] goes on.  This is what happens to an [undefined] entry,
    which [sort] does not hand to the comparator.  A [start] that is a
    Symbol makes [checkRanges] throw as well. *)
Theorem checkRanges_null_entry_aborts
  (engine_order : list entry -> list entry) (wrapAll : bool) (last : Z) :
  let r := {| r_start := VNumber 0; r_length := VNumber 2 |} in
  checkRanges engine_order wrapAll [EObject r; ENull] = Throw /\
  (forall first others,
      In ENull others ->
      checkRanges engine_order wrapAll (EObject first :: others) = Throw) /\
  callNoMatchOnInvalidRanges ENull last
    = Ok {| c_start := None; c_end := None; c_valid := false;
            c_noMatch := [ENull] |} /\
  checkRanges engine_order wrapAll [EObject r; EUndefined]
    = Ok ([{| start := 0; length_of := 2 |}], [NoMatchRange EUndefined]) /\
  checkRanges engine_order wrapAll
    [EObject r; EObject {| r_start := VSymbol; r_length := VNumber 1 |}]
    = Throw.
Proof.
  cbv zeta. split; [reflexivity|]. split.
  - intros first others Hin. now apply checkRanges_null_throws.
  - repeat split.
Qed.

(** An array on which the comparator is consistent: the second and
    the third range are handed to [noMatch], as is the entry without
    [length]; the first and the last are accepted. *)
Example checkRanges_example (engine_order : list entry -> list entry) :
  checkRanges engine_order false
    [ EObject {| r_start := VNumber 0; r_length := VNumber 4 |};
      EObject {| r_start := VNumber 5; r_length := VNumber (-1) |};
      EObject {| r_start := VNumber 2; r_length := VNumber 3 |};
      EObject {| r_start := VNumber 9; r_length := VUndefined |};
      EObject {| r_start := VNumber 6; r_length := VNumber 2 |} ]
  = Ok ([ {| start := 0; length_of := 4 |};
          {| start := 6; length_of := 2 |} ],
        [ NoMatchRange
            (EObject {| r_start := VNumber 2; r_length := VNumber 3 |});
          NoMatchRange
            (EObject {| r_start := VNumber 5; r_length := VNumber (-1) |});
          NoMatchRange
            (EObject {| r_start := VNumber 9; r_length := VUndefined |}) ]).
Proof. reflexivity. Qed.

End RangesFacts.

(** ** Range marking *)

Module RangeMarkingFacts.
Import Host HostFacts Fragments Engine.

Lemma checkWhitespaceRanges_bounds (r : Ranges.range) (originalLength : Z)
  (string : jsstring) :
  let w := Ranges.checkWhitespaceRanges r originalLength string in
  Ranges.w_start w
    = Z.min (Ranges.start r - (originalLength - jslen string)) (jslen string) /\
  Ranges.w_end w
    = Z.min (Ranges.w_start w + Ranges.length_of r) (jslen string).
Proof.
  unfold Ranges.checkWhitespaceRanges.
  set (max := jslen string).
  set (start0 := Ranges.start r - (originalLength - max)).
  assert (Hs : (if start0 >? max then max else start0) = Z.min start0 max).
  { destruct (Z.gtb_spec start0 max); lia. }
  rewrite !Hs.
  set (start := Z.min start0 max).
  assert (He : (if start + Ranges.length_of r >? max then max
                else start + Ranges.length_of r)
               = Z.min (start + Ranges.length_of r) max).
  { destruct (Z.gtb_spec (start + Ranges.length_of r) max); lia. }
  rewrite !He.
  destruct ((start <? 0) || (Z.min (start + Ranges.length_of r) max - start <=? 0));
    [simpl; split; reflexivity|].
  destruct (negb (has_non_space (substring string start
                                   (Z.min (start + Ranges.length_of r) max))));
    simpl; split; reflexivity.
Qed.

Lemma checkWhitespaceRanges_cases (r : Ranges.range) (originalLength : Z)
  (string : jsstring) :
  let w := Ranges.checkWhitespaceRanges r originalLength string in
  (Ranges.w_valid w = true /\ Ranges.w_noMatch w = [] /\
   0 <= Ranges.w_start w < Ranges.w_end w /\
   has_non_space (substring string (Ranges.w_start w) (Ranges.w_end w)) = true) \/
  (Ranges.w_valid w = false /\ Ranges.w_noMatch w = [r]).
Proof.
  unfold Ranges.checkWhitespaceRanges.
  set (max := jslen string).
  set (start0 := Ranges.start r - (originalLength - max)).
  set (start := if start0 >? max then max else start0).
  set (end_ := if start + Ranges.length_of r >? max then max
               else start + Ranges.length_of r).
  destruct (Z.ltb_spec start 0) as [E1|E1]; simpl.
  - right. split; reflexivity.
  - destruct (Z.leb_spec (end_ - start) 0) as [E2|E2]; simpl.
    + right. split; reflexivity.
    + destruct (has_non_space (substring string start end_)) eqn:E3; simpl.
      * left. repeat split; try assumption; lia.
      * right. split; reflexivity.
Qed.

(** C6.  The start of an accepted range is moved by the difference
    between the original and the current text length and both bounds
    are clipped to the text length.  When the text between the bounds
    so obtained has no character that is not white space, the range is
    invalid, [noMatch] is called with it, and [wrapRangeFromIndex]
    leaves the fragments alone: no wrap, no [each], no count. *)
Theorem whitespace_only_range_rejected
  (filter : list call -> jsstring -> Ranges.range -> jsstring -> nat -> bool)
  (wrapAll : bool) (fuel : nat) (originalLength : Z) (r : Ranges.range)
  (counter : nat) (d : dict) (c : closure)
  (Hws : has_non_space
           (substring (value d)
              (Ranges.w_start (Ranges.checkWhitespaceRanges r originalLength (value d)))
              (Ranges.w_end (Ranges.checkWhitespaceRanges r originalLength (value d))))
         = false) :
  let w := Ranges.checkWhitespaceRanges r originalLength (value d) in
  Ranges.w_start w
    = Z.min (Ranges.start r - (originalLength - jslen (value d)))
            (jslen (value d)) /\
  Ranges.w_end w
    = Z.min (Ranges.w_start w + Ranges.length_of r) (jslen (value d)) /\
  Ranges.w_valid w = false /\
  Ranges.w_noMatch w = [r] /\
  wrapRange filter wrapAll fuel originalLength r counter d c
    = Ok (d, report_noMatch c [r]).
Proof.
  destruct (checkWhitespaceRanges_bounds r originalLength (value d))
    as [Hb1 Hb2].
  cbv zeta. split; [exact Hb1|]. split; [exact Hb2|].
  assert (Hv : Ranges.w_valid (Ranges.checkWhitespaceRanges r originalLength (value d)) = false
               /\ Ranges.w_noMatch (Ranges.checkWhitespaceRanges r originalLength (value d)) = [r]).
  { destruct (checkWhitespaceRanges_cases r originalLength (value d))
      as [(_ & _ & _ & H)|H]; [congruence|exact H]. }
  destruct Hv as [Hv Hn]. split; [exact Hv|]. split; [exact Hn|].
  unfold wrapRange. rewrite Hv, Hn. reflexivity.
Qed.

Lemma whitespace_only_range_rejected_witness :
  wrapRange (fun _ _ _ _ _ => true) false 5 11
    {| Ranges.start := 5; Ranges.length_of := 1 |} 0
    (getTextNodes [js "lorem ipsum"])
    {| count := 0; matchStart := true; abort := false; log := [] |}
  = Ok (getTextNodes [js "lorem ipsum"],
        {| count := 0; matchStart := true; abort := false;
           log := [CallNoMatch {| Ranges.start := 5; Ranges.length_of := 1 |}] |}).
Proof.
  exact (proj2 (proj2 (proj2 (proj2
    (@whitespace_only_range_rejected (fun _ _ _ _ _ => true) false 5 11
       {| Ranges.start := 5; Ranges.length_of := 1 |} 0%nat
       (getTextNodes [js "lorem ipsum"])
       {| count := 0; matchStart := true; abort := false; log := [] |}
       eq_refl))))).
Defined.

End RangeMarkingFacts.

(** ** Capture groups of a pattern source *)

Module GroupsFacts.
Import Host HostFacts Groups.

Lemma re_ind' (P : re -> Prop)
  (HChar : forall c, P (Char c))
  (HEscape : forall c, P (Escape c))
  (HClass : forall items, P (Class items))
  (HGroup : forall k body, Forall P body -> P (Group k body)) :
  forall r, P r.
Proof.
  fix IH 1. intros [c|c|items|k body].
  - apply HChar.
  - apply HEscape.
  - apply HClass.
  - apply HGroup. induction body as [|x l IHl]; constructor.
    + apply IH.
    + exact IHl.
Qed.

Lemma print_group (k : groupKind) (body : list re) :
  print (Group k body) = js "(" ++ header k ++ print_all body ++ js ")".
Proof.
  cbn [print]. do 3 f_equal. unfold print_all.
  induction body as [|x l IH]; [reflexivity|].
  cbn [map concat]. now rewrite IH.
Qed.

Lemma captures_group (k : groupKind) (body : list re) :
  captures (Group k body)
  = (if is_capturing k then 1 else 0) + captures_all body.
Proof. reflexivity. Qed.

Lemma top_level_group (k : groupKind) (body : list re) (next : Z) :
  top_level (Group k body) next
  = if is_capturing k then [next] else top_level_all body next.
Proof.
  cbn [top_level]. destruct (is_capturing k); [reflexivity|].
  revert next. induction body as [|x l IH]; intros next; [reflexivity|].
  cbn [top_level_all]. now rewrite IH.
Qed.

Lemma well_formed_group (k : groupKind) (body : list re) :
  well_formed (Group k body) = kind_ok k body && well_formed_all body.
Proof. reflexivity. Qed.

Lemma mem_false (c : jschar) (l : jsstring) (x : jschar) :
  mem c l = false -> In x l -> N.eqb c x = false.
Proof.
  unfold mem. intros H Hin.
  destruct (N.eqb c x) eqn:E; [|reflexivity].
  assert (existsb (N.eqb c) l = true)
    by (apply existsb_exists; eauto).
  congruence.
Qed.

Lemma scanner_eta (st : scanner) :
  st = {| groups := groups st; stack := stack st; index := index st;
          brackets := brackets st; charsRange := charsRange st |}.
Proof. now destruct st. Qed.

Lemma set_charsRange_same (st : scanner) :
  set_charsRange st (charsRange st) = st.
Proof. now destruct st. Qed.

Lemma advance_nothing (st : scanner) :
  charsRange st = false -> advance st [] 0 = st.
Proof.
  intros H. destruct st as [g s i b r]. cbn in H. subst r.
  unfold advance. cbn [groups stack index brackets charsRange].
  rewrite Z.add_0_r. destruct (b =? 0); now rewrite app_nil_r.
Qed.

Lemma advance_advance (st : scanner) (t1 t2 : list Z) (n1 n2 : Z) :
  advance (advance st t1 n1) t2 n2 = advance st (t1 ++ t2) (n1 + n2).
Proof.
  unfold advance. cbn [groups stack index brackets charsRange].
  f_equal.
  - destruct (brackets st =? 0).
    + now rewrite app_assoc.
    + now rewrite !app_nil_r.
  - lia.
Qed.

(** A character that is neither a parenthesis, a bracket nor a
    backslash changes nothing. *)
Lemma scan_inert_char (c : jschar) (k : jsstring) (st : scanner) :
  inert c = true -> scan (c :: k) st = scan k st.
Proof.
  unfold inert. rewrite negb_true_iff. intros H.
  cbn [scan].
  rewrite (mem_false _ _ c_lparen H) by (simpl; tauto).
  rewrite (mem_false _ _ c_rparen H) by (simpl; tauto).
  rewrite (mem_false _ _ c_backslash H) by (simpl; tauto).
  rewrite (mem_false _ _ c_lbracket H) by (simpl; tauto).
  rewrite (mem_false _ _ c_rbracket H) by (simpl; tauto).
  reflexivity.
Qed.

Lemma scan_inert (s k : jsstring) (st : scanner) :
  forallb inert s = true -> scan (s ++ k) st = scan k st.
Proof.
  induction s as [|c s IH]; [reflexivity|].
  cbn [forallb]. intros H. apply andb_true_iff in H as [Hc Hs].
  rewrite <- app_comm_cons, scan_inert_char by assumption. now apply IH.
Qed.

(** Inside a character class nothing is counted. *)
Lemma scan_in_class (c : jschar) (k : jsstring) (st : scanner) :
  charsRange st = true -> plain_in_class c = true ->
  scan (c :: k) st = scan k st.
Proof.
  unfold plain_in_class. rewrite negb_true_iff. intros Hr H.
  cbn [scan].
  rewrite (mem_false _ _ c_backslash H) by (simpl; tauto).
  rewrite (mem_false _ _ c_rbracket H) by (simpl; tauto).
  unfold on_open, on_close. rewrite Hr.
  rewrite <- Hr at 1. rewrite set_charsRange_same.
  destruct (N.eqb c c_lparen); [reflexivity|].
  destruct (N.eqb c c_rparen); [reflexivity|].
  destruct (N.eqb c c_lbracket); reflexivity.
Qed.

Lemma scan_class_items (items : list classItem) (k : jsstring) (st : scanner) :
  charsRange st = true ->
  forallb (fun i => match i with
                    | ClassChar c => plain_in_class c
                    | ClassEscape _ => true
                    end) items = true ->
  scan (concat (map print_item items) ++ k) st = scan k st.
Proof.
  intros Hr. induction items as [|i items IH]; [reflexivity|].
  cbn [forallb map concat]. intros H. apply andb_true_iff in H as [Hi Hs].
  rewrite <- app_assoc. destruct i as [c|c]; cbn [print_item].
  - cbn [app]. rewrite scan_in_class by assumption. now apply IH.
  - cbn [app]. cbn [scan]. cbn. now apply IH.
Qed.

(** The first character of a well-formed capturing group's body is not
    a question mark. *)
Lemma opens_capture_body (body : list re) (k : jsstring) :
  kind_ok Capturing body = true ->
  opens_capture (print_all body ++ js ")" ++ k) = true.
Proof.
  destruct body as [|x l]; [reflexivity|].
  unfold print_all. cbn [map concat].
  destruct x as [c|c|items|g b]; cbn [kind_ok].
  - cbn [print app]. cbn [opens_capture]. intros H.
    apply negb_true_iff in H. now rewrite H.
  - reflexivity.
  - reflexivity.
  - intros _. rewrite print_group. reflexivity.
Qed.

Lemma name_ok_head (name : jsstring) (k : jsstring) :
  name_ok name = true ->
  opens_capture (js "?<" ++ name ++ js ">" ++ k) = true.
Proof.
  unfold name_ok. intros H. apply andb_true_iff in H as [_ H].
  destruct name as [|c name]; [reflexivity|].
  cbn. exact H.
Qed.

Lemma name_ok_inert (name : jsstring) :
  name_ok name = true -> forallb inert name = true.
Proof.
  unfold name_ok. intros H. apply andb_true_iff in H as [H _].
  apply forallb_forall. intros c Hc.
  rewrite forallb_forall in H. specialize (H c Hc).
  apply andb_true_iff in H as [Hp Hb].
  unfold plain in Hp. rewrite negb_true_iff in Hp, Hb.
  unfold inert. rewrite negb_true_iff. unfold mem in *. cbn in *.
  rewrite !orb_false_r in *.
  apply orb_false_iff in Hp as [H1 Hp].
  apply orb_false_iff in Hp as [H2 Hp].
  apply orb_false_iff in Hp as [H3 H4].
  unfold c_rbracket in Hb. cbn in Hb.
  now rewrite H1, H2, H3, H4, Hb.
Qed.

(** The header of a group: whether the parenthesis opens a capturing
    group, and that the scanner passes over the header. *)
Lemma header_opens (g : groupKind) (body : list re) (k : jsstring) :
  kind_ok g body = true ->
  opens_capture (header g ++ print_all body ++ js ")" ++ k) = is_capturing g.
Proof.
  destruct g; cbn [header is_capturing kind_ok]; intros H;
    try reflexivity.
  - now apply opens_capture_body.
  - rewrite <- !app_assoc. now apply name_ok_head.
Qed.

Lemma header_inert (g : groupKind) (body : list re) :
  kind_ok g body = true -> forallb inert (header g) = true.
Proof.
  destruct g; cbn [header kind_ok]; intros H; try reflexivity.
  rewrite !forallb_app. rewrite (name_ok_inert _ H). reflexivity.
Qed.

Lemma scan_open (t : jsstring) (st : scanner) :
  scan (js "(" ++ t) st = scan t (on_open t st).
Proof. reflexivity. Qed.

Lemma scan_close (t : jsstring) (st : scanner) :
  scan (js ")" ++ t) st = scan t (on_close st).
Proof. reflexivity. Qed.

Lemma scan_all (l : list re) :
  Forall scans l -> well_formed_all l = true ->
  forall (k : jsstring) (st : scanner),
    charsRange st = false -> 0 <= brackets st ->
    scan (print_all l ++ k) st
    = scan k (advance st (top_level_all l (index st)) (captures_all l)).
Proof.
  induction 1 as [|x l Hx Hl IH]; intros Hwf k st Hr Hb.
  - cbn. now rewrite advance_nothing.
  - unfold well_formed_all in Hwf. cbn [forallb] in Hwf.
    apply andb_true_iff in Hwf as [Hwx Hwl].
    unfold print_all. cbn [map concat]. rewrite <- app_assoc.
    rewrite (Hx Hwx) by assumption.
    fold (print_all l). rewrite (IH Hwl); [|reflexivity|exact Hb].
    rewrite advance_advance. reflexivity.
Qed.

Lemma scan_re (r : re) : scans r.
Proof.
  induction r as [c|c|items|g body IH] using re_ind';
    intros Hwf k st Hr Hb.
  - (* a plain character *)
    cbn [print top_level captures app]. rewrite advance_nothing by assumption.
    cbn [well_formed] in Hwf. unfold plain in Hwf.
    rewrite negb_true_iff in Hwf. cbn [scan].
    rewrite (mem_false _ _ c_lparen Hwf) by (simpl; tauto).
    rewrite (mem_false _ _ c_rparen Hwf) by (simpl; tauto).
    rewrite (mem_false _ _ c_backslash Hwf) by (simpl; tauto).
    rewrite (mem_false _ _ c_lbracket Hwf) by (simpl; tauto).
    rewrite <- Hr at 1. rewrite set_charsRange_same.
    destruct (N.eqb c c_rbracket); reflexivity.
  - (* an escape *)
    cbn [print top_level captures app]. rewrite advance_nothing by assumption.
    reflexivity.
  - (* a character class *)
    cbn [print top_level captures]. rewrite advance_nothing by assumption.
    cbn [well_formed] in Hwf.
    change (js "[" ++ concat (map print_item items) ++ js "]")
      with (c_lbracket :: concat (map print_item items) ++ [c_rbracket]).
    rewrite <- app_comm_cons, <- app_assoc.
    change (scan (c_lbracket :: ?x) st) with (scan x (set_charsRange st true)).
    cbn [scan]. cbn.
    rewrite scan_class_items by (try assumption; reflexivity).
    transitivity (scan k (set_charsRange (set_charsRange st true) false));
      [reflexivity|].
    f_equal. destruct st as [g s i b r]. cbn in Hr. now subst r.
  - (* a group *)
    rewrite well_formed_group in Hwf.
    apply andb_true_iff in Hwf as [Hk Hwb].
    rewrite print_group, captures_group, top_level_group.
    rewrite <- !app_assoc. rewrite scan_open.
    unfold on_open at 1. rewrite Hr.
    rewrite (header_opens g body k Hk).
    rewrite scan_inert by (eapply header_inert; eassumption).
    destruct (is_capturing g) eqn:Ec.
    + rewrite (scan_all IH Hwb); [|reflexivity|cbn; lia].
      rewrite scan_close. f_equal.
      unfold on_close, advance.
      cbn [brackets index groups stack charsRange].
      destruct (Z.eqb_spec (brackets st + 1) 0) as [E|E]; [lia|].
      rewrite app_nil_r. change (1 =? 1) with true. cbv iota.
      f_equal; [|lia|lia].
      destruct (brackets st =? 0); [reflexivity|now rewrite app_nil_r].
    + rewrite (scan_all IH Hwb); [|reflexivity|exact Hb].
      rewrite scan_close. reflexivity.
Qed.

(** C4.  For the source text of a pattern, [collectRegexGroupIndexes]
    returns the numbers of the capturing groups that lie in no other
    capturing group, in the order of the text; the numbers count every
    capturing parenthesis, nested or not, and no parenthesis of a
    character class, of an escape, of a non-capturing group or of a
    lookaround. *)
Theorem collectRegexGroupIndexes_top_level (l : list re)
  (Hwf : well_formed_all l = true) :
  collectRegexGroupIndexes (print_all l) = top_level_all l 1.
Proof.
  unfold collectRegexGroupIndexes.
  rewrite <- (app_nil_r (print_all l)).
  rewrite scan_all; try assumption; try reflexivity.
  apply Forall_forall. intros r _. apply scan_re.
Qed.

(** [(a(b))(?:c(d))[(]\((?<n>e)(?<=f)] *)
Lemma collectRegexGroupIndexes_top_level_witness :
  collectRegexGroupIndexes (js "(a(b))(?:c(d))[(]\((?<n>e)(?<=f)")
  = [1; 3; 4].
Proof.
  exact (@collectRegexGroupIndexes_top_level
    [ Group Capturing [Char (ch "a"); Group Capturing [Char (ch "b")]];
      Group NonCapturing [Char (ch "c"); Group Capturing [Char (ch "d")]];
      Class [ClassChar (ch "(")];
      Escape (ch "(");
      Group (Named (js "n")) [Char (ch "e")];
      Group Lookbehind [Char (ch "f")] ] eq_refl).
Defined.

End GroupsFacts.

(** ** Fragments *)

Module FragmentsFacts.
Import Host HostFacts Fragments Engine.

(** The fragments of [<p>a xwor</p><p>ld x</p>]: each text node ends
    a block, so a space is put after it in the virtual string. *)
Example two_blocks :
  getTextNodesAcrossElements None
    [ {| text := js "a xwor"; blockType := 1 |};
      {| text := js "ld x"; blockType := 1 |} ]
  = {| value := js "a xwor ld x ";
       nodes := [ {| start := 0; end_ := 6; offset := 1;
                     startOffset := Some 0; node := js "a xwor" |};
                  {| start := 7; end_ := 11; offset := 1;
                     startOffset := Some (-1); node := js "ld x" |} ];
       lastIndex := 0; lastTextIndex := 0 |}.
Proof. reflexivity. Qed.

(** C3.  Wrapping [xwor], the end of the first fragment of
    [two_blocks]: the fragment is replaced by one unmatched and one
    marked fragment, but the marked one has offset 0 and the offset 1
    of the original is on no fragment of the list; the list is no longer
    contiguous. *)
Theorem wrapRangeInTextNodeInsert_drops_offset :
  let n := {| start := 0; end_ := 6; offset := 1; startOffset := Some 0;
              node := js "a xwor" |} in
  let next := {| start := 7; end_ := 11; offset := 1;
                 startOffset := Some (-1); node := js "ld x" |} in
  contiguous [n; next] = true /\
  wrapRangeInTextNodeInsert [n; next] n 2 6 2 0
  = Ok {| new_nodes :=
            [ {| start := 0; end_ := 2; offset := 0; startOffset := Some 0;
                 node := js "a " |};
              {| start := 2; end_ := 6; offset := 0; startOffset := None;
                 node := js "xwor" |};
              next ];
          retNode := {| start := 6; end_ := 6; offset := 1;
                        startOffset := None; node := [] |};
          markNode := js "xwor";
          increment := 1 |} /\
  contiguous
    [ {| start := 0; end_ := 2; offset := 0; startOffset := Some 0;
         node := js "a " |};
      {| start := 2; end_ := 6; offset := 0; startOffset := None;
         node := js "xwor" |};
      next ] = false.
Proof. repeat split. Qed.

(** *** Lists of fragments *)

Lemma nth_error_middle {A : Type} (pre : list A) (n : A) (post : list A) :
  nth_error (pre ++ n :: post) (length pre) = Some n.
Proof.
  rewrite nth_error_app2 by lia. now rewrite Nat.sub_diag.
Qed.

Lemma nth_error_after {A : Type} (pre : list A) (n : A) (post : list A) :
  nth_error (pre ++ n :: post) (length pre + 1) = nth_error post 0.
Proof.
  rewrite nth_error_app2 by lia.
  replace (length pre + 1 - length pre)%nat with 1%nat by lia. reflexivity.
Qed.

Lemma splice_middle {A : Type} (pre : list A) (n : A) (post items : list A) :
  splice (pre ++ n :: post) (length pre) 1 items = pre ++ items ++ post.
Proof.
  unfold splice. rewrite firstn_app, Nat.sub_diag, firstn_all. simpl.
  rewrite app_nil_r. do 2 f_equal.
  rewrite skipn_app, skipn_all2 by lia.
  replace (length pre + 1 - length pre)%nat with 1%nat by lia. reflexivity.
Qed.

Lemma update_middle {A : Type} (pre : list A) (n : A) (post : list A) (x : A) :
  update (pre ++ n :: post) (length pre) x = pre ++ x :: post.
Proof. unfold update. now rewrite splice_middle. Qed.

Lemma splice_after {A : Type} (pre : list A) (n : A) (post items : list A) :
  splice (pre ++ n :: post) (length pre + 1) 0 items
  = pre ++ n :: items ++ post.
Proof.
  unfold splice. rewrite firstn_app, firstn_all2 by lia.
  replace (length pre + 1 - length pre)%nat with 1%nat by lia.
  rewrite <- app_assoc. simpl. do 3 f_equal.
  rewrite Nat.add_0_r, skipn_app, skipn_all2 by lia.
  replace (length pre + 1 - length pre)%nat with 1%nat by lia. reflexivity.
Qed.

Lemma chain_tail (n : nodeInfo) (l : list nodeInfo) :
  chain (n :: l) -> chain l.
Proof.
  intros [Hc Hw]. inversion Hw; subst. split; [|assumption].
  destruct l as [|m l]; [reflexivity|].
  cbn [contiguous] in Hc. now apply andb_true_iff in Hc as [_ Hc].
Qed.

Lemma chain_next (n m : nodeInfo) (l : list nodeInfo) :
  chain (n :: m :: l) -> end_ n + offset n = start m.
Proof.
  intros [Hc _]. cbn [contiguous] in Hc.
  apply andb_true_iff in Hc as [Hc _]. now apply Z.eqb_eq.
Qed.

Lemma chain_head (n : nodeInfo) (l : list nodeInfo) :
  chain (n :: l) -> well_sized n.
Proof. intros [_ Hw]. now inversion Hw. Qed.

(** In a chain the fragments come in the order of their starts. *)
Lemma chain_starts (n : nodeInfo) (l : list nodeInfo) :
  chain (n :: l) -> forall m, In m l -> end_ n + offset n <= start m.
Proof.
  revert n. induction l as [|k l IH]; intros n Hc m Hin; [destruct Hin|].
  assert (Hk := chain_next Hc).
  destruct Hin as [<-|Hin]; [lia|].
  assert (Hc' := chain_tail Hc).
  specialize (IH k Hc' m Hin).
  destruct (chain_head Hc') as (H1 & H2 & _). lia.
Qed.

Lemma chain_app_tail (pre l : list nodeInfo) :
  chain (pre ++ l) -> chain l.
Proof.
  induction pre as [|p pre IH]; [auto|].
  intros H. apply IH. exact (chain_tail H).
Qed.

(** A span that starts at or after the end of a fragment does not cover
    it; a span that ends at or before its start does not either. *)
Lemma covers_before (start_ end' : Z) (n : nodeInfo) :
  end_ n <= start_ -> covers start_ end' n = false.
Proof. intros H. unfold covers. apply Z.ltb_ge. lia. Qed.

Lemma covers_after (start_ end' : Z) (n : nodeInfo) :
  end' <= start n -> covers start_ end' n = false.
Proof. intros H. unfold covers. apply Z.ltb_ge. lia. Qed.

Lemma markers_none_after (l : list nodeInfo) (start_ end' : Z) :
  (forall m, In m l -> end' <= start m) -> markers l start_ end' = [].
Proof.
  intros H. unfold markers.
  induction l as [|m l IH]; [reflexivity|].
  cbn [filter]. rewrite covers_after by (apply H; now left).
  apply IH. intros k Hk. apply H. now right.
Qed.

Lemma markers_none_before (l : list nodeInfo) (start_ end' : Z) :
  (forall m, In m l -> end_ m <= start_) -> markers l start_ end' = [].
Proof.
  intros H. unfold markers.
  induction l as [|m l IH]; [reflexivity|].
  cbn [filter]. rewrite covers_before by (apply H; now left).
  apply IH. intros k Hk. apply H. now right.
Qed.

(** For the fragments that start at or after both, two starts of a
    span give the same markers. *)
Lemma markers_start (l : list nodeInfo) (start1 start2 end' : Z) :
  (forall m, In m l -> start1 <= start m /\ start2 <= start m) ->
  markers l start1 end' = markers l start2 end'.
Proof.
  intros H. unfold markers.
  induction l as [|m l IH]; [reflexivity|].
  destruct (H m (or_introl eq_refl)) as [H1 H2].
  assert (Hc : covers start1 end' m = covers start2 end' m).
  { unfold covers. now rewrite !Z.max_r by lia. }
  assert (Ht : marked_text start1 end' m = marked_text start2 end' m).
  { unfold marked_text. now rewrite !Z.max_r by lia. }
  cbn [filter]. rewrite Hc.
  destruct (covers start2 end' m); cbn [map]; rewrite ?Ht, IH;
    try reflexivity; intros k Hk; apply H; now right.
Qed.

Lemma markers_cons (n : nodeInfo) (l : list nodeInfo) (start_ end' : Z) :
  markers (n :: l) start_ end'
  = (if covers start_ end' n then [marked_text start_ end' n] else [])
    ++ markers l start_ end'.
Proof. unfold markers. cbn [filter]. now destruct (covers start_ end' n). Qed.

Lemma flagged_cons (rs : bool) (t : jsstring) (ts : list jsstring) :
  flagged rs (t :: ts) = (t, rs) :: flagged false ts.
Proof. destruct ts; reflexivity. Qed.

(** *** The wrap operations on a fragment *)

Lemma jslen_skipn (txt : jsstring) (k : Z) :
  0 <= k <= jslen txt -> jslen (skipn (Z.to_nat k) txt) = jslen txt - k.
Proof.
  unfold jslen. intros H. rewrite length_skipn. lia.
Qed.

Lemma splitText_ok (txt : jsstring) (k : Z) :
  0 <= k <= jslen txt ->
  splitText txt k = Ok (firstn (Z.to_nat k) txt, skipn (Z.to_nat k) txt).
Proof.
  intros H. unfold splitText.
  destruct (Z.leb_spec 0 k); [|lia].
  destruct (Z.leb_spec k (jslen txt)); [|lia]. cbn [andb].
  destruct (Z.gtb_spec k (jslen txt)); [lia|]. reflexivity.
Qed.

(** On the data of a text node, [splitText] is the DOM method: the
    offset is read as an [unsigned long]. *)
Lemma splitText_unsigned (txt : jsstring) (k : Z) :
  jslen txt < 2 ^ 32 ->
  splitText txt k
  = if unsigned_long k >? jslen txt then Throw
    else Ok (firstn (Z.to_nat (unsigned_long k)) txt,
             skipn (Z.to_nat (unsigned_long k)) txt).
Proof.
  intros Hlen. unfold splitText.
  destruct (Z.leb_spec 0 k) as [H0|H0]; [|reflexivity].
  destruct (Z.leb_spec k (jslen txt)) as [H1|H1]; [|reflexivity].
  cbn [andb]. unfold unsigned_long. rewrite Z.mod_small by lia. reflexivity.
Qed.

Lemma wrapRangeInTextNode_ok (txt : jsstring) (s e : Z) :
  0 <= s <= e -> e <= jslen txt ->
  wrapRangeInTextNode txt s e
  = Ok (skipn (Z.to_nat (e - s)) (skipn (Z.to_nat s) txt),
        firstn (Z.to_nat (e - s)) (skipn (Z.to_nat s) txt)).
Proof.
  intros H1 H2. unfold wrapRangeInTextNode.
  rewrite splitText_ok by lia. cbn [bind].
  rewrite splitText_ok by (rewrite jslen_skipn; lia). reflexivity.
Qed.

(** What a wrap that splices the list does to it: the fragment is
    replaced by the marked fragment and by the unmatched text before
    and after it, when there is any. *)
Lemma wrapRangeInTextNodeInsert_shape (pre : list nodeInfo) (n : nodeInfo)
  (post : list nodeInfo) (s e : Z) :
  0 <= s < e -> e <= jslen (node n) ->
  let marked := firstn (Z.to_nat (e - s)) (skipn (Z.to_nat s) (node n)) in
  let kept := firstn (Z.to_nat s) (node n) in
  let rest := skipn (Z.to_nat (e - s)) (skipn (Z.to_nat s) (node n)) in
  let mNode := {| start := start n + s; end_ := start n + e; offset := 0;
                  startOffset := None; node := marked |} in
  let ret := {| start := start n + e; end_ := end_ n; offset := offset n;
                startOffset := None; node := rest |} in
  let n' := {| start := start n; end_ := start n + s; offset := 0;
               startOffset := startOffset n; node := kept |} in
  wrapRangeInTextNodeInsert (pre ++ n :: post) n s e (start n + s) (length pre)
  = Ok {| new_nodes :=
            if s =? 0
            then if e =? jslen (node n) then pre ++ n :: post
                 else pre ++ mNode :: ret :: post
            else if e =? jslen (node n) then pre ++ n' :: mNode :: post
                 else pre ++ n' :: mNode :: ret :: post;
          retNode := if (s =? 0) && (e =? jslen (node n)) then n else ret;
          markNode := marked;
          increment := if s =? 0
                       then if e =? jslen (node n) then 0 else 1
                       else if e =? jslen (node n) then 1 else 2 |}.
Proof.
  intros Hs He. cbv zeta. unfold wrapRangeInTextNodeInsert.
  destruct (Z.eqb_spec s 0) as [E0|E0];
    destruct (Z.eqb_spec e (jslen (node n))) as [E1|E1]; cbn [andb].
  - rewrite update_middle. subst s.
    replace (Z.to_nat (e - 0)) with (Z.to_nat e) by (f_equal; lia).
    cbn [Z.to_nat skipn]. rewrite E1.
    unfold jslen. rewrite Nat2Z.id, firstn_all. reflexivity.
  - rewrite splitText_ok by lia. cbn [bind].
    rewrite splitText_ok by (rewrite jslen_skipn; lia). cbn [bind].
    rewrite splice_middle. reflexivity.
  - rewrite splitText_ok by lia. cbn [bind].
    rewrite splitText_ok by (rewrite jslen_skipn; lia). cbn [bind].
    rewrite splice_after. cbn [app].
    rewrite update_middle. reflexivity.
  - rewrite splitText_ok by lia. cbn [bind].
    rewrite splitText_ok by (rewrite jslen_skipn; lia). cbn [bind].
    rewrite splice_after. cbn [app].
    rewrite update_middle. reflexivity.
Qed.

(** *** What keeps a chain of fragments a chain *)

Lemma contiguous_cons (a b : nodeInfo) (l : list nodeInfo) :
  contiguous (a :: b :: l)
  = (end_ a + offset a =? start b) && contiguous (b :: l).
Proof. reflexivity. Qed.

(** Replacing a fragment by fragments that begin where it began and
    that are linked to each other and to the fragments after it. *)
Lemma chain_replace (pre : list nodeInfo) (n : nodeInfo)
  (post : list nodeInfo) (x : nodeInfo) (l : list nodeInfo) :
  chain (pre ++ n :: post) ->
  start x = start n ->
  contiguous ((x :: l) ++ post) = true ->
  Forall well_sized (x :: l) ->
  chain (pre ++ (x :: l) ++ post).
Proof.
  intros Hc Hx Hl Hw. induction pre as [|p pre IH].
  - cbn [app]. split; [exact Hl|].
    apply (proj2 (Forall_app well_sized (x :: l) post)). split; [exact Hw|].
    destruct (chain_tail Hc) as [_ H]. exact H.
  - assert (Hc' := chain_tail Hc). specialize (IH Hc').
    destruct IH as [IH1 IH2]. split.
    + destruct pre as [|q pre].
      * cbn [app] in *. rewrite contiguous_cons.
        apply andb_true_iff. split; [|exact IH1].
        apply Z.eqb_eq. rewrite Hx. exact (chain_next Hc).
      * cbn [app] in *. rewrite contiguous_cons.
        apply andb_true_iff. split; [|exact IH1].
        apply Z.eqb_eq. exact (chain_next Hc).
    + constructor; [exact (chain_head Hc)|exact IH2].
Qed.

(** Adding a fragment that begins where the last one and its offset
    end. *)
Lemma chain_snoc (l : list nodeInfo) (x : nodeInfo) :
  chain l ->
  (forall l' a, l = l' ++ [a] -> end_ a + offset a = start x) ->
  well_sized x ->
  chain (l ++ [x]).
Proof.
  intros Hc Hlast Hx. induction l as [|a l IH].
  - split; [reflexivity|]. now constructor.
  - assert (Hc' := chain_tail Hc).
    assert (IH' : chain (l ++ [x])).
    { apply IH; [exact Hc'|].
      intros l' b E. apply (Hlast (a :: l') b). now rewrite E. }
    destruct IH' as [IH1 IH2]. split.
    + destruct l as [|b l].
      * cbn [app]. rewrite contiguous_cons. apply andb_true_iff.
        split; [|reflexivity]. apply Z.eqb_eq. now apply (Hlast [] a).
      * cbn [app] in *. rewrite contiguous_cons. apply andb_true_iff.
        split; [|exact IH1]. apply Z.eqb_eq. exact (chain_next Hc).
    + cbn [app]. constructor; [exact (chain_head Hc)|exact IH2].
Qed.

Lemma contiguous_tail_of (n : nodeInfo) (post : list nodeInfo) (x : nodeInfo) :
  contiguous (n :: post) = true ->
  end_ x + offset x = end_ n + offset n ->
  contiguous (x :: post) = true.
Proof.
  destruct post as [|m post]; [reflexivity|].
  rewrite !contiguous_cons. intros H E.
  apply andb_true_iff in H as [H1 H2]. apply Z.eqb_eq in H1.
  apply andb_true_iff. split; [apply Z.eqb_eq; lia|exact H2].
Qed.

(** X14.  A wrap that splices the list keeps it a chain, except when
    the match ends at the end of a fragment without beginning at its
    beginning and the fragment has a boundary offset. *)
Lemma wrapRangeInTextNodeInsert_chain (pre : list nodeInfo) (n : nodeInfo)
  (post : list nodeInfo) (s e : Z) (r : inserted) :
  chain (pre ++ n :: post) ->
  0 <= s < e -> e <= jslen (node n) ->
  s = 0 \/ e < jslen (node n) \/ offset n = 0 ->
  wrapRangeInTextNodeInsert (pre ++ n :: post) n s e (start n + s) (length pre)
    = Ok r ->
  chain (new_nodes r).
Proof.
  intros Hc Hs He Hcase Hr.
  rewrite (wrapRangeInTextNodeInsert_shape pre n post Hs He) in Hr.
  inversion Hr; subst r; clear Hr. cbn [new_nodes].
  assert (Hcn : contiguous (n :: post) = true)
    by (destruct (chain_app_tail _ _ Hc); assumption).
  destruct (chain_head (chain_app_tail _ _ Hc)) as (Hw1 & Hw2 & Hw3).
  assert (Hlen1 : jslen (firstn (Z.to_nat (e - s)) (skipn (Z.to_nat s) (node n)))
                  = e - s).
  { unfold jslen in *. rewrite length_firstn, length_skipn. lia. }
  assert (Hlen2 : jslen (skipn (Z.to_nat (e - s)) (skipn (Z.to_nat s) (node n)))
                  = jslen (node n) - e).
  { unfold jslen in *. rewrite !length_skipn. lia. }
  assert (Hlen3 : jslen (firstn (Z.to_nat s) (node n)) = s).
  { unfold jslen in *. rewrite length_firstn. lia. }
  destruct (Z.eqb_spec s 0) as [E0|E0];
    destruct (Z.eqb_spec e (jslen (node n))) as [E1|E1].
  - exact Hc.
  - apply (@chain_replace pre n post _ [_] Hc).
    + cbn. lia.
    + cbn [app]. rewrite contiguous_cons. apply andb_true_iff. split.
      * apply Z.eqb_eq. cbn. lia.
      * eapply contiguous_tail_of; [exact Hcn|reflexivity].
    + repeat constructor; cbn; lia.
  - assert (offset n = 0) by lia.
    apply (@chain_replace pre n post _ [_] Hc).
    + reflexivity.
    + cbn [app]. rewrite contiguous_cons. apply andb_true_iff. split.
      * apply Z.eqb_eq. cbn. lia.
      * eapply contiguous_tail_of; [exact Hcn|cbn; lia].
    + repeat constructor; cbn; lia.
  - apply (@chain_replace pre n post _ [_; _] Hc).
    + reflexivity.
    + cbn [app]. rewrite !contiguous_cons. apply andb_true_iff. split.
      * apply Z.eqb_eq. cbn. lia.
      * apply andb_true_iff. split.
        -- apply Z.eqb_eq. cbn. lia.
        -- eapply contiguous_tail_of; [exact Hcn|reflexivity].
    + repeat constructor; cbn; lia.
Qed.

(** The value and the fragment [collect_node] adds, for the offset
    [k]. *)
Ltac collector_shape k :=
  exists k; cbn [val collected]; cbv beta iota;
  match goal with
  | Hl : forall a b : jsstring, jslen (a ++ b) = jslen a + jslen b,
    Hstr' : jslen _ = 2 |- _ =>
      first [ change (k =? 0) with false | change (k =? 0) with true ];
      cbv iota; rewrite ?Hl, ?Hstr';
      change (jslen (js " ")) with 1;
      split; [lia|]; split; [lia|]; do 3 f_equal; lia
  end.

(** The fragment list as collected is a chain. *)
Lemma collect_node_chain (boundary : bool) (str : jsstring) (c : collector)
  (t : textNode) :
  length str = 2%nat ->
  chain (collected c) ->
  (forall l a, collected c = l ++ [a] -> end_ a + offset a = jslen (val c)) ->
  let c' := collect_node boundary str c t in
  chain (collected c') /\
  (forall l a, collected c' = l ++ [a] -> end_ a + offset a = jslen (val c')).
Proof.
  intros Hstr Hc Hlast.
  assert (Hshape : exists off,
             0 <= off /\
             jslen (val (collect_node boundary str c t))
             = jslen (val c) + jslen (text t) + off /\
             collected (collect_node boundary str c t)
             = collected c ++
               [{| start := jslen (val c);
                   end_ := jslen (val c) + jslen (text t);
                   offset := off;
                   startOffset := Some (running_startOffset c);
                   node := text t |}]).
  { unfold collect_node.
    set (endBySpace := match rev (text t) with
                       | last :: _ => is_space last
                       | [] => false
                       end).
    set (ty := if boundary || negb endBySpace then blockType t else 0).
    assert (Hl : forall a b : jsstring, jslen (a ++ b) = jslen a + jslen b)
      by (intros; unfold jslen; rewrite length_app; lia).
    assert (Hstr' : jslen str = 2) by (unfold jslen; rewrite Hstr; reflexivity).
    destruct (negb (ty =? 0)); cbn [fst snd].
    - destruct (negb endBySpace).
      + destruct (ty =? 1); [collector_shape 1|].
        destruct (ty =? 2); [collector_shape 3|collector_shape 0].
      + destruct (ty =? 2); [collector_shape 2|collector_shape 0].
    - collector_shape 0. }
  destruct Hshape as (off & Hoff & Hval & Hcol). cbv zeta.
  rewrite Hcol, Hval. split.
  - apply chain_snoc; [exact Hc| |].
    + intros l a E. cbn. now apply (Hlast l a).
    + unfold well_sized. cbn. unfold jslen. lia.
  - intros l a E. apply app_inj_tail in E as [_ <-]. cbn. lia.
Qed.

Lemma collect_chain (boundary : bool) (str : jsstring) (ts : list textNode) :
  length str = 2%nat ->
  forall c,
    chain (collected c) ->
    (forall l a, collected c = l ++ [a] -> end_ a + offset a = jslen (val c)) ->
    chain (collected (fold_left (collect_node boundary str) ts c)).
Proof.
  intros Hstr. induction ts as [|t ts IH]; intros c Hc Hlast; [exact Hc|].
  cbn [fold_left].
  destruct (@collect_node_chain boundary str c t Hstr Hc Hlast) as [H1 H2].
  now apply IH.
Qed.

(** X11.  [getTextNodesAcrossElements] builds a chain: the end of a
    fragment plus its boundary offset is the start of the next one, and
    the bounds of every fragment agree with the length of its text. *)
Lemma getTextNodesAcrossElements_chain
  (boundary : option RegExpCreator.boundary) (ts : list textNode) :
  chain (nodes (getTextNodesAcrossElements boundary ts)).
Proof.
  unfold getTextNodesAcrossElements. cbn [nodes].
  apply collect_chain.
  - destruct boundary as [[[|c b]]|]; reflexivity.
  - split; [reflexivity|constructor].
  - intros [|x l] a E; discriminate.
Qed.

(** *** The loop of [wrapRangeInMappedTextNode] *)

Section MappedFacts.
Variable S : Type.
Variable filterCb : S -> nodeInfo -> bool * S.
Variable eachCb : S -> jsstring -> bool -> S.

(** The filter accepts every fragment. *)
Hypothesis accepts : forall st n, fst (filterCb st n) = true.

Lemma length_middle (pre : list nodeInfo) (n : nodeInfo) (post : list nodeInfo) :
  (length pre <? length (pre ++ n :: post))%nat = true.
Proof. apply Nat.ltb_lt. rewrite length_app. simpl. lia. Qed.

Lemma loop_end (wrapAll : bool) (fuel : nat) (d : dict) (i : nat) (start_ end' : Z)
  (rs : bool) (st : S) :
  (length (nodes d) <= i)%nat ->
  mapped_loop filterCb eachCb wrapAll (Datatypes.S fuel) d i start_ end' rs st
  = Ok (d, st).
Proof.
  intros H. cbn [mapped_loop].
  apply Nat.ltb_ge in H. now rewrite H.
Qed.

Lemma loop_skip (wrapAll : bool) (fuel : nat) (d : dict) (pre : list nodeInfo)
  (n n2 : nodeInfo) (post : list nodeInfo) (start_ end' : Z) (rs : bool)
  (st : S) :
  nodes d = pre ++ n :: n2 :: post -> start n2 <= start_ ->
  mapped_loop filterCb eachCb wrapAll (Datatypes.S fuel) d (length pre)
    start_ end' rs st
  = mapped_loop filterCb eachCb wrapAll fuel d (length pre + 1)
      start_ end' rs st.
Proof.
  intros Hn Hs. cbn [mapped_loop]. rewrite Hn, length_middle.
  assert (E : (length pre + 1 =? length (pre ++ n :: n2 :: post))%nat = false).
  { apply Nat.eqb_neq. rewrite length_app. simpl. lia. }
  rewrite E, nth_error_after. cbn [nth_error lift bind].
  assert (E2 : (start n2 >? start_) = false).
  { destruct (Z.gtb_spec (start n2) start_); [lia|reflexivity]. }
  now rewrite E2.
Qed.

Lemma loop_here (wrapAll : bool) (fuel : nat) (d : dict) (pre : list nodeInfo)
  (n : nodeInfo) (post : list nodeInfo) (start_ end' : Z) (rs : bool)
  (st : S) :
  nodes d = pre ++ n :: post -> is_here post start_ ->
  mapped_loop filterCb eachCb wrapAll (Datatypes.S fuel) d (length pre)
    start_ end' rs st
  = let st1 := snd (filterCb st n) in
    let s := start_ - start n in
    let e := (if end' >? end_ n then end_ n else end') - start n in
    do (d, n, rangeStart, st) <-
      (if (s >=? 0) && (e >? s) then
         if wrapAll then
           do ret <- wrapRangeInTextNodeInsert (nodes d) n s e start_ (length pre) ;;
           Ok (set_nodes d (new_nodes ret), retNode ret, false,
               eachCb st1 (markNode ret) rs)
         else
           do (rest, marked) <- wrapRangeInTextNode (node n) s e ;;
           let n' := {| start := start n + e; end_ := end_ n;
                        offset := offset n;
                        startOffset := startOffset n;
                        node := rest |} in
           Ok (set_lastTextIndex
                 (set_nodes d (update (nodes d) (length pre) n')) (start n'),
               n', false, eachCb st1 marked rs)
       else Ok (d, n, rs, st1)) ;;
    if end' >? end_ n then
      mapped_loop filterCb eachCb wrapAll fuel d (length pre + 1)
        (end_ n + offset n) end' rangeStart st
    else Ok (set_lastIndex d (length pre), st).
Proof.
  intros Hn Hh. cbn [mapped_loop]. cbv zeta. rewrite Hn.
  rewrite length_middle, nth_error_middle.
  assert (Hhere :
    (if (length pre + 1 =? length (pre ++ n :: post))%nat then Ok true
     else do n1 <- lift (nth_error (pre ++ n :: post) (length pre + 1)) ;;
          Ok (start n1 >? start_)) = Ok true).
  { destruct post as [|n2 post].
    - assert (E : (length pre + 1 =? length (pre ++ [n]))%nat = true)
        by (apply Nat.eqb_eq; rewrite length_app; simpl; lia).
      now rewrite E.
    - assert (E : (length pre + 1 =? length (pre ++ n :: n2 :: post))%nat = false)
        by (apply Nat.eqb_neq; rewrite length_app; simpl; lia).
      rewrite E, nth_error_after. cbn [nth_error lift bind].
      simpl in Hh.
      destruct (Z.gtb_spec (start n2) start_); [reflexivity|lia]. }
  rewrite Hhere. cbn [bind lift].
  specialize (accepts st n).
  destruct (filterCb st n) as [accept st1]. simpl in accepts. subst accept.
  reflexivity.
Qed.

Lemma run_cons (a : action) (acts : list action) (st : S) :
  run filterCb eachCb (a :: acts) st
  = run filterCb eachCb acts (act filterCb eachCb st a).
Proof. reflexivity. Qed.

(** From a fragment [n] that starts at or before [start_], in a chain:
    with enough fuel the loop ends, the filter is asked about some
    fragments, and [eachCb] is called once for every covered fragment,
    in order, with [rangeStart] for the first call only. *)
Lemma loop_markers (wrapAll : bool) (l : list nodeInfo) :
  forall (pre : list nodeInfo) (d : dict) (start_ end' : Z) (rs : bool)
         (st : S) (fuel : nat),
    nodes d = pre ++ l -> chain l ->
    (forall n, hd_error l = Some n -> start n <= start_) ->
    (2 * length l < fuel)%nat ->
    exists d' acts,
      mapped_loop filterCb eachCb wrapAll fuel d (length pre) start_ end' rs st
        = Ok (d', run filterCb eachCb acts st) /\
      eaches acts = flagged rs (markers l start_ end').
Proof.
  induction l as [|n post IH]; intros pre d start_ end' rs st fuel Hn Hc Hh Hf.
  - destruct fuel as [|fuel]; [simpl in Hf; lia|].
    exists d, []. split; [|reflexivity].
    apply loop_end. rewrite Hn, app_nil_r. lia.
  - destruct fuel as [|fuel]; [simpl in Hf; lia|].
    specialize (Hh n eq_refl).
    destruct (chain_head Hc) as (Hw1 & Hw2 & Hw3).
    assert (Hct := chain_tail Hc).
    assert (Hcase : (exists n2 post', post = n2 :: post' /\ start n2 <= start_)
                    \/ is_here post start_).
    { destruct post as [|n2 post']; [right; exact I|].
      destruct (Z.le_gt_cases (start n2) start_);
        [left; eauto|right; simpl; lia]. }
    destruct Hcase as [(n2 & post' & -> & Hle)|Hhere].
    + (* the next fragment starts at or before [start_] *)
      rewrite (@loop_skip wrapAll fuel d pre n n2 post' start_ end' rs st Hn Hle).
      destruct (IH (pre ++ [n]) d start_ end' rs st fuel) as (d' & acts & Hrun & He).
      * rewrite Hn, <- app_assoc. reflexivity.
      * exact Hct.
      * intros m Hm. inversion Hm; subst. exact Hle.
      * simpl in *. lia.
      * exists d', acts. rewrite length_app in Hrun. split; [exact Hrun|].
        rewrite He, (markers_cons n), covers_before; [reflexivity|].
        assert (Hx := chain_next Hc). lia.
    + (* this is the fragment *)
      assert (Hgap : forall m, In m post ->
                start_ <= start m /\ end_ n + offset n <= start m).
      { intros m Hm. assert (Hx := chain_starts Hc m Hm). split; [|exact Hx].
        destruct post as [|n2 post']; [destruct Hm|].
        simpl in Hhere. assert (Hy := chain_next Hc). lia. }
      (* the fragments after it *)
      assert (Hcont : forall d1 pre1 rs1 st1 fuel1,
                nodes d1 = pre1 ++ post ->
                (2 * length post < fuel1)%nat ->
                exists d' acts,
                  mapped_loop filterCb eachCb wrapAll fuel1 d1 (length pre1)
                    (end_ n + offset n) end' rs1 st1
                  = Ok (d', run filterCb eachCb acts st1) /\
                  eaches acts = flagged rs1 (markers post start_ end')).
      { intros d1 pre1 rs1 st1 fuel1 Hn1 Hf1.
        destruct (IH pre1 d1 (end_ n + offset n) end' rs1 st1 fuel1 Hn1 Hct)
          as (d' & acts & Hrun & He); [|exact Hf1|].
        - intros m Hm. destruct post as [|n2 post']; [discriminate|].
          inversion Hm; subst. assert (Hy := chain_next Hc). lia.
        - exists d', acts. split; [exact Hrun|]. rewrite He. f_equal.
          apply markers_start. intros m Hm.
          destruct (Hgap m Hm). split; lia. }
      assert (Hstop : end' <= end_ n -> markers post start_ end' = []).
      { intros Hle. apply markers_none_after. intros m Hm.
        destruct (Hgap m Hm). lia. }
      rewrite (@loop_here wrapAll fuel d pre n post start_ end' rs st Hn Hhere). cbv zeta.
      set (loop := mapped_loop filterCb eachCb wrapAll).
      set (st1 := snd (filterCb st n)).
      assert (Hmin : (if end' >? end_ n then end_ n else end')
                     = Z.min end' (end_ n))
        by (destruct (Z.gtb_spec end' (end_ n)); lia).
      rewrite Hmin.
      set (s := start_ - start n). set (e := Z.min end' (end_ n) - start n).
      assert (Hs0 : (s >=? 0) = true) by (apply Z.geb_le; unfold s; lia).
      rewrite Hs0. cbn [andb].
      assert (Htext : marked_text start_ end' n
                      = firstn (Z.to_nat (e - s)) (skipn (Z.to_nat s) (node n))).
      { unfold marked_text. rewrite Z.max_l by lia. reflexivity. }
      rewrite markers_cons.
      destruct (Z.gtb_spec e s) as [Hes|Hes].
      * (* some text of the fragment is covered *)
        assert (Hcov : covers start_ end' n = true)
          by (unfold covers; apply Z.ltb_lt; unfold e, s in Hes; lia).
        rewrite Hcov, Htext. cbn [app].
        set (marked := firstn (Z.to_nat (e - s)) (skipn (Z.to_nat s) (node n))).
        assert (Hb1 : 0 <= s < e) by (unfold s in *; lia).
        assert (Hb2 : e <= jslen (node n)) by (unfold e; lia).
        destruct wrapAll eqn:Hwrap.
        -- (* the list is spliced *)
           assert (Hins := wrapRangeInTextNodeInsert_shape pre n post Hb1 Hb2).
           cbv zeta in Hins.
           replace (start n + s) with start_ in Hins by (unfold s; lia).
           fold marked in Hins. rewrite Hn, Hins. clear Hins.
           cbn [bind new_nodes retNode markNode].
           destruct (Z.eqb_spec e (jslen (node n))) as [Hend|Hend].
           ++ (* to the end of the fragment *)
              assert (Hee : end_ n <= end') by (unfold e in Hend; lia).
              destruct (Z.eqb_spec s 0) as [Hz|Hz]; cbn [andb].
              ** (* the whole fragment *)
                 destruct (Z.gtb_spec end' (end_ n)) as [Hgt|Hgt].
                 --- destruct (Hcont (set_nodes d (pre ++ n :: post))
                                (pre ++ [n]) false
                                (eachCb st1 marked rs) fuel)
                       as (d' & acts & Hrun & He).
                     +++ cbn. now rewrite <- app_assoc.
                     +++ simpl in Hf. lia.
                     +++ rewrite length_app in Hrun. cbn [length] in Hrun.
                         exists d', (AFilter n :: AEach marked rs :: acts).
                         split; [exact Hrun|].
                         cbn [eaches flat_map app]. fold (eaches acts).
                         rewrite He. now rewrite flagged_cons.
                 --- exists (set_lastIndex (set_nodes d (pre ++ n :: post))
                               (length pre)),
                            [AFilter n; AEach marked rs].
                     split; [reflexivity|].
                     rewrite Hstop by lia. reflexivity.
              ** (* the end of the fragment *)
                 cbn [end_ offset].
                 destruct (Z.gtb_spec end' (end_ n)) as [Hgt|Hgt].
                 --- set (n' := {| start := start n; end_ := start_;
                                   offset := 0; startOffset := startOffset n;
                                   node := firstn (Z.to_nat s) (node n) |}).
                     set (mNode := {| start := start_; end_ := start n + e;
                                      offset := 0; startOffset := None;
                                      node := marked |}).
                     set (d1 := set_nodes d (pre ++ n' :: mNode :: post)).
                     set (st2 := eachCb st1 marked rs).
                     destruct fuel as [|fuel]; [simpl in Hf; lia|].
                     unfold loop.
                     destruct post as [|n2 post'].
                     +++ (* the marked fragment is the last one *)
                         replace (length pre + 1)%nat with (length (pre ++ [n']))
                           by (rewrite length_app; reflexivity).
                         rewrite (@loop_here true fuel d1 (pre ++ [n']) mNode []
                                    (end_ n + offset n) end' false st2);
                           [|cbn; now rewrite <- app_assoc|exact I].
                         cbv zeta. cbn [start end_ offset mNode].
                         assert (Hm1 : (end' >? start n + e) = true)
                           by (apply Z.gtb_lt; unfold e in *; lia).
                         rewrite Hm1.
                         assert (Hm2 : ((end_ n + offset n - start_ >=? 0)
                                        && (start n + e - start_
                                            >? end_ n + offset n - start_))
                                       = false).
                         { apply andb_false_iff. right.
                           destruct (Z.gtb_spec (start n + e - start_)
                                       (end_ n + offset n - start_));
                             [unfold e in *; lia|reflexivity]. }
                         rewrite Hm2. cbn [bind].
                         change (end_ mNode) with (start n + e).
                         rewrite Hm1.
                         destruct fuel as [|fuel]; [simpl in Hf; lia|].
                         rewrite loop_end
                           by (cbn; rewrite !length_app; cbn; lia).
                         exists d1, [AFilter n; AEach marked rs; AFilter mNode].
                         split; [reflexivity|]. reflexivity.
                     +++ (* the next fragment follows the marked one *)
                         replace (length pre + 1)%nat with (length (pre ++ [n']))
                           by (rewrite length_app; reflexivity).
                         rewrite (@loop_skip true fuel d1 (pre ++ [n']) mNode n2 post'
                                    (end_ n + offset n) end' false st2);
                           [|cbn; now rewrite <- app_assoc
                            |assert (Hy := chain_next Hc); lia].
                         destruct (Hcont d1 (pre ++ [n'; mNode]) false st2 fuel)
                           as (d' & acts & Hrun & He).
                         *** cbn. now rewrite <- app_assoc.
                         *** simpl in Hf. simpl. lia.
                         *** rewrite !length_app in *. cbn [length] in *.
                             replace (length pre + 1 + 1)%nat
                               with (length pre + 2)%nat by lia.
                             exists d', (AFilter n :: AEach marked rs :: acts).
                             split; [exact Hrun|].
                             cbn [eaches flat_map app]. fold (eaches acts).
                             rewrite He. now rewrite flagged_cons.
                 --- eexists _, [AFilter n; AEach marked rs].
                     split; [reflexivity|].
                     rewrite Hstop by lia. reflexivity.
           ++ (* text of the fragment is left after the match *)
              assert (Hee : end' < end_ n) by (unfold e in *; lia).
              rewrite andb_false_r. cbn [end_].
              assert (Hm1 : (end' >? end_ n) = false)
                by (destruct (Z.gtb_spec end' (end_ n)); [lia|reflexivity]).
              rewrite Hm1.
              eexists _, [AFilter n; AEach marked rs].
              split; [reflexivity|].
              rewrite Hstop by lia. reflexivity.
        -- (* the fragment is cut in place *)
           rewrite wrapRangeInTextNode_ok by lia.
           cbn [bind start end_ offset]. fold marked.
           rewrite Hn, update_middle.
           destruct (Z.gtb_spec end' (end_ n)) as [Hgt|Hgt].
           ++ match goal with
              | |- context [loop fuel ?d1 _ _ _ _ ?st2] =>
                  destruct (Hcont d1
                              (pre ++ [{| start := start n + e; end_ := end_ n;
                                          offset := offset n;
                                          startOffset := startOffset n;
                                          node := skipn (Z.to_nat (e - s))
                                                    (skipn (Z.to_nat s) (node n)) |}])
                              false st2 fuel)
                    as (d' & acts & Hrun & He)
              end.
              ** cbn. now rewrite <- app_assoc.
              ** simpl in Hf. lia.
              ** rewrite length_app in Hrun. cbn [length] in Hrun.
                 exists d', (AFilter n :: AEach marked rs :: acts).
                 split; [exact Hrun|].
                 cbn [eaches flat_map app]. fold (eaches acts).
                 rewrite He. now rewrite flagged_cons.
           ++ eexists _, [AFilter n; AEach marked rs].
              split; [reflexivity|].
              rewrite Hstop by lia. reflexivity.
      * (* no text of the fragment is covered *)
        assert (Hcov : covers start_ end' n = false)
          by (unfold covers; apply Z.ltb_ge; unfold e, s in Hes; lia).
        rewrite Hcov. cbn [app bind].
        destruct (Z.gtb_spec end' (end_ n)) as [Hgt|Hgt].
        -- destruct (Hcont d (pre ++ [n]) rs st1 fuel)
             as (d' & acts & Hrun & He).
           ++ rewrite Hn, <- app_assoc. reflexivity.
           ++ simpl in Hf. lia.
           ++ rewrite length_app in Hrun. cbn [length] in Hrun.
              exists d', (AFilter n :: acts).
              split; [exact Hrun|]. exact He.
        -- eexists _, [AFilter n].
           split; [reflexivity|].
           rewrite Hstop by lia. reflexivity.
Qed.

Lemma rewind_ok (l : list nodeInfo) (start_ : Z) (k : nat) :
  (1 <= k <= length l)%nat ->
  (forall n, hd_error l = Some n -> start n <= start_) ->
  exists i n, rewind l start_ k = Ok i /\ nth_error l i = Some n /\
              start n <= start_.
Proof.
  intros Hk Hhd. induction k as [|k IH]; [lia|].
  cbn [rewind].
  destruct (nth_error l k) as [n|] eqn:En.
  - destruct (Z.gtb_spec (start n) start_) as [Hgt|Hle].
    + destruct k as [|k].
      * destruct l as [|n0 l]; [discriminate|].
        cbn in En. inversion En; subst.
        specialize (Hhd n eq_refl). lia.
      * apply IH. lia.
    + exists k, n. repeat split; assumption.
  - apply nth_error_None in En. lia.
Qed.

Lemma chain_before (pre : list nodeInfo) (n : nodeInfo) (post : list nodeInfo) :
  chain (pre ++ n :: post) -> forall m, In m pre -> end_ m <= start n.
Proof.
  induction pre as [|p pre IH]; intros Hc m Hm; [destruct Hm|].
  destruct Hm as [<-|Hm].
  - assert (Hx := chain_starts Hc n).
    destruct (chain_head Hc) as (_ & H2 & _).
    assert (In n (pre ++ n :: post)) by (apply in_or_app; right; now left).
    specialize (Hx H). lia.
  - apply IH; [exact (chain_tail Hc)|exact Hm].
Qed.

Lemma markers_app (l1 l2 : list nodeInfo) (start_ end' : Z) :
  markers (l1 ++ l2) start_ end'
  = markers l1 start_ end' ++ markers l2 start_ end'.
Proof. unfold markers. now rewrite filter_app, map_app. Qed.

(** [wrapRangeInMappedTextNode] on a chain of fragments, with a filter
    that accepts: [eachCb] is called once for every fragment the range
    covers, with [rangeStart] for the first only. *)
Lemma mapped_markers (wrapAll : bool) (d : dict) (start_ end' : Z) (st : S)
  (fuel : nat) :
  chain (live wrapAll d) ->
  (lastIndex d < length (nodes d))%nat ->
  (forall n, hd_error (live wrapAll d) = Some n -> start n <= start_) ->
  (wrapAll = false -> lastTextIndex d <= start_) ->
  (2 * length (nodes d) < fuel)%nat ->
  exists d' acts,
    wrapRangeInMappedTextNode filterCb eachCb wrapAll fuel d start_ end' st
      = Ok (d', run filterCb eachCb acts st) /\
    eaches acts = flagged true (markers (live wrapAll d) start_ end').
Proof.
  intros Hc Hlast Hhd Htext Hfuel. unfold wrapRangeInMappedTextNode.
  destruct wrapAll; cbn [live] in *.
  - destruct (@rewind_ok (nodes d) start_ (lastIndex d + 1))
      as (i & n & Hr & Hi & Hs); [lia|exact Hhd|].
    rewrite Hr. cbn [bind].
    destruct (nth_error_split _ _ Hi) as (pre & post & Hn & Hlen).
    rewrite Hn in Hc.
    destruct (@loop_markers true (n :: post) pre d start_ end' true st fuel)
      as (d' & acts & Hrun & He).
    + exact Hn.
    + exact (chain_app_tail _ _ Hc).
    + intros m Hm. inversion Hm; subst. exact Hs.
    + rewrite Hn, length_app in Hfuel. lia.
    + exists d', acts. rewrite Hlen in Hrun. split; [exact Hrun|].
      rewrite He, Hn, markers_app.
      rewrite (@markers_none_before pre); [reflexivity|].
      intros m Hm. assert (Hx := chain_before _ _ _ Hc m Hm). lia.
  - assert (Ht : (start_ <? lastTextIndex d) = false)
      by (apply Z.ltb_ge; auto).
    rewrite Ht.
    destruct (@loop_markers false (skipn (lastIndex d) (nodes d))
                (firstn (lastIndex d) (nodes d)) d start_ end' true st fuel)
      as (d' & acts & Hrun & He).
    + now rewrite firstn_skipn.
    + exact Hc.
    + exact Hhd.
    + rewrite length_skipn. lia.
    + rewrite length_firstn, Nat.min_l in Hrun by lia.
      exists d', acts. split; assumption.
Qed.
End MappedFacts.

End FragmentsFacts.

(** ** Matching across fragments *)

Module AcrossFacts.
Import Host HostFacts Fragments Engine FragmentsFacts.

(** C2.  [mark(["xwor", "r ld"], {acrossElements: true,
    cacheTextNodes: true, separateWordSearch: false})] on
    [<p>a xwor</p><p>ld x</p>].  The first term is wrapped at the end
    of the first fragment.  The match of the second term, from 5 to 9
    in [a xwor ld x ], covers two fragments of the cached list, [xwor]
    and [ld x], but only one marker is made, for [r]; [ld] is not
    wrapped.  On the list as collected the same match gives the two
    markers [r] and [ld], the first with [matchStart], and one
    count. *)
Theorem cached_match_loses_fragment :
  let d0 := getTextNodesAcrossElements None
              [ {| text := js "a xwor"; blockType := 1 |};
                {| text := js "ld x"; blockType := 1 |} ] in
  let m1 := {| m_index := 2;
               m_groups := [Some (js "xwor"); Some []; Some (js "xwor")] |} in
  let m2 := {| m_index := 5;
               m_groups := [Some (js "r ld"); Some []; Some (js "r ld")] |} in
  exists d1 c1 d2 c2 d2' c2',
    wrapMatchesAcrossElements accept_all true 10 1 [m1] d0 = Ok (d1, c1) /\
    length (filter (covers 5 9) (nodes (reuse_cache d1))) = 2%nat /\
    wrapMatchesAcrossElements accept_all true 10 1 [m2] (reuse_cache d1)
      = Ok (d2, c2) /\
    each_calls (log c2) = [CallEach (js "r") true 1] /\
    count c2 = 1 /\
    wrapMatchesAcrossElements accept_all true 10 1 [m2] d0 = Ok (d2', c2') /\
    each_calls (log c2')
      = [CallEach (js "r") true 1; CallEach (js "ld") false 1] /\
    count c2' = 1.
Proof.
  do 6 eexists. repeat split; vm_compute; reflexivity.
Qed.

Section OneMatch.
Variable filter : list call -> jsmatch -> jsstring -> jsstring -> bool ->
                  option Z -> bool * bool.
Hypothesis filter_accepts :
  forall lg m t nd ms off, fst (filter lg m t nd ms off) = true.

Variables (m : jsmatch) (text : jsstring).

Let filterCb := across_filterCb filter m text.

Lemma across_accepts (c : closure) (n : nodeInfo) :
  fst (filterCb c n) = true.
Proof.
  unfold filterCb, across_filterCb.
  specialize (filter_accepts (log c) m text (node n) (matchStart c)
                (startOffset n)).
  destruct (filter (log c) m text (node n) (matchStart c) (startOffset n)).
  exact filter_accepts.
Qed.

Lemma each_calls_app (l1 l2 : list call) :
  each_calls (l1 ++ l2) = each_calls l1 ++ each_calls l2.
Proof. apply filter_app. Qed.

Lemma flagged_false (ts : list jsstring) :
  flagged false ts = map (fun t => (t, false)) ts.
Proof. now destruct ts. Qed.

(** The log and the count after the calls of one match. *)
Lemma run_across (acts : list action) :
  forall (c : closure) (rs : bool) (texts : list jsstring),
    eaches acts = flagged rs texts ->
    let count' := if rs then count c + 1 else count c in
    each_calls (log (run filterCb across_eachCb acts c))
    = each_calls (log c)
      ++ match texts with
         | [] => []
         | t :: ts => CallEach t rs count'
                      :: map (fun t => CallEach t false count') ts
         end /\
    count (run filterCb across_eachCb acts c)
    = match texts with [] => count c | _ => count' end.
Proof.
  induction acts as [|a acts IH]; intros c rs texts He.
  - destruct texts; [|discriminate]. cbn. now rewrite app_nil_r.
  - rewrite run_cons. destruct a as [n|element f].
    + cbn [eaches flat_map app] in He. fold (eaches acts) in He.
      destruct (IH (act filterCb across_eachCb c (AFilter n)) rs texts He)
        as [H1 H2].
      cbv zeta in *. rewrite H1, H2.
      cbn [act]. unfold filterCb, across_filterCb.
      destruct (filter (log c) m text (node n) (matchStart c) (startOffset n)).
      cbn [snd log count]. rewrite each_calls_app. cbn.
      rewrite app_nil_r. split; reflexivity.
    + cbn [eaches flat_map app] in He. fold (eaches acts) in He.
      destruct texts as [|t ts]; [discriminate|].
      rewrite flagged_cons in He. inversion He; subst.
      destruct (IH (act filterCb across_eachCb c (AEach t rs)) false ts H2)
        as [H3 H4].
      cbv zeta in *. rewrite H3, H4.
      cbn [act across_eachCb log count]. rewrite each_calls_app.
      change (each_calls [CallEach t rs (if rs then count c + 1 else count c)])
        with [CallEach t rs (if rs then count c + 1 else count c)].
      rewrite <- app_assoc. cbn [app].
      split.
      * do 2 f_equal. now destruct ts.
      * now destruct ts.
Qed.

(** X15.  The markers of one match on a chain of fragments, when the
    filter accepts: one call of [each] for every fragment the match
    covers, [matchStart] in the first call only, and one more match
    counted. *)
Lemma wrapMatch_markers (wrapAll : bool) (index : nat) (d : dict)
  (c : closure) (start_ : Z) (fuel : nat) :
  skip_groups m 1 (index - 1) (m_index m) = Ok start_ ->
  group m index = Ok text ->
  chain (live wrapAll d) ->
  (lastIndex d < length (nodes d))%nat ->
  (forall n, hd_error (live wrapAll d) = Some n -> start n <= start_) ->
  (wrapAll = false -> lastTextIndex d <= start_) ->
  (2 * length (nodes d) < fuel)%nat ->
  let texts := markers (live wrapAll d) start_ (start_ + jslen text) in
  exists d' c',
    wrapMatch filter wrapAll fuel index m d c = Ok (d', c') /\
    each_calls (log c') = each_calls (log c) ++ marker_calls (count c) texts /\
    count c' = match texts with [] => count c | _ => count c + 1 end.
Proof.
  intros Hs Hg Hc Hl Hh Ht Hf texts. unfold wrapMatch.
  rewrite Hs, Hg. cbn [bind].
  destruct (@mapped_markers closure filterCb across_eachCb across_accepts
              wrapAll d start_ (start_ + jslen text)
              {| count := count c; matchStart := true; abort := abort c;
                 log := log c |} fuel Hc Hl Hh Ht Hf)
    as (d' & acts & Hrun & He).
  exists d', (run filterCb across_eachCb acts
                {| count := count c; matchStart := true; abort := abort c;
                   log := log c |}).
  split; [exact Hrun|].
  destruct (run_across acts
              {| count := count c; matchStart := true; abort := abort c;
                 log := log c |} true _ He) as [H1 H2].
  cbv zeta in *. cbn [count log] in *. fold texts in H1, H2.
  split; [|exact H2]. rewrite H1. reflexivity.
Qed.
End OneMatch.

(** The text [wor] and [ld] in two adjacent fragments and the match
    [world]: two markers, [matchStart] on the first only, one match
    counted. *)
Example world_in_two_fragments :
  let d := getTextNodesAcrossElements None
             [ {| text := js "wor"; blockType := 0 |};
               {| text := js "ld"; blockType := 0 |} ] in
  let m := {| m_index := 0;
              m_groups := [Some (js "world"); Some []; Some (js "world")] |} in
  exists d' c',
    wrapMatchesAcrossElements accept_all false 5 1 [m] d = Ok (d', c') /\
    each_calls (log c')
      = [CallEach (js "wor") true 1; CallEach (js "ld") false 1] /\
    count c' = 1.
Proof. do 2 eexists. repeat split; vm_compute; reflexivity. Qed.

End AcrossFacts.

(** ** The stages of the pattern synthesiser *)

Module PatternFacts.
Import Host HostFacts RegExpCreator RegExpCreatorFacts PatternPieces.

Lemma setupWildcards_backslash_run_witness :
  setupWildcardsRegExp
    (js "a" ++ repeat c_backslash 2 ++ [c_question] ++ js "b")
  = setupWildcardsRegExp (js "a") ++ [c_question]
    ++ setupWildcardsRegExp (js "b").
Proof.
  exact (proj1 (@setupWildcards_backslash_run 1 (js "a") (js "b") eq_refl)).
Defined.

(** *** [escapeStr] *)

Lemma escapeStr_from (s before : jsstring) :
  replace_from (match_class is_syntax_char)
    (fun _ : unit => expand (js "\$&")) before s 0
  = flat_map escaped s.
Proof.
  revert before. induction s as [|c s IH]; intros before; [reflexivity|].
  cbn [replace_from match_class flat_map]. unfold escaped at 1.
  destruct (is_syntax_char c).
  - cbn [firstn skipn]. rewrite IH. reflexivity.
  - rewrite IH. reflexivity.
Qed.

Lemma escapeStr_chars (s : jsstring) : escapeStr s = flat_map escaped s.
Proof. apply escapeStr_from. Qed.

Lemma escapeStr_char (c : jschar) : escapeStr [c] = escaped c.
Proof. rewrite escapeStr_chars. cbn [flat_map]. apply app_nil_r. Qed.

(** X3.  [escapeStr] works character by character: the escaped text
    of a string is the escaped text of its characters, in order.  Each
    of the sixteen characters [- [ ] / { } ( ) * + ? . \ ^ $ |] gets
    one backslash before it; any other character is left as it is. *)
Theorem escapeStr_characters (a b : jsstring) (c : jschar) :
  let escaped_set := js "-[]/{}()*+?.\^$|" in
  escapeStr (a ++ b) = escapeStr a ++ escapeStr b /\
  escapeStr [c] = (if mem c escaped_set then [c_backslash; c] else [c]) /\
  NoDup escaped_set /\ length escaped_set = 16%nat.
Proof.
  cbv zeta. split; [|split; [|split]].
  - rewrite !escapeStr_chars. apply flat_map_app.
  - apply escapeStr_char.
  - repeat (constructor; [cbv; intuition discriminate|]). constructor.
  - reflexivity.
Qed.

(** The pattern that [createSynonymsRegExp] searches with stands for
    the keys themselves. *)
Lemma literal_alternatives_escaped (s cur : jsstring) :
  literal_alternatives_from (escapeStr s) cur = [cur ++ s].
Proof.
  rewrite escapeStr_chars. revert cur.
  induction s as [|c s IH]; intros cur.
  - cbn. now rewrite app_nil_r.
  - cbn [flat_map]. unfold escaped at 1.
    destruct (is_syntax_char c) eqn:E.
    + cbn [app literal_alternatives_from].
      change (N.eqb c_backslash c_backslash) with true. cbv iota.
      rewrite IH. now rewrite <- app_assoc.
    + cbn [app literal_alternatives_from].
      assert (Hb : N.eqb c c_backslash = false).
      { destruct (N.eqb_spec c c_backslash) as [->|];
          [discriminate E|reflexivity]. }
      assert (Hp : N.eqb c c_pipe = false).
      { destruct (N.eqb_spec c c_pipe) as [->|];
          [discriminate E|reflexivity]. }
      rewrite Hb, Hp, IH. now rewrite <- app_assoc.
Qed.

(** *** [createMergedBlanksRegExp] *)

Lemma merged_is_pass (s before : jsstring) :
  replace_from (match_run is_space) (fun _ : unit => expand (js "[\s]+"))
    before s 0
  = merge_pass s false /\
  replace_from (match_run is_space) (fun _ : unit => expand (js "[\s]+"))
    before s (run_length is_space s)
  = merge_pass s true.
Proof.
  unfold match_run.
  revert before. induction s as [|c s IH]; intros before;
    [split; reflexivity|].
  cbn [replace_from run_length merge_pass].
  destruct (is_space c) eqn:E.
  - destruct (IH (before ++ [c])) as [_ H2]. rewrite H2. split; reflexivity.
  - destruct (IH (before ++ [c])) as [H1 _]. rewrite H1. split; reflexivity.
Qed.

Lemma createMergedBlanks_pass (s : jsstring) :
  createMergedBlanksRegExp s = merge_pass s false.
Proof. apply merged_is_pass. Qed.

Lemma merge_pass_no_blank (s : jsstring) (inrun : bool) :
  forallb (fun c => negb (is_space c)) (merge_pass s inrun) = true.
Proof.
  revert inrun. induction s as [|c s IH]; intros inrun; [reflexivity|].
  cbn [merge_pass]. destruct (is_space c) eqn:E.
  - destruct inrun; [apply IH|]. rewrite forallb_app, IH. reflexivity.
  - cbn [forallb]. now rewrite E, IH.
Qed.

Lemma merge_pass_solid (s : jsstring) :
  forallb (fun c => negb (is_space c)) s = true -> merge_pass s false = s.
Proof.
  induction s as [|c s IH]; intros H; [reflexivity|].
  cbn [forallb] in H. apply andb_true_iff in H as [H1 H2].
  apply negb_true_iff in H1. cbn [merge_pass]. rewrite H1. now rewrite IH.
Qed.

(** X4.  The pattern that [createMergedBlanksRegExp] returns holds no
    white space character, and merging once more changes nothing. *)
Theorem createMergedBlanksRegExp_no_blank (str : jsstring) :
  forallb (fun c => negb (is_space c)) (createMergedBlanksRegExp str) = true /\
  createMergedBlanksRegExp (createMergedBlanksRegExp str)
  = createMergedBlanksRegExp str.
Proof.
  rewrite !createMergedBlanks_pass.
  split; [apply merge_pass_no_blank|].
  apply merge_pass_solid, merge_pass_no_blank.
Qed.

Lemma merge_pass_run (ws b : jsstring) :
  forallb is_space ws = true ->
  merge_pass (ws ++ b) true = merge_pass b true.
Proof.
  induction ws as [|c ws IH]; intros H; [reflexivity|].
  cbn [forallb] in H. apply andb_true_iff in H as [H1 H2].
  cbn [app merge_pass]. rewrite H1. now apply IH.
Qed.

(** X5.  The pattern does not depend on how much white space, or
    which, stands at a place of the term: two terms that differ only in
    a run of white space get the same pattern. *)
Theorem createMergedBlanksRegExp_any_blank (a ws1 ws2 b : jsstring) :
  ws1 <> [] -> forallb is_space ws1 = true ->
  ws2 <> [] -> forallb is_space ws2 = true ->
  createMergedBlanksRegExp (a ++ ws1 ++ b)
  = createMergedBlanksRegExp (a ++ ws2 ++ b).
Proof.
  intros N1 H1 N2 H2. rewrite !createMergedBlanks_pass.
  generalize false as inrun.
  induction a as [|c a IH]; intros inrun.
  - cbn [app]. destruct ws1 as [|x ws1]; [congruence|].
    destruct ws2 as [|y ws2]; [congruence|].
    cbn [forallb] in H1, H2.
    apply andb_true_iff in H1 as [X1 X2].
    apply andb_true_iff in H2 as [Y1 Y2].
    cbn [app merge_pass]. rewrite X1, Y1.
    rewrite !merge_pass_run by assumption. reflexivity.
  - cbn [app merge_pass].
    destruct (is_space c); [destruct inrun|]; now rewrite IH.
Qed.

Lemma createMergedBlanksRegExp_any_blank_witness :
  createMergedBlanksRegExp (js "lorem" ++ js " " ++ js "ipsum")
  = createMergedBlanksRegExp (js "lorem" ++ [9%N; 32%N; 10%N] ++ js "ipsum").
Proof.
  apply (@createMergedBlanksRegExp_any_blank
           (js "lorem") (js " ") [9%N; 32%N; 10%N] (js "ipsum"));
    solve [discriminate | reflexivity].
Defined.

(** *** [createDiacriticsRegExp] *)

Lemma rows_in_order : forallb row_in_order diacritics_table = true.
Proof. vm_compute. reflexivity. Qed.

Lemma mem_In (c : jschar) (l : jsstring) : mem c l = true <-> In c l.
Proof.
  unfold mem. rewrite existsb_exists. split.
  - intros (x & Hx & E). apply N.eqb_eq in E. now subst.
  - intros H. exists c. split; [exact H|apply N.eqb_refl].
Qed.

(** X6.  A character of the table is replaced by the class of its own
    row: by both halves of the row when the search is not case
    sensitive, otherwise by the half the character stands in. *)
Theorem createDiacriticsRegExp_row (o : options) (lower upper : jsstring)
  (c : jschar) :
  In (lower, upper) diacritics_table ->
  In c (lower ++ upper) ->
  createDiacriticsRegExp o [c]
  = js "[" ++ (if caseSensitive o
               then if mem c lower then lower else upper
               else lower ++ upper) ++ js "]".
Proof.
  intros Hrow Hc. unfold createDiacriticsRegExp.
  cbn [map concat]. rewrite app_nil_r.
  assert (Hok := proj1 (forallb_forall row_in_order diacritics_table)
                   rows_in_order _ Hrow).
  unfold row_in_order in Hok.
  apply andb_true_iff in Hok as [Hok H3].
  apply andb_true_iff in Hok as [H1 H2].
  rewrite forallb_forall in H1, H2, H3.
  destruct (caseSensitive o).
  - destruct (mem c lower) eqn:E.
    + apply jsstring_eqb_eq. apply H2. now apply mem_In.
    + apply jsstring_eqb_eq. apply H3.
      apply in_app_or in Hc as [Hc|Hc]; [|exact Hc].
      apply mem_In in Hc. congruence.
  - rewrite <- app_assoc. apply jsstring_eqb_eq. now apply H1.
Qed.

Lemma createDiacriticsRegExp_row_witness :
  createDiacriticsRegExp
    {| diacritics := true; accuracy_of := AccString Partially;
       caseSensitive := true; ignoreJoiners := false;
       ignorePunctuation := []; wildcards_of := Disabled;
       blockElementsBoundary := None |} [322%N]
  = js "[" ++ [108%N; 322%N] ++ js "]".
Proof.
  apply (@createDiacriticsRegExp_row
           {| diacritics := true; accuracy_of := AccString Partially;
              caseSensitive := true; ignoreJoiners := false;
              ignorePunctuation := []; wildcards_of := Disabled;
              blockElementsBoundary := None |}
           [108%N; 322%N] [76%N; 321%N] 322%N).
  - vm_compute. tauto.
  - vm_compute. tauto.
Defined.

(** *** [setupIgnoreJoinersRegExp] and [createJoinersRegExp] *)

Lemma mem_neq (c x : jschar) (l : jsstring) :
  mem c l = false -> In x l -> N.eqb c x = false.
Proof.
  unfold mem. intros H Hin.
  destruct (N.eqb c x) eqn:E; [|reflexivity].
  assert (existsb (N.eqb c) l = true) by (apply existsb_exists; eauto).
  congruence.
Qed.

Lemma syntax_neq (c x : jschar) :
  is_syntax_char c = false -> In x syntax_chars -> N.eqb c x = false.
Proof. apply mem_neq. Qed.

Lemma joiner_dot_escaped (n : nat) (c : jschar) (s : jsstring) :
  is_line_terminator c = false ->
  forallb (fun c => negb (is_line_terminator c)) s = true ->
  joiner_dot n c (flat_map escaped s)
  = Some (n, match s with [] => true | _ => false end).
Proof.
  intros Hc Hs. unfold joiner_dot. rewrite Hc.
  destruct s as [|d s]; [reflexivity|].
  cbn [forallb] in Hs. apply andb_true_iff in Hs as [Hd _].
  apply negb_true_iff in Hd.
  cbn [flat_map]. unfold escaped at 1. destruct (is_syntax_char d) eqn:E.
  - reflexivity.
  - cbn [app].
    rewrite (@syntax_neq _ c_pipe E) by (vm_compute; tauto).
    rewrite (@syntax_neq _ c_rparen E) by (vm_compute; tauto).
    cbn [orb]. now rewrite Hd.
Qed.

Lemma join_cons (sep x : jsstring) (l : list jsstring) :
  join sep (x :: l)
  = x ++ match l with [] => [] | _ => sep ++ join sep l end.
Proof. destruct l; cbn [join]; [now rewrite app_nil_r|reflexivity]. Qed.

(** On an escaped text without line terminators
    [setupIgnoreJoinersRegExp] puts its mark after every character but
    the last. *)
Lemma joiner_escaped (s before : jsstring) :
  forallb (fun c => negb (is_line_terminator c)) s = true ->
  replace_from match_joiner_site
    (fun (grouped : bool) (_ m _ : jsstring) =>
       if grouped then m else m ++ [0%N])
    before (flat_map escaped s) 0
  = join [0%N] (map escaped s).
Proof.
  revert before. induction s as [|c s IH]; intros before Hs; [reflexivity|].
  cbn [forallb] in Hs. apply andb_true_iff in Hs as [Hc Hs].
  apply negb_true_iff in Hc.
  cbn [map]. rewrite join_cons. cbn [flat_map]. unfold escaped at 1 3.
  destruct (is_syntax_char c) eqn:E.
  - cbn [app replace_from].
    change (match_joiner_site (c_backslash :: c :: flat_map escaped s))
      with (match joiner_dot 2 c (flat_map escaped s) with
            | Some r => Some r
            | None => joiner_dot 1 c_backslash (c :: flat_map escaped s)
            end).
    rewrite (joiner_dot_escaped 2 c s Hc Hs).
    cbn [firstn skipn replace_from]. rewrite IH by exact Hs.
    destruct s; reflexivity.
  - cbn [app replace_from].
    assert (Hm : match_joiner_site (c :: flat_map escaped s)
                 = joiner_dot 1 c (flat_map escaped s)).
    { unfold match_joiner_site, starts_with.
      cbn [js map String.list_ascii_of_string literal_matches].
      change (ch "("%char) with c_lparen. change (ch "|"%char) with c_pipe.
      rewrite (N.eqb_sym c_lparen), (N.eqb_sym c_pipe).
      rewrite (@syntax_neq _ c_lparen E) by (vm_compute; tauto).
      rewrite (@syntax_neq _ c_pipe E) by (vm_compute; tauto).
      rewrite (@syntax_neq _ c_backslash E) by (vm_compute; tauto).
      reflexivity. }
    rewrite Hm, (joiner_dot_escaped 1 c s Hc Hs).
    cbn [firstn skipn]. rewrite IH by exact Hs.
    destruct s; reflexivity.
Qed.

Lemma split_runs_piece (p : jschar -> bool) (x rest cur : jsstring) :
  forallb (fun c => negb (p c)) x = true ->
  split_runs_from p (x ++ rest) cur false
  = split_runs_from p rest (cur ++ x) false.
Proof.
  revert cur. induction x as [|c x IH]; intros cur H.
  - now rewrite app_nil_r.
  - cbn [forallb] in H. apply andb_true_iff in H as [H1 H2].
    apply negb_true_iff in H1. cbn [app split_runs_from]. rewrite H1.
    rewrite IH by exact H2. now rewrite <- app_assoc.
Qed.

Lemma split_runs_join (p : jschar -> bool) (z : jschar) (l : list jsstring) :
  p z = true ->
  Forall (fun x => x <> [] /\ forallb (fun c => negb (p c)) x = true) l ->
  forall (x cur : jsstring) (inrun : bool),
    x <> [] -> forallb (fun c => negb (p c)) x = true ->
    split_runs_from p (join [z] (x :: l)) cur inrun = (cur ++ x) :: l.
Proof.
  intros Hz Hl.
  induction Hl as [|y l [Hy1 Hy2] Hl IH]; intros x cur inrun Hx1 Hx2.
  - cbn [join]. destruct x as [|c x]; [congruence|].
    cbn [forallb] in Hx2. apply andb_true_iff in Hx2 as [H1 H2].
    apply negb_true_iff in H1. cbn [split_runs_from]. rewrite H1.
    rewrite <- (app_nil_r x) at 1. rewrite split_runs_piece by exact H2.
    cbn [split_runs_from]. now rewrite <- app_assoc.
  - rewrite join_cons. destruct x as [|c x]; [congruence|].
    cbn [forallb] in Hx2. apply andb_true_iff in Hx2 as [H1 H2].
    apply negb_true_iff in H1. cbn [app split_runs_from]. rewrite H1.
    rewrite split_runs_piece by exact H2.
    cbn [app split_runs_from]. rewrite Hz.
    rewrite <- app_assoc. f_equal. exact (IH y [] true Hy1 Hy2).
Qed.

(** Splitting at the marks gives back the pieces that were joined with
    them. *)
Lemma split_runs_joined (p : jschar -> bool) (z : jschar) (sep : jsstring)
  (l : list jsstring) :
  p z = true ->
  Forall (fun x => x <> [] /\ forallb (fun c => negb (p c)) x = true) l ->
  join sep (split_runs p (join [z] l)) = join sep l.
Proof.
  intros Hz Hl. destruct Hl as [|x l [Hx1 Hx2] Hl]; [reflexivity|].
  unfold split_runs. f_equal.
  exact (@split_runs_join p z l Hz Hl x [] false Hx1 Hx2).
Qed.

Lemma table_solid :
  forallb (fun row => forallb solid (fst row ++ snd row)) diacritics_table
  = true.
Proof. vm_compute. reflexivity. Qed.

Lemma diacritics_class_solid (cs : bool) (c : jschar) :
  solid c = true ->
  diacritics_class cs diacritics_table c <> [] /\
  forallb solid (diacritics_class cs diacritics_table c) = true.
Proof.
  intros Hc. generalize table_solid.
  induction diacritics_table as [|[lower upper] table IH]; intros Ht.
  - cbn. rewrite Hc. split; [discriminate|reflexivity].
  - cbn [forallb fst snd] in Ht. apply andb_true_iff in Ht as [H1 H2].
    rewrite forallb_app in H1. apply andb_true_iff in H1 as [Hl Hu].
    cbn [diacritics_class].
    destruct cs.
    + destruct (mem c lower); [|destruct (mem c upper)]; [| |now apply IH].
      * split; [discriminate|]. cbn [js map String.list_ascii_of_string app].
        cbn [forallb]. rewrite forallb_app, Hl. reflexivity.
      * split; [discriminate|]. cbn [js map String.list_ascii_of_string app].
        cbn [forallb]. rewrite forallb_app, Hu. reflexivity.
    + destruct (mem c lower || mem c upper); [|now apply IH].
      split; [discriminate|]. cbn [js map String.list_ascii_of_string app].
      cbn [forallb]. rewrite !forallb_app, Hl, Hu. reflexivity.
Qed.

Lemma line_terminator_space (c : jschar) :
  is_space c = false -> is_line_terminator c = false.
Proof.
  unfold is_space, is_line_terminator, mem. cbn [existsb].
  intros H. apply orb_false_iff in H as [H _].
  repeat (apply orb_false_iff in H as [? H]).
  repeat (apply orb_false_iff; split); assumption.
Qed.

Lemma escaped_solid (c : jschar) :
  solid c = true -> forallb solid (escaped c) = true.
Proof.
  intros H. unfold escaped.
  destruct (is_syntax_char c); cbn [forallb]; now rewrite H.
Qed.

Lemma createDiacritics_join (o : options) (z : jschar) (l : list jsstring) :
  createDiacriticsRegExp o (join [z] l)
  = join (createDiacriticsRegExp o [z]) (map (createDiacriticsRegExp o) l).
Proof.
  unfold createDiacriticsRegExp.
  induction l as [|x l IH]; [reflexivity|].
  cbn [map]. rewrite !join_cons. rewrite map_app, concat_app.
  destruct l as [|y l]; [reflexivity|].
  f_equal. cbn [map] in IH |- *. rewrite map_app, concat_app.
  rewrite IH. reflexivity.
Qed.

Lemma createDiacritics_solid (o : options) (x : jsstring) :
  x <> [] -> forallb solid x = true ->
  createDiacriticsRegExp o x <> [] /\
  forallb solid (createDiacriticsRegExp o x) = true.
Proof.
  unfold createDiacriticsRegExp. intros Hx Hok. split.
  - destruct x as [|c x]; [congruence|]. cbn [map concat forallb] in *.
    apply andb_true_iff in Hok as [Hc _].
    destruct (@diacritics_class_solid (caseSensitive o) c Hc) as [Hn _].
    destruct (diacritics_class (caseSensitive o) diacritics_table c);
      [congruence|discriminate].
  - clear Hx. induction x as [|c x IH]; [reflexivity|].
    cbn [map concat forallb] in *. apply andb_true_iff in Hok as [Hc Hx].
    rewrite forallb_app,
      (proj2 (@diacritics_class_solid (caseSensitive o) c Hc)).
    now apply IH.
Qed.

Lemma join_no_space (z : jschar) (l : list jsstring) :
  is_space z = false ->
  Forall (fun x => forallb solid x = true) l ->
  forallb (fun c => negb (is_space c)) (join [z] l) = true.
Proof.
  intros Hz Hl. induction Hl as [|x l Hx Hl IH]; [reflexivity|].
  rewrite join_cons, forallb_app.
  assert (H : forallb (fun c => negb (is_space c)) x = true).
  { apply forallb_forall. intros c Hc.
    apply (proj1 (forallb_forall _ _) Hx) in Hc. unfold solid in Hc.
    now apply andb_true_iff in Hc as [Hc _]. }
  rewrite H. destruct l; [reflexivity|].
  cbn [app forallb]. rewrite Hz. exact IH.
Qed.

(** X7.  With [ignoreJoiners] or [ignorePunctuation], without
    wildcards and synonyms, the pattern of a term that holds no white
    space and no U+0000 is made of the characters of the term, each
    escaped and, with [diacritics], widened to its class, with the
    class of the joiners between two characters and nowhere else. *)
Theorem create_with_joiners (canonicalize : jschar -> jschar) (o : options)
  (str : jsstring) :
  wildcards_of o = Disabled ->
  joiners_wanted o = true ->
  forallb solid str = true ->
  let punctuation :=
    match ignorePunctuation o with
    | [] => []
    | ps => escapeStr (join [] ps)
    end in
  let joiners :=
    if ignoreJoiners o then js "\u00ad\u200b\u200c\u200d" else [] in
  let character (c : jschar) :=
    if diacritics o then createDiacriticsRegExp o (escapeStr [c])
    else escapeStr [c] in
  create_body canonicalize o [] str
  = (join (js "[" ++ punctuation ++ joiners ++ js "]*") (map character str),
     []).
Proof.
  intros Hw Hj Hs punctuation joiners character.
  assert (Hlt : forallb (fun c => negb (is_line_terminator c)) str = true).
  { apply forallb_forall. intros c Hc.
    apply (proj1 (forallb_forall _ _) Hs) in Hc.
    apply andb_true_iff in Hc as [Hc _]. apply negb_true_iff in Hc.
    now rewrite (line_terminator_space _ Hc). }
  assert (Hpieces : Forall (fun x => x <> [] /\ forallb solid x = true)
                      (map character str)).
  { apply Forall_forall. intros x Hx. apply in_map_iff in Hx as (c & <- & Hc).
    apply (proj1 (forallb_forall _ _) Hs) in Hc.
    assert (He : escaped c <> [] /\ forallb solid (escaped c) = true).
    { split; [unfold escaped; destruct (is_syntax_char c); discriminate|].
      now apply escaped_solid. }
    unfold character. rewrite escapeStr_char.
    destruct (diacritics o); [|exact He].
    now apply createDiacritics_solid. }
  unfold create_body. rewrite Hw, Hj.
  unfold setupIgnoreJoinersRegExp, replace. rewrite escapeStr_chars.
  rewrite joiner_escaped by exact Hlt.
  assert (Hd : (if diacritics o
                then createDiacriticsRegExp o (join [0%N] (map escaped str))
                else join [0%N] (map escaped str))
               = join [0%N] (map character str)).
  { unfold character. destruct (diacritics o).
    - rewrite createDiacritics_join, map_map.
      assert (H0 : createDiacriticsRegExp o [(0%N : jschar)] = [0%N])
        by (unfold createDiacriticsRegExp; destruct (caseSensitive o);
            reflexivity).
      rewrite H0. f_equal. apply map_ext. intros c.
      now rewrite escapeStr_char.
    - f_equal. apply map_ext. intros c. now rewrite escapeStr_char. }
  rewrite Hd, createMergedBlanks_pass, merge_pass_solid.
  2:{ apply join_no_space; [reflexivity|].
      eapply Forall_impl; [|exact Hpieces]. now intros x [_ H]. }
  f_equal. unfold createJoinersRegExp.
  assert (Hsplit : forall sep,
            join sep (split_runs (N.eqb 0%N) (join [0%N] (map character str)))
            = join sep (map character str)).
  { intros sep. apply split_runs_joined; [reflexivity|].
    eapply Forall_impl; [|exact Hpieces]. intros x [H1 H2]. split; [exact H1|].
    apply forallb_forall. intros c Hc.
    apply (proj1 (forallb_forall _ _) H2) in Hc. unfold solid in Hc.
    now apply andb_true_iff in Hc as [_ Hc]. }
  unfold joiners_wanted in Hj. unfold punctuation, joiners.
  destruct (ignorePunctuation o) as [|p ps]; destruct (ignoreJoiners o);
    cbn [app join] in *; try discriminate Hj;
    rewrite Hsplit; rewrite ?app_nil_r, <- ?app_assoc; reflexivity.
Qed.

Lemma create_with_joiners_witness :
  create_body (fun c => c)
    {| diacritics := false; accuracy_of := AccString Partially;
       caseSensitive := false; ignoreJoiners := true;
       ignorePunctuation := [js "-"]; wildcards_of := Disabled;
       blockElementsBoundary := None |} [] (js "a.b")
  = (js "a[\-\u00ad\u200b\u200c\u200d]*\.[\-\u00ad\u200b\u200c\u200d]*b", []).
Proof.
  exact (@create_with_joiners (fun c => c)
           {| diacritics := false; accuracy_of := AccString Partially;
              caseSensitive := false; ignoreJoiners := true;
              ignorePunctuation := [js "-"]; wildcards_of := Disabled;
              blockElementsBoundary := None |} (js "a.b")
           eq_refl eq_refl eq_refl).
Defined.

(** *** Wildcards *)

Lemma pass_plain (x mark : jschar) (s : jsstring) :
  forallb (fun c => negb (N.eqb c c_backslash)) s = true ->
  placeholder_pass x mark s 0 = map (fun c => if N.eqb c x then mark else c) s.
Proof.
  induction s as [|c s IH]; intros H; [reflexivity|].
  cbn [forallb] in H. apply andb_true_iff in H as [H1 H2].
  apply negb_true_iff in H1. cbn [placeholder_pass map]. rewrite H1.
  destruct (N.eqb c x); cbn [repeat app]; now rewrite IH.
Qed.

Lemma placeholder_from (p : jschar) (t : jsstring) (s before : jsstring) :
  mem c_dollar t = false ->
  replace_from (match_class (N.eqb p)) (fun _ : unit => expand t) before s 0
  = flat_map (fun c => if N.eqb p c then t else [c]) s.
Proof.
  intros Hd. revert before.
  induction s as [|c s IH]; intros before; [reflexivity|].
  cbn [replace_from match_class flat_map].
  destruct (N.eqb p c).
  - cbn [firstn skipn]. rewrite IH, expand_no_dollar by exact Hd. reflexivity.
  - rewrite IH. reflexivity.
Qed.

Lemma flat_map_flat_map {A B C : Type} (f : A -> list B) (g : B -> list C)
  (l : list A) :
  flat_map g (flat_map f l) = flat_map (fun a => flat_map g (f a)) l.
Proof.
  induction l as [|a l IH]; [reflexivity|].
  cbn [flat_map]. now rewrite flat_map_app, IH.
Qed.

Lemma flat_map_map {A B C : Type} (h : A -> B) (f : B -> list C)
  (l : list A) :
  flat_map f (map h l) = flat_map (fun a => f (h a)) l.
Proof. induction l as [|a l IH]; [reflexivity|]. cbn. now rewrite IH. Qed.

Lemma forallb_flat_map {A B : Type} (p : B -> bool) (f : A -> list B)
  (l : list A) :
  forallb p (flat_map f l) = forallb (fun a => forallb p (f a)) l.
Proof.
  induction l as [|a l IH]; [reflexivity|].
  cbn [flat_map forallb]. now rewrite forallb_app, IH.
Qed.

Lemma forallb_mapped {A B : Type} (p : B -> bool) (h : A -> B) (l : list A) :
  forallb p (map h l) = forallb (fun a => p (h a)) l.
Proof. induction l as [|a l IH]; [reflexivity|]. cbn. now rewrite IH. Qed.

Lemma flat_map_ext_in {A B : Type} (f g : A -> list B) (l : list A) :
  (forall a, In a l -> f a = g a) -> flat_map f l = flat_map g l.
Proof.
  intros H. rewrite !flat_map_concat_map. f_equal. now apply map_ext_in.
Qed.

(** X24.  With wildcards enabled, without synonyms, joiners and
    diacritics, the pattern of a term that holds no white space, no
    backslash and neither of the two placeholder characters is made
    character by character: [?] becomes [\S?], [*] becomes [\S*], and
    any other character is escaped. *)
Theorem create_with_wildcards (canonicalize : jschar -> jschar) (o : options)
  (str : jsstring) :
  wildcards_of o = Enabled ->
  joiners_wanted o = false ->
  diacritics o = false ->
  forallb (fun c => negb (is_space c) && negb (N.eqb c c_backslash)
                    && negb (N.eqb 1%N c) && negb (N.eqb 2%N c)) str = true ->
  create_body canonicalize o [] str
  = (flat_map (fun c => if N.eqb c c_question then js "\S?"
                        else if N.eqb c c_star then js "\S*"
                        else escapeStr [c]) str, []).
Proof.
  intros Hw Hj Hd Hs. unfold create_body. rewrite Hw, Hj, Hd.
  assert (Hb : forallb (fun c => negb (N.eqb c c_backslash)) str = true).
  { apply forallb_forall. intros c Hc.
    apply (proj1 (forallb_forall _ _) Hs) in Hc.
    apply andb_true_iff in Hc as [Hc _]. apply andb_true_iff in Hc as [Hc _].
    now apply andb_true_iff in Hc as [_ Hc]. }
  rewrite setupWildcards_passes, (pass_plain c_question 1%N str Hb).
  rewrite pass_plain.
  2:{ rewrite forallb_mapped. apply forallb_forall. intros c Hc.
      apply (proj1 (forallb_forall _ _) Hb) in Hc.
      destruct (N.eqb c c_question); [reflexivity|exact Hc]. }
  rewrite map_map, escapeStr_chars, flat_map_map.
  rewrite createMergedBlanks_pass, merge_pass_solid.
  2:{ rewrite forallb_flat_map. apply forallb_forall. intros c Hc.
      apply (proj1 (forallb_forall _ _) Hs) in Hc.
      apply andb_true_iff in Hc as [Hc _]. apply andb_true_iff in Hc as [Hc _].
      apply andb_true_iff in Hc as [Hc _].
      destruct (N.eqb c c_question); [reflexivity|].
      destruct (N.eqb c c_star); [reflexivity|].
      unfold escaped. destruct (is_syntax_char c); cbn [forallb];
        now rewrite Hc. }
  f_equal. unfold createWildcardsRegExp. rewrite Hw.
  unfold replace_with, replace.
  rewrite (@placeholder_from 1%N (js "\S?") _ _ eq_refl).
  rewrite (@placeholder_from 2%N (js "\S*") _ _ eq_refl).
  rewrite !flat_map_flat_map. apply flat_map_ext_in. intros c Hin.
  apply (proj1 (forallb_forall _ _) Hs) in Hin.
  apply andb_true_iff in Hin as [Hin H2]. apply andb_true_iff in Hin as [_ H1].
  apply negb_true_iff in H1, H2.
  destruct (N.eqb c c_question) eqn:Eq; [reflexivity|].
  destruct (N.eqb c c_star) eqn:Es; [reflexivity|].
  rewrite escapeStr_char. unfold escaped.
  destruct (is_syntax_char c); cbn [flat_map app]; rewrite ?H1; cbn [flat_map app];
    rewrite ?H2; reflexivity.
Qed.

Lemma create_with_wildcards_witness :
  create_body (fun c => c)
    {| diacritics := false; accuracy_of := AccString Partially;
       caseSensitive := false; ignoreJoiners := false;
       ignorePunctuation := []; wildcards_of := Enabled;
       blockElementsBoundary := None |} [] (js "lor?m.*")
  = (js "lor\S?m\.\S*", []).
Proof.
  exact (@create_with_wildcards (fun c => c)
           {| diacritics := false; accuracy_of := AccString Partially;
              caseSensitive := false; ignoreJoiners := false;
              ignorePunctuation := []; wildcards_of := Enabled;
              blockElementsBoundary := None |} (js "lor?m.*")
           eq_refl eq_refl eq_refl eq_refl).
Defined.

End PatternFacts.

(** ** The accepted ranges *)

Module RangesOrder.
Import Host HostFacts Ranges RangesFacts.


End RangesOrder.

(** ** The fragments in the text of the dictionary *)

Module PlacementFacts.
Import Host HostFacts Fragments FragmentsFacts Placement.

Lemma jslen_app (a b : jsstring) : jslen (a ++ b) = jslen a + jslen b.
Proof. unfold jslen. rewrite length_app. lia. Qed.

Lemma jslen_nonneg (a : jsstring) : 0 <= jslen a.
Proof. unfold jslen. lia. Qed.

Lemma substring_inside (txt : jsstring) (s e : Z) :
  0 <= s <= e -> e <= jslen txt ->
  substring txt s e = firstn (Z.to_nat (e - s)) (skipn (Z.to_nat s) txt).
Proof.
  intros H1 H2. unfold substring, clamp.
  rewrite (Z.min_l s), (Z.min_l e) by lia.
  rewrite (Z.max_r 0 s), (Z.max_r 0 e) by lia.
  rewrite Z.min_l, Z.max_r by lia. reflexivity.
Qed.

Lemma substring_middle (pre txt post : jsstring) :
  substring (pre ++ txt ++ post) (jslen pre) (jslen pre + jslen txt) = txt.
Proof.
  assert (H1 := jslen_nonneg pre). assert (H2 := jslen_nonneg txt).
  assert (H3 := jslen_nonneg post).
  rewrite substring_inside by (rewrite ?jslen_app; lia).
  replace (jslen pre + jslen txt - jslen pre) with (jslen txt) by lia.
  unfold jslen. rewrite !Nat2Z.id.
  rewrite skipn_app, skipn_all, Nat.sub_diag. cbn [skipn app].
  rewrite firstn_app, firstn_all, Nat.sub_diag. cbn [firstn]. apply app_nil_r.
Qed.

Lemma placed_substring (v : jsstring) (l : list nodeInfo) :
  Forall (placed v) l ->
  map (fun n => substring v (start n) (end_ n)) l = map node l.
Proof.
  intros H. apply map_ext_in. intros n Hn.
  apply (proj1 (Forall_forall _ _) H) in Hn as (pre & post & -> & -> & ->).
  apply substring_middle.
Qed.

Lemma seq_shift_map {A : Type} (f : nat -> A) (n : nat) :
  map f (seq 1 n) = map (fun i => f (S i)) (seq 0 n).
Proof. now rewrite <- seq_shift, map_map. Qed.

(** The step of the collector of [getTextNodesAcrossElements]: the
    text of the node is added to the value, with the boundary
    characters after it, and the fragment is added to the list. *)
Lemma collect_node_shape (boundary : bool) (str : jsstring) (c : collector)
  (t : textNode) :
  length str = 2%nat ->
  exists suffix,
    val (collect_node boundary str c t) = val c ++ text t ++ suffix /\
    collected (collect_node boundary str c t)
    = collected c ++
      [{| start := jslen (val c);
          end_ := jslen (val c) + jslen (text t);
          offset := jslen suffix;
          startOffset := Some (running_startOffset c);
          node := text t |}] /\
    running_startOffset (collect_node boundary str c t)
    = running_startOffset c - jslen suffix.
Proof.
  intros Hstr. unfold collect_node.
  set (endBySpace := match rev (text t) with
                     | last :: _ => is_space last
                     | [] => false
                     end).
  set (ty := if boundary || negb endBySpace then blockType t else 0).
  assert (Hstr' : jslen str = 2) by (unfold jslen; rewrite Hstr; reflexivity).
  assert (H0 : jslen (val c ++ text t) - 0 = jslen (val c) + jslen (text t))
    by (rewrite jslen_app; lia).
  destruct (negb (ty =? 0)); cbn [fst snd].
  - destruct (negb endBySpace).
    + destruct (ty =? 1).
      * exists (js " "). cbn [val collected running_startOffset].
        change (1 =? 0) with false. cbv iota.
        rewrite !jslen_app. change (jslen (js " ")) with 1.
        repeat split; try (do 3 f_equal; lia).
      * destruct (ty =? 2).
        -- exists (js " " ++ str). cbn [val collected running_startOffset].
           change (3 =? 0) with false. cbv iota.
           rewrite !jslen_app, Hstr'. change (jslen (js " ")) with 1.
           repeat split; try (do 3 f_equal; lia).
        -- exists []. cbn [val collected running_startOffset].
           change (0 =? 0) with true. cbv iota.
           rewrite !app_nil_r, H0. change (jslen []) with 0.
           repeat split; try (f_equal; lia); try (do 3 f_equal; lia).
    + destruct (ty =? 2).
      * exists str. cbn [val collected running_startOffset].
        change (2 =? 0) with false. cbv iota.
        rewrite !jslen_app, Hstr'.
        repeat split; try (do 3 f_equal; lia).
      * exists []. cbn [val collected running_startOffset].
        change (0 =? 0) with true. cbv iota.
        rewrite !app_nil_r, H0. change (jslen []) with 0.
        repeat split; try (f_equal; lia); try (do 3 f_equal; lia).
  - exists []. cbn [val collected running_startOffset].
    change (0 =? 0) with true. cbv iota.
    rewrite !app_nil_r, H0. change (jslen []) with 0.
    repeat split; try (f_equal; lia); try (do 3 f_equal; lia).
Qed.

Lemma collect_fold (boundary : bool) (str : jsstring) (ts : list textNode) :
  length str = 2%nat ->
  forall c,
    let c' := fold_left (collect_node boundary str) ts c in
    exists new more,
      val c' = val c ++ more /\
      collected c' = collected c ++ new /\
      map node new = map text ts /\
      Forall (placed (val c')) new /\
      map (fun n => option_map (Z.add (start n)) (startOffset n)) new
      = map (fun i => Some (jslen (val c) + running_startOffset c
                            + jslen (concat (map text (firstn i ts)))))
            (seq 0 (length ts)).
Proof.
  intros Hstr. induction ts as [|t ts IH]; intros c.
  - exists [], []. cbn. rewrite !app_nil_r. repeat split. constructor.
  - cbn [fold_left]. cbv zeta.
    destruct (@collect_node_shape boundary str c t Hstr)
      as (suffix & Hv & Hc & Hr).
    destruct (IH (collect_node boundary str c t))
      as (new & more & Hv' & Hc' & Hn & Hp & Ho).
    rewrite Hv in Hv'. rewrite Hc in Hc'.
    eexists (_ :: new), ((text t ++ suffix) ++ more).
    split; [rewrite Hv'; now rewrite <- !app_assoc|].
    split; [rewrite Hc', <- app_assoc; reflexivity|].
    split; [cbn [map node]; now rewrite Hn|].
    split.
    + constructor; [|exact Hp].
      exists (val c), (suffix ++ more). cbn [node start end_].
      rewrite Hv', <- !app_assoc. repeat split.
    + cbn [map length seq start startOffset option_map firstn concat].
      f_equal; [f_equal; change (jslen []) with 0; lia|].
      rewrite Ho, seq_shift_map. apply map_ext. intros i.
      cbn [firstn map concat]. rewrite Hv, Hr, !jslen_app. f_equal. lia.
Qed.

(** X10.  In the dictionary of [getTextNodesAcrossElements] the
    fragments are the text nodes in their order; the value read
    between the start and the end of a fragment is the text of its
    node; and the start of a fragment plus its [startOffset] is the
    place of the node in the texts of the nodes put end to end, without
    the boundary characters that were added. *)
Theorem getTextNodesAcrossElements_places
  (boundary : option RegExpCreator.boundary) (ts : list textNode) :
  let d := getTextNodesAcrossElements boundary ts in
  map node (nodes d) = map text ts /\
  map (fun n => substring (value d) (start n) (end_ n)) (nodes d)
  = map text ts /\
  map (fun n => option_map (Z.add (start n)) (startOffset n)) (nodes d)
  = map (fun i => Some (jslen (concat (map text (firstn i ts)))))
        (seq 0 (length ts)).
Proof.
  cbv zeta. unfold getTextNodesAcrossElements. cbn [nodes value].
  match goal with
  | |- context [fold_left (collect_node ?b ?s) ts ?c] =>
      assert (Hs : length s = 2%nat)
        by (destruct boundary as [[[|x b']]|]; reflexivity);
      destruct (@collect_fold b s ts Hs c)
        as (new & more & Hv & Hc & Hn & Hp & Ho)
  end.
  cbn [collected val running_startOffset app] in Hc, Ho.
  rewrite Hc. split; [exact Hn|]. split.
  - rewrite placed_substring by exact Hp. exact Hn.
  - rewrite Ho. apply map_ext. intros i. f_equal.
Qed.

Lemma getTextNodes_fold (ts : list jsstring) (c : collector) :
  let c' := fold_left getTextNodes_step ts c in
  exists new,
    val c' = val c ++ concat ts /\
    collected c' = collected c ++ new /\
    map node new = ts /\
    Forall (placed (val c')) new /\
    map (fun n => (start n, offset n)) new
    = map (fun i => (jslen (val c) + jslen (concat (firstn i ts)), 0))
          (seq 0 (length ts)).
Proof.
  revert c. induction ts as [|t ts IH]; intros c.
  - exists []. cbn. rewrite !app_nil_r. repeat split. constructor.
  - cbn [fold_left]. cbv zeta.
    destruct (IH (getTextNodes_step c t)) as (new & Hv & Hc & Hn & Hp & Hs).
    cbn [getTextNodes_step val collected] in Hv, Hc, Hs.
    eexists (_ :: new).
    split; [rewrite Hv; cbn [concat]; now rewrite <- app_assoc|].
    split; [rewrite Hc, <- app_assoc; reflexivity|].
    split; [cbn [map node]; now rewrite Hn|].
    split.
    + constructor; [|exact Hp].
      exists (val c), (concat ts). cbn [node start end_].
      rewrite Hv, <- app_assoc, jslen_app. repeat split.
    + cbn [map length seq start offset firstn concat].
      f_equal; [f_equal; change (jslen []) with 0; lia|].
      rewrite Hs, seq_shift_map. apply map_ext. intros i.
      cbn [firstn concat]. rewrite !jslen_app. f_equal. lia.
Qed.

(** X9.  The dictionary of [getTextNodes]: the value is the texts of
    the nodes put end to end, the fragments are the nodes in their
    order, the value read between the start and the end of a fragment
    is the text of its node, and a fragment starts where the texts
    before it end, with no offset. *)
Theorem getTextNodes_tiles (ts : list jsstring) :
  let d := getTextNodes ts in
  value d = concat ts /\
  map node (nodes d) = ts /\
  map (fun n => substring (value d) (start n) (end_ n)) (nodes d) = ts /\
  map (fun n => (start n, offset n)) (nodes d)
  = map (fun i => (jslen (concat (firstn i ts)), 0)) (seq 0 (length ts)).
Proof.
  cbv zeta. unfold getTextNodes. cbn [nodes value].
  match goal with
  | |- context [fold_left getTextNodes_step ts ?c] =>
      destruct (getTextNodes_fold ts c) as (new & Hv & Hc & Hn & Hp & Hs)
  end.
  cbn [collected val app] in Hv, Hc, Hs. rewrite Hc, Hv.
  split; [reflexivity|]. split; [exact Hn|]. split.
  - rewrite <- Hv. rewrite placed_substring by exact Hp. exact Hn.
  - rewrite Hs. apply map_ext. intros i. f_equal.
Qed.

(** *** The wraps *)

(** X12.  [wrapRangeInTextNode] reads [start] and [end - start] as
    [unsigned long] offsets (modulo 2^32), as [splitText] does.  It
    throws exactly when the span so read does not end in the text.
    Otherwise the marker holds the text of that span, and the text
    before it, the marker and the node that is returned make up the
    text of the node.  For a range that lies in the text the span is
    the range. *)
Theorem wrapRangeInTextNode_pieces (txt : jsstring) (s e : Z) :
  jslen txt < 2 ^ 32 ->
  let from := unsigned_long s in
  let upto := from + unsigned_long (e - s) in
  match wrapRangeInTextNode txt s e with
  | Ok (rest, marked) =>
      upto <= jslen txt /\
      marked = substring txt from upto /\
      rest = substring txt upto (jslen txt) /\
      substring txt 0 from ++ marked ++ rest = txt
  | Throw => jslen txt < upto
  | OutOfFuel => False
  end /\
  (0 <= s <= e -> e <= jslen txt -> from = s /\ upto = e).
Proof.
  intros Hlen. cbv zeta. split.
  - unfold wrapRangeInTextNode.
    assert (Hs := Z.mod_pos_bound s (2 ^ 32) ltac:(lia)).
    assert (Hn := Z.mod_pos_bound (e - s) (2 ^ 32) ltac:(lia)).
    fold (unsigned_long s) in Hs. fold (unsigned_long (e - s)) in Hn.
    rewrite splitText_unsigned by exact Hlen.
    destruct (Z.gtb_spec (unsigned_long s) (jslen txt)) as [H2|H2];
      cbn [bind]; [lia|].
    rewrite splitText_unsigned by (rewrite jslen_skipn; lia).
    rewrite jslen_skipn by lia.
    destruct (Z.gtb_spec (unsigned_long (e - s))
                (jslen txt - unsigned_long s)) as [H4|H4];
      cbn [bind]; [lia|].
    split; [lia|].
    rewrite !substring_inside by lia.
    replace (unsigned_long s + unsigned_long (e - s) - unsigned_long s)
      with (unsigned_long (e - s)) by lia.
    split; [reflexivity|].
    assert (Hrest :
      skipn (Z.to_nat (unsigned_long (e - s)))
        (skipn (Z.to_nat (unsigned_long s)) txt)
      = firstn (Z.to_nat (jslen txt
                          - (unsigned_long s + unsigned_long (e - s))))
          (skipn (Z.to_nat (unsigned_long s + unsigned_long (e - s))) txt)).
    { rewrite firstn_all2.
      - rewrite skipn_skipn. f_equal. lia.
      - rewrite length_skipn. unfold jslen in *. lia. }
    split; [exact Hrest|].
    rewrite Z.sub_0_r. cbn [Z.to_nat skipn].
    now rewrite !firstn_skipn.
  - intros H1 H2. unfold unsigned_long.
    rewrite !Z.mod_small by lia. lia.
Qed.

Lemma wrapRangeInTextNode_pieces_witness :
  jslen (js "lorem ipsum") < 2 ^ 32 /\
  (match wrapRangeInTextNode (js "lorem ipsum") (2 ^ 32 + 6) (2 ^ 32 + 11) with
   | Ok (rest, marked) =>
       unsigned_long (2 ^ 32 + 6)
         + unsigned_long (2 ^ 32 + 11 - (2 ^ 32 + 6))
         <= jslen (js "lorem ipsum") /\
       marked = substring (js "lorem ipsum") (unsigned_long (2 ^ 32 + 6))
                  (unsigned_long (2 ^ 32 + 6)
                   + unsigned_long (2 ^ 32 + 11 - (2 ^ 32 + 6))) /\
       rest = substring (js "lorem ipsum")
                (unsigned_long (2 ^ 32 + 6)
                 + unsigned_long (2 ^ 32 + 11 - (2 ^ 32 + 6)))
                (jslen (js "lorem ipsum")) /\
       substring (js "lorem ipsum") 0 (unsigned_long (2 ^ 32 + 6))
         ++ marked ++ rest = js "lorem ipsum"
   | Throw =>
       jslen (js "lorem ipsum")
       < unsigned_long (2 ^ 32 + 6)
         + unsigned_long (2 ^ 32 + 11 - (2 ^ 32 + 6))
   | OutOfFuel => False
   end).
Proof.
  split; [reflexivity|].
  exact (proj1 (@wrapRangeInTextNode_pieces (js "lorem ipsum")
                  (2 ^ 32 + 6) (2 ^ 32 + 11) eq_refl)).
Defined.

(** An offset of 2^32 or more is not out of range: it is read modulo
    2^32.  An offset after the end of the text is. *)
Example wrapRangeInTextNode_unsigned :
  wrapRangeInTextNode (js "lorem ipsum") (2 ^ 32) (2 ^ 32 + 2)
    = Ok (js "rem ipsum", js "lo") /\
  wrapRangeInTextNode (js "lorem ipsum") 6 11 = Ok ([], js "ipsum") /\
  wrapRangeInTextNode (js "lorem ipsum") 6 12 = Throw /\
  wrapRangeInTextNode (js "lorem ipsum") (-1) 2 = Throw.
Proof. repeat split; vm_compute; reflexivity. Qed.

(** X13.  A wrap that splices the list keeps the text of the list: the
    texts of the fragments put end to end are the same before and
    after.  The marker holds the text of the range, and the list grows
    by the increment that is returned. *)
Theorem wrapRangeInTextNodeInsert_text (pre : list nodeInfo) (n : nodeInfo)
  (post : list nodeInfo) (s e : Z) :
  0 <= s < e -> e <= jslen (node n) ->
  exists r,
    wrapRangeInTextNodeInsert (pre ++ n :: post) n s e (start n + s) (length pre)
      = Ok r /\
    concat (map node (new_nodes r)) = concat (map node (pre ++ n :: post)) /\
    markNode r = substring (node n) s e /\
    length (new_nodes r) = (length (pre ++ n :: post) + increment r)%nat.
Proof.
  intros Hs He.
  rewrite (wrapRangeInTextNodeInsert_shape pre n post Hs He).
  eexists. split; [reflexivity|]. cbn [new_nodes markNode increment].
  rewrite substring_inside by lia.
  split; [|split; [reflexivity|]].
  - assert (Hk : firstn (Z.to_nat s) (node n)
                 ++ firstn (Z.to_nat (e - s)) (skipn (Z.to_nat s) (node n))
                 ++ skipn (Z.to_nat (e - s)) (skipn (Z.to_nat s) (node n))
                 = node n) by now rewrite !firstn_skipn.
    assert (Hend : e = jslen (node n) ->
                   skipn (Z.to_nat (e - s)) (skipn (Z.to_nat s) (node n)) = []).
    { intros ->. apply skipn_all2. rewrite length_skipn. unfold jslen. lia. }
    assert (Hbeg : s = 0 -> firstn (Z.to_nat s) (node n) = [])
      by (intros ->; reflexivity).
    destruct (Z.eqb_spec s 0) as [E0|E0];
      destruct (Z.eqb_spec e (jslen (node n))) as [E1|E1];
      rewrite !map_app, !concat_app; cbn [map concat node];
      f_equal; rewrite ?app_assoc; f_equal; rewrite <- ?app_assoc.
    + rewrite <- Hk at 3. now rewrite (Hbeg E0).
    + rewrite <- Hk at 3. now rewrite (Hend E1), app_nil_r.
    + exact Hk.
  - destruct (s =? 0), (e =? jslen (node n));
      rewrite !length_app; cbn [length]; lia.
Qed.

Lemma wrapRangeInTextNodeInsert_text_witness :
  exists r,
    wrapRangeInTextNodeInsert
      [ {| start := 0; end_ := 6; offset := 1; startOffset := Some 0;
           node := js "a xwor" |};
        {| start := 7; end_ := 11; offset := 1; startOffset := Some (-1);
           node := js "ld x" |} ]
      {| start := 0; end_ := 6; offset := 1; startOffset := Some 0;
         node := js "a xwor" |} 2 6 2 0
      = Ok r /\
    concat (map node (new_nodes r)) = js "a xworld x" /\
    markNode r = js "xwor" /\
    length (new_nodes r) = 3%nat.
Proof.
  destruct (@wrapRangeInTextNodeInsert_text []
              {| start := 0; end_ := 6; offset := 1; startOffset := Some 0;
                 node := js "a xwor" |}
              [ {| start := 7; end_ := 11; offset := 1;
                   startOffset := Some (-1); node := js "ld x" |} ] 2 6)
    as (r & H1 & H2 & H3 & H4).
  - lia.
  - vm_compute. discriminate.
  - exists r. split; [exact H1|]. split; [exact H2|]. split; [exact H3|].
    rewrite H4. vm_compute in H1. inversion H1. reflexivity.
Defined.

Lemma wrapRangeInTextNodeInsert_chain_witness :
  chain
    [ {| start := 0; end_ := 2; offset := 0; startOffset := Some 0;
         node := js "a " |};
      {| start := 2; end_ := 4; offset := 0; startOffset := None;
         node := js "xw" |};
      {| start := 4; end_ := 6; offset := 1; startOffset := None;
         node := js "or" |};
      {| start := 7; end_ := 11; offset := 1; startOffset := Some (-1);
         node := js "ld x" |} ].
Proof.
  apply (@wrapRangeInTextNodeInsert_chain []
           {| start := 0; end_ := 6; offset := 1; startOffset := Some 0;
              node := js "a xwor" |}
           [ {| start := 7; end_ := 11; offset := 1;
                startOffset := Some (-1); node := js "ld x" |} ] 2 4
           {| new_nodes :=
                [ {| start := 0; end_ := 2; offset := 0;
                     startOffset := Some 0; node := js "a " |};
                  {| start := 2; end_ := 4; offset := 0;
                     startOffset := None; node := js "xw" |};
                  {| start := 4; end_ := 6; offset := 1;
                     startOffset := None; node := js "or" |};
                  {| start := 7; end_ := 11; offset := 1;
                     startOffset := Some (-1); node := js "ld x" |} ];
              retNode := {| start := 4; end_ := 6; offset := 1;
                            startOffset := None; node := js "or" |};
              markNode := js "xw"; increment := 2 |}).
  - split; [reflexivity|].
    repeat constructor; cbn; try lia; reflexivity.
  - lia.
  - vm_compute. discriminate.
  - right. left. vm_compute. reflexivity.
  - vm_compute. reflexivity.
Defined.

End PlacementFacts.

(** ** The markers of one match and of one range *)

Module MarkerFacts.
Import Host HostFacts Fragments Engine FragmentsFacts AcrossFacts.

Lemma wrapMatch_markers_witness :
  let d := getTextNodesAcrossElements None
             [ {| text := js "wor"; blockType := 0 |};
               {| text := js "ld"; blockType := 0 |} ] in
  let m := {| m_index := 0;
              m_groups := [Some (js "world"); Some []; Some (js "world")] |} in
  let c := {| count := 0; matchStart := true; abort := false; log := [] |} in
  exists d' c',
    wrapMatch accept_all false 5 2 m d c = Ok (d', c') /\
    each_calls (log c')
    = [CallEach (js "wor") true 1; CallEach (js "ld") false 1] /\
    count c' = 1.
Proof.
  cbv zeta.
  apply (@wrapMatch_markers accept_all (fun _ _ _ _ _ _ => eq_refl)
           {| m_index := 0;
              m_groups := [Some (js "world"); Some []; Some (js "world")] |}
           (js "world") false 2
           (getTextNodesAcrossElements None
              [ {| text := js "wor"; blockType := 0 |};
                {| text := js "ld"; blockType := 0 |} ])
           {| count := 0; matchStart := true; abort := false; log := [] |}
           0 5).
  - reflexivity.
  - reflexivity.
  - split; [reflexivity|].
    repeat constructor; cbn; try lia; reflexivity.
  - cbn. lia.
  - intros n H. vm_compute in H. inversion H. cbn. lia.
  - intros _. cbn. lia.
  - cbn. lia.
Defined.

Section OneRange.
Variable filter : list call -> jsstring -> Ranges.range -> jsstring -> nat ->
                  bool.
Hypothesis filter_accepts : forall lg nd r t k, filter lg nd r t k = true.

Variables (r : Ranges.range) (text : jsstring) (counter : nat).

Let filterCb := range_filterCb filter r text counter.

Lemma range_accepts (c : closure) (n : nodeInfo) :
  fst (filterCb c n) = true.
Proof. apply filter_accepts. Qed.

Lemma range_calls_app (l1 l2 : list call) :
  List.filter (fun c => match c with
                        | CallRangeEach _ _ _ _ => true
                        | _ => false
                        end) (l1 ++ l2)
  = List.filter (fun c => match c with
                          | CallRangeEach _ _ _ _ => true
                          | _ => false
                          end) l1
    ++ List.filter (fun c => match c with
                             | CallRangeEach _ _ _ _ => true
                             | _ => false
                             end) l2.
Proof. apply filter_app. Qed.

(** The log and the count after the calls of one range. *)
Lemma run_range (acts : list action) :
  forall (c : closure) (rs : bool) (texts : list jsstring),
    eaches acts = flagged rs texts ->
    let count' := if rs then count c + 1 else count c in
    List.filter (fun c => match c with
                          | CallRangeEach _ _ _ _ => true
                          | _ => false
                          end)
      (log (run filterCb (range_eachCb r) acts c))
    = List.filter (fun c => match c with
                            | CallRangeEach _ _ _ _ => true
                            | _ => false
                            end) (log c)
      ++ match texts with
         | [] => []
         | t :: ts => CallRangeEach t r rs count'
                      :: map (fun t => CallRangeEach t r false count') ts
         end /\
    count (run filterCb (range_eachCb r) acts c)
    = match texts with [] => count c | _ => count' end.
Proof.
  induction acts as [|a acts IH]; intros c rs texts He.
  - destruct texts; [|discriminate]. cbn. now rewrite app_nil_r.
  - rewrite run_cons. destruct a as [n|element f].
    + cbn [eaches flat_map app] in He. fold (eaches acts) in He.
      destruct (IH (act filterCb (range_eachCb r) c (AFilter n)) rs texts He)
        as [H1 H2].
      cbv zeta in *. rewrite H1, H2.
      cbn [act]. unfold filterCb, range_filterCb.
      cbn [snd log count]. rewrite range_calls_app. cbn.
      rewrite app_nil_r. split; reflexivity.
    + cbn [eaches flat_map app] in He. fold (eaches acts) in He.
      destruct texts as [|t ts]; [discriminate|].
      rewrite flagged_cons in He. inversion He; subst.
      destruct (IH (act filterCb (range_eachCb r) c (AEach t rs)) false ts H2)
        as [H3 H4].
      cbv zeta in *. rewrite H3, H4.
      cbn [act range_eachCb log count]. rewrite range_calls_app.
      cbn [List.filter]. rewrite <- app_assoc. cbn [app].
      split.
      * do 2 f_equal. now destruct ts.
      * now destruct ts.
Qed.
End OneRange.

(** X20.  The markers of one range on a chain of fragments, when the
    range is found valid and the filter accepts: [each] is called once
    for every fragment the range covers, with the text of that
    fragment the range covers, [matchStart] is true in the first call
    only, and one more range is counted. *)
Theorem wrapRange_markers
  (filter : list call -> jsstring -> Ranges.range -> jsstring -> nat -> bool)
  (wrapAll : bool) (fuel : nat) (originalLength : Z) (r : Ranges.range)
  (counter : nat) (d : dict) (c : closure) :
  (forall lg nd r t k, filter lg nd r t k = true) ->
  let w := Ranges.checkWhitespaceRanges r originalLength (value d) in
  Ranges.w_valid w = true ->
  chain (live wrapAll d) ->
  (lastIndex d < length (nodes d))%nat ->
  (forall n, hd_error (live wrapAll d) = Some n ->
             start n <= Ranges.w_start w) ->
  (wrapAll = false -> lastTextIndex d <= Ranges.w_start w) ->
  (2 * length (nodes d) < fuel)%nat ->
  let texts := markers (live wrapAll d) (Ranges.w_start w) (Ranges.w_end w) in
  exists d' c',
    wrapRange filter wrapAll fuel originalLength r counter d c = Ok (d', c') /\
    List.filter (fun c => match c with
                          | CallRangeEach _ _ _ _ => true
                          | _ => false
                          end) (log c')
    = List.filter (fun c => match c with
                            | CallRangeEach _ _ _ _ => true
                            | _ => false
                            end) (log c)
      ++ match texts with
         | [] => []
         | t :: ts => CallRangeEach t r true (count c + 1)
                      :: map (fun t => CallRangeEach t r false (count c + 1))
                           ts
         end /\
    count c' = match texts with [] => count c | _ => count c + 1 end.
Proof.
  intros Hacc w Hv Hc Hl Hh Ht Hf texts. unfold wrapRange. fold w.
  rewrite Hv.
  assert (Hn : Ranges.w_noMatch w = []).
  { destruct (RangeMarkingFacts.checkWhitespaceRanges_cases
                r originalLength (value d)) as [(_ & H & _)|[H _]].
    - exact H.
    - fold w in H. congruence. }
  rewrite Hn.
  set (c0 := report_noMatch c []).
  set (text := substring (value d) (Ranges.w_start w) (Ranges.w_end w)).
  destruct (@mapped_markers closure (range_filterCb filter r text counter)
              (range_eachCb r)
              (@range_accepts filter Hacc r text counter)
              wrapAll d (Ranges.w_start w) (Ranges.w_end w) c0 fuel
              Hc Hl Hh Ht Hf)
    as (d' & acts & Hrun & He).
  exists d', (run (range_filterCb filter r text counter) (range_eachCb r)
                acts c0).
  split; [exact Hrun|].
  destruct (@run_range filter r text counter acts c0 true _ He) as [H1 H2].
  cbv zeta in *. fold texts in H1, H2.
  assert (Hlog : log c0 = log c) by (unfold c0; cbn; apply app_nil_r).
  assert (Hcount : count c0 = count c) by reflexivity.
  rewrite Hlog, Hcount in H1. rewrite Hcount in H2.
  split; [exact H1|exact H2].
Qed.

Lemma wrapRange_markers_witness :
  let d := getTextNodes [js "wor"; js "ld"] in
  let r := {| Ranges.start := 1; Ranges.length_of := 3 |} in
  let c := {| count := 0; matchStart := true; abort := false; log := [] |} in
  exists d' c',
    wrapRange (fun _ _ _ _ _ => true) false 5 5 r 0 d c = Ok (d', c') /\
    List.filter (fun c => match c with
                          | CallRangeEach _ _ _ _ => true
                          | _ => false
                          end) (log c')
    = [CallRangeEach (js "or") r true 1; CallRangeEach (js "l") r false 1] /\
    count c' = 1.
Proof.
  cbv zeta.
  apply (@wrapRange_markers (fun _ _ _ _ _ => true) false 5 5
           {| Ranges.start := 1; Ranges.length_of := 3 |} 0
           (getTextNodes [js "wor"; js "ld"])
           {| count := 0; matchStart := true; abort := false; log := [] |}).
  - reflexivity.
  - reflexivity.
  - split; [reflexivity|].
    repeat constructor; cbn; try lia; reflexivity.
  - cbn. lia.
  - intros n H. vm_compute in H. inversion H. vm_compute. discriminate.
  - intros _. vm_compute. discriminate.
  - cbn. lia.
Defined.

End MarkerFacts.

(** ** Combined patterns *)

Module CombineFacts.
Import Host HostFacts RegExpCreator Combine.

(** [create_parts] is [create] with [patterns] set. *)
Lemma create_parts_create (canonicalize : jschar -> jschar) (o : options)
  (syn : synonyms) (str : jsstring) :
  create canonicalize o syn str true
  = (Parts (fst (create_parts canonicalize o syn str)),
     snd (create_parts canonicalize o syn str)).
Proof.
  unfold create, create_parts.
  destruct (create_body canonicalize o syn str) as [s syn']. reflexivity.
Qed.

Section Chunks.
Variable canonicalize : jschar -> jschar.
Variable o : options.

Lemma createCombinePattern_some (syn : synonyms) (array : list jsstring)
  (capture : bool) :
  array <> [] ->
  exists cp syn', createCombinePattern canonicalize o syn array capture
                  = (Some cp, syn').
Proof.
  intros H. destruct array as [|first rest]; [congruence|].
  unfold createCombinePattern.
  destruct (create_parts canonicalize o syn first) as [obj syn1].
  destruct (combine_map _ _ _ _ _) as [ps syn2]. eauto.
Qed.

Lemma skipn_nonempty {A : Type} (l : list A) (k : nat) :
  (k < length l)%nat -> skipn k l <> [].
Proof.
  intros H E. assert (X := length_skipn k l). rewrite E in X. cbn in X. lia.
Qed.

Lemma getPatterns_loop_chunks (first : patternObj) (all : list jsstring)
  (num : nat) :
  (0 < num)%nat ->
  forall (rounds k : nat) (syn : synonyms),
    ((k + rounds - 1) * num
     < length all + (if rounds =? 0 then num else 0))%nat ->
    (length all <= (k + rounds) * num)%nat ->
    exists res syn',
      getPatterns_loop canonicalize o first all num rounds k syn
        = Ok (res, syn') /\
      concat (terms res) = skipn (k * num) all /\
      Forall (fun c => c <> [] /\ (length c <= num)%nat) (terms res) /\
      length (patterns res) = rounds /\ length (terms res) = rounds.
Proof.
  intros Hnum. induction rounds as [|rounds IH]; intros k syn Hlo Hhi.
  - exists {| patterns := []; terms := [] |}, syn. cbn.
    repeat split; try constructor.
    symmetry. apply skipn_all2. lia.
  - cbn [getPatterns_loop].
    assert (Hk : (k * num < length all)%nat).
    { cbn [Nat.eqb] in Hlo. nia. }
    assert (Hne : firstn num (skipn (k * num) all) <> []).
    { intros E. apply (skipn_nonempty all Hk).
      destruct (skipn (k * num) all); [reflexivity|].
      destruct num; [lia|]. discriminate. }
    destruct (createCombinePattern_some syn true Hne) as (cp & syn1 & Hcp).
    rewrite Hcp.
    destruct (IH (k + 1)%nat syn1) as (res & syn2 & Hr & Hc & Hf & Hl1 & Hl2).
    + destruct rounds; cbn [Nat.eqb] in *; nia.
    + nia.
    + rewrite Hr. cbn [bind]. eexists _, syn2. split; [reflexivity|].
      cbn [patterns terms concat length]. rewrite Hc.
      split.
      * replace ((k + 1) * num)%nat with (num + k * num)%nat by lia.
        rewrite <- skipn_skipn. apply firstn_skipn.
      * split; [|lia].
        constructor; [|exact Hf]. split; [exact Hne|].
        rewrite length_firstn. lia.
Qed.
End Chunks.

(** X16.  For a list of terms that is not empty and a positive chunk
    size, [getPatterns] returns, and it cuts the terms into chunks:
    the chunks put end to end are the terms in their order, no chunk
    is empty or longer than the chunk size, there is one pattern for
    every chunk, and the number of chunks is the number of terms
    divided by the chunk size, rounded up. *)
Theorem getPatterns_chunks (canonicalize : jschar -> jschar) (o : options)
  (syn : synonyms) (combine : combineOpt) (all : list jsstring) :
  all <> [] -> 0 < chunk_size combine ->
  exists res syn',
    getPatterns canonicalize o syn combine all = Ok (res, syn') /\
    concat (terms res) = all /\
    Forall (fun c => c <> [] /\ Z.of_nat (length c) <= chunk_size combine)
      (terms res) /\
    length (patterns res) = length (terms res) /\
    Z.of_nat (length (terms res))
    = (Z.of_nat (length all) + chunk_size combine - 1) / chunk_size combine.
Proof.
  intros Hall Hnum. unfold getPatterns.
  destruct all as [|t0 rest] eqn:Eall; [congruence|]. rewrite <- Eall.
  destruct (create_parts canonicalize o syn t0) as [first syn1].
  destruct (Z.eqb_spec (chunk_size combine) 0); [lia|].
  destruct (Z.ltb_spec (chunk_size combine) 0); [lia|].
  set (num := chunk_size combine) in *.
  set (len := Z.of_nat (length all)).
  assert (Hlen : 0 < len) by (subst len; rewrite Eall; cbn [length]; lia).
  assert (Hq : (len + num - 1) / num * num <= len + num - 1
               < ((len + num - 1) / num + 1) * num).
  { assert (H1 := Z.mul_div_le (len + num - 1) num Hnum).
    assert (H2 := Z.mul_succ_div_gt (len + num - 1) num Hnum). nia. }
  assert (Hpos : 0 < (len + num - 1) / num).
  { apply Z.div_str_pos. lia. }
  destruct (@getPatterns_loop_chunks canonicalize o first all (Z.to_nat num)
              ltac:(lia) (Z.to_nat ((len + num - 1) / num)) 0%nat syn1)
    as (res & syn' & Hr & Hc & Hf & Hl1 & Hl2).
  - destruct (Z.to_nat ((len + num - 1) / num)) eqn:E; [lia|].
    cbn [Nat.eqb]. subst len. nia.
  - subst len. nia.
  - exists res, syn'. split; [exact Hr|]. split; [exact Hc|]. split.
    + eapply Forall_impl; [|exact Hf]. intros c [H1 H2]. split; [exact H1|lia].
    + split; [lia|]. rewrite Hl2. lia.
Qed.

Lemma getPatterns_chunks_witness :
  exists res syn',
    getPatterns (fun c => c)
      {| diacritics := false; accuracy_of := AccString Partially;
         caseSensitive := false; ignoreJoiners := false;
         ignorePunctuation := []; wildcards_of := Disabled;
         blockElementsBoundary := None |} [] (CombineNumber 2)
      [js "lorem"; js "ipsum"; js "dolor"] = Ok (res, syn') /\
    concat (terms res) = [js "lorem"; js "ipsum"; js "dolor"] /\
    Forall (fun c => c <> [] /\ Z.of_nat (length c) <= 2) (terms res) /\
    length (patterns res) = length (terms res) /\
    Z.of_nat (length (terms res)) = 2.
Proof.
  apply (@getPatterns_chunks (fun c => c)
           {| diacritics := false; accuracy_of := AccString Partially;
              caseSensitive := false; ignoreJoiners := false;
              ignorePunctuation := []; wildcards_of := Disabled;
              blockElementsBoundary := None |} [] (CombineNumber 2)
           [js "lorem"; js "ipsum"; js "dolor"]).
  - discriminate.
  - reflexivity.
Defined.

(** Three terms in chunks of two: the two patterns. *)
Example getPatterns_example :
  getPatterns (fun c => c)
    {| diacritics := false; accuracy_of := AccString Partially;
       caseSensitive := false; ignoreJoiners := false;
       ignorePunctuation := []; wildcards_of := Disabled;
       blockElementsBoundary := None |} [] (CombineNumber 2)
    [js "lorem"; js "ipsum"; js "dolor"]
  = Ok ({| patterns := [js "()((lorem)|(ipsum))"; js "()((dolor))"];
           terms := [[js "lorem"; js "ipsum"]; [js "dolor"]] |}, []).
Proof. vm_compute. reflexivity. Qed.

(** *** [getCurrentTerm] *)

Lemma getCurrentTerm_loop_spec (m : list (option jsstring))
  (terms : list jsstring) (i : nat) :
  (exists j, (3 + j < i)%nat /\ truthy (nth_error m (3 + j)) = true /\
             (forall k, (3 + j < k < i)%nat ->
                        truthy (nth_error m k) = false) /\
             getCurrentTerm_loop m terms i = nth_error terms j) \/
  ((forall k, (2 < k < i)%nat -> truthy (nth_error m k) = false) /\
   getCurrentTerm_loop m terms i = Some (js " ")).
Proof.
  induction i as [|i IH].
  - right. split; [intros k Hk; lia|reflexivity].
  - cbn [getCurrentTerm_loop].
    destruct (Nat.ltb_spec 2 i) as [H2|H2].
    + destruct (truthy (nth_error m i)) eqn:Et.
      * left. exists (i - 3)%nat.
        replace (3 + (i - 3))%nat with i by lia.
        repeat split; [lia|exact Et|intros k Hk; lia].
      * destruct IH as [(j & Hj & Ht & Hk & Hr)|[Hk Hr]].
        -- left. exists j. repeat split; [lia|exact Ht| |exact Hr].
           intros k Hkk. destruct (Nat.eq_dec k i) as [->|Hne];
             [exact Et|apply Hk; lia].
        -- right. split; [|exact Hr].
           intros k Hkk. destruct (Nat.eq_dec k i) as [->|Hne];
             [exact Et|apply Hk; lia].
    + right. split; [intros k Hk; lia|reflexivity].
Qed.

(** X17.  [getCurrentTerm] looks at the groups of the match from the
    fourth on.  When one of them holds a string that is not empty, the
    result is the entry of [terms] that belongs to the last such
    group; when none does, the result is a single space. *)
Theorem getCurrentTerm_spec (m : list (option jsstring))
  (terms : list jsstring) :
  (exists j, truthy (nth_error m (3 + j)) = true /\
             (forall k, (3 + j < k)%nat -> truthy (nth_error m k) = false) /\
             getCurrentTerm m terms = nth_error terms j) \/
  ((forall k, (2 < k)%nat -> truthy (nth_error m k) = false) /\
   getCurrentTerm m terms = Some (js " ")).
Proof.
  assert (Hout : forall k, (length m <= k)%nat ->
                           truthy (nth_error m k) = false).
  { intros k Hk. apply nth_error_None in Hk. now rewrite Hk. }
  unfold getCurrentTerm.
  destruct (getCurrentTerm_loop_spec m terms (length m))
    as [(j & Hj & Ht & Hk & Hr)|[Hk Hr]].
  - left. exists j. repeat split; [exact Ht| |exact Hr].
    intros k Hkk. destruct (Nat.lt_ge_cases k (length m));
      [apply Hk; lia|now apply Hout].
  - right. split; [|exact Hr].
    intros k Hkk. destruct (Nat.lt_ge_cases k (length m));
      [apply Hk; lia|now apply Hout].
Qed.

(** The match of the second of three terms. *)
Example getCurrentTerm_example :
  getCurrentTerm
    [Some (js "ipsum"); Some []; Some (js "ipsum"); None;
     Some (js "ipsum"); None]
    [js "lorem"; js "ipsum"; js "dolor"]
  = Some (js "ipsum").
Proof. reflexivity. Qed.

End CombineFacts.

(** ** The tree *)

Module DomFacts.
Import Host HostFacts Fragments Dom.

Lemma dnode_ind' (P : dnode -> Prop)
  (Htext : forall v, P (DText v))
  (Helem : forall name attrs children, Forall P children ->
             P (DElem name attrs children))
  (Hcomment : forall d, P (DComment d)) :
  forall n, P n.
Proof.
  fix IH 1. intros [v|name attrs children|d].
  - apply Htext.
  - apply Helem. induction children as [|x l IHl]; constructor.
    + apply IH.
    + exact IHl.
  - apply Hcomment.
Qed.

Lemma textContent_flush (d : bool) (cur : option jsstring) :
  textContent_all (flush d cur) = cur_text cur.
Proof.
  destruct cur as [v|]; [|reflexivity]. cbn [flush cur_text].
  destruct d; cbn [andb]; [|cbn; apply app_nil_r].
  destruct (jsstring_eqb v []) eqn:E.
  - apply jsstring_eqb_eq in E. now subst.
  - cbn. apply app_nil_r.
Qed.

Lemma textContent_all_app (a b : list dnode) :
  textContent_all (a ++ b) = textContent_all a ++ textContent_all b.
Proof. unfold textContent_all. now rewrite map_app, concat_app. Qed.

Lemma merge_textContent (d : bool) (l : list dnode) :
  Forall (fun n => textContent (merge_node d n) = textContent n) l ->
  forall cur,
    textContent_all (merge_siblings d (merge_node d) l cur)
    = cur_text cur ++ textContent_all l.
Proof.
  induction 1 as [|x l Hx Hl IH]; intros cur.
  - cbn [merge_siblings]. rewrite textContent_flush.
    unfold textContent_all. cbn. now rewrite app_nil_r.
  - destruct x as [v|name attrs children|c].
    + cbn [merge_siblings]. rewrite IH. unfold textContent_all.
      cbn [map concat textContent cur_text].
      destruct cur; cbn [cur_text]; now rewrite <- ?app_assoc.
    + cbn [merge_siblings]. rewrite textContent_all_app, textContent_flush.
      unfold textContent_all at 1. cbn [map concat].
      fold (textContent_all (merge_siblings d (merge_node d) l None)).
      rewrite Hx, IH. reflexivity.
    + cbn [merge_siblings]. rewrite textContent_all_app, textContent_flush.
      unfold textContent_all at 1. cbn [map concat].
      fold (textContent_all (merge_siblings d (merge_node d) l None)).
      rewrite IH. reflexivity.
Qed.

Lemma merge_node_textContent (d : bool) (n : dnode) :
  textContent (merge_node d n) = textContent n.
Proof.
  induction n as [v|name attrs children IH|c] using dnode_ind';
    try reflexivity.
  cbn [merge_node textContent].
  exact (@merge_textContent d children IH None).
Qed.

Lemma flush_normal (d : bool) (cur : option jsstring) (rest : list dnode) :
  match rest with DText _ :: _ => False | _ => True end ->
  siblings_normal (normal d) (flush d cur ++ rest) false
  = siblings_normal (normal d) rest false.
Proof.
  intros Hrest. destruct cur as [v|]; [|reflexivity]. cbn [flush].
  destruct (d && jsstring_eqb v []) eqn:E; [reflexivity|].
  cbn [app siblings_normal normal]. rewrite E. cbn [negb andb].
  destruct rest as [|[w|n a c|c] rest]; try reflexivity. destruct Hrest.
Qed.

Lemma merge_normal (d : bool) (l : list dnode) :
  Forall (fun n => match n with
                   | DText _ => True
                   | _ => normal d (merge_node d n) = true
                   end) l ->
  forall cur,
    siblings_normal (normal d) (merge_siblings d (merge_node d) l cur) false
    = true.
Proof.
  induction 1 as [|x l Hx Hl IH]; intros cur.
  - cbn [merge_siblings]. rewrite <- (app_nil_r (flush d cur)).
    now rewrite flush_normal.
  - destruct x as [v|name attrs children|c].
    + cbn [merge_siblings]. apply IH.
    + cbn [merge_siblings]. rewrite flush_normal by exact I.
      cbn [siblings_normal]. rewrite Hx. cbn [merge_node andb]. apply IH.
    + cbn [merge_siblings]. rewrite flush_normal by exact I.
      cbn [siblings_normal merge_node normal andb]. apply IH.
Qed.

Lemma merge_node_normal (d : bool) (n : dnode) :
  match n with DText _ => True | _ => normal d (merge_node d n) = true end.
Proof.
  induction n as [v|name attrs children IH|c] using dnode_ind';
    [exact I| |reflexivity].
  cbn [merge_node normal]. apply merge_normal. exact IH.
Qed.

Lemma merge_siblings_normal (d : bool) (l : list dnode) :
  normal_siblings d (merge_siblings d (merge_node d) l None) false = true.
Proof.
  apply merge_normal. apply Forall_forall. intros n _. apply merge_node_normal.
Qed.

(** Merging leaves a normal list as it is. *)
Lemma merge_id (d : bool) (l : list dnode) :
  Forall (fun n => normal d n = true -> merge_node d n = n) l ->
  forall cur,
    siblings_normal (normal d) l
      (match cur with Some _ => true | None => false end) = true ->
    (match cur with Some v => normal d (DText v) = true | None => True end) ->
    merge_siblings d (merge_node d) l cur
    = match cur with Some v => [DText v] | None => [] end ++ l.
Proof.
  induction 1 as [|x l Hx Hl IH]; intros cur Hn Hc.
  - cbn [merge_siblings]. rewrite app_nil_r.
    destruct cur as [v|]; [|reflexivity]. cbn [flush normal] in *.
    apply negb_true_iff in Hc. now rewrite Hc.
  - cbn [siblings_normal] in Hn. apply andb_true_iff in Hn as [Hok Hn].
    destruct x as [v|name attrs children|c].
    + apply andb_true_iff in Hn as [Ha Hn].
      destruct cur as [w|]; [discriminate Ha|].
      cbn [merge_siblings]. cbv iota. exact (IH (Some v) Hn Hok).
    + cbn [merge_siblings]. rewrite (Hx Hok), (IH None Hn I).
      destruct cur as [v|]; [|reflexivity]. cbn [flush normal] in *.
      apply negb_true_iff in Hc. now rewrite Hc.
    + cbn [merge_siblings merge_node]. rewrite (IH None Hn I).
      destruct cur as [v|]; [|reflexivity]. cbn [flush normal] in *.
      apply negb_true_iff in Hc. now rewrite Hc.
Qed.

Lemma merge_node_id (d : bool) (n : dnode) :
  normal d n = true -> merge_node d n = n.
Proof.
  induction n as [v|name attrs children IH|c] using dnode_ind';
    try reflexivity.
  cbn [normal merge_node]. intros Hn. f_equal.
  exact (@merge_id d children IH None Hn I).
Qed.

Lemma merge_siblings_id (d : bool) (l : list dnode) :
  normal_siblings d l false = true ->
  merge_siblings d (merge_node d) l None = l.
Proof.
  intros H. apply (@merge_id d l); [|exact H|exact I].
  apply Forall_forall. intros n _. apply merge_node_id.
Qed.

(** Merging does not see where a text is cut into text nodes. *)
Lemma merge_split (d : bool) (pre : list dnode) (x y : jsstring)
  (post : list dnode) :
  forall cur,
    merge_siblings d (merge_node d) (pre ++ DText x :: DText y :: post) cur
    = merge_siblings d (merge_node d) (pre ++ DText (x ++ y) :: post) cur.
Proof.
  induction pre as [|p pre IH]; intros cur.
  - cbn [app merge_siblings]. destruct cur; now rewrite ?app_assoc.
  - cbn [app merge_siblings]. destruct p; now rewrite ?IH.
Qed.

Lemma merge_wrapped (d : bool) (pre post : list dnode) (a m b : jsstring) :
  merge_siblings d (merge_node d)
    ((pre ++ [DText a]) ++ match m with [] => [] | _ => [DText m] end
       ++ DText b :: post) None
  = merge_siblings d (merge_node d) (pre ++ DText (a ++ m ++ b) :: post) None.
Proof.
  rewrite <- app_assoc. cbn [app].
  destruct m as [|c m].
  - cbn [app]. apply merge_split.
  - cbn [app]. rewrite !merge_split. now rewrite <- app_assoc.
Qed.

(** A run of text nodes is added to the text node the walk is at. *)
Lemma merge_texts (d : bool) (inner : dnode -> dnode) (ts : list jsstring)
  (b : list dnode) (cur : option jsstring) :
  ts <> [] ->
  merge_siblings d inner (map DText ts ++ b) cur
  = merge_siblings d inner b (Some (cur_text cur ++ concat ts)).
Proof.
  revert cur. induction ts as [|t ts IH]; intros cur Hne; [contradiction|].
  cbn [map app merge_siblings concat].
  destruct ts as [|t' ts].
  - cbn [map app concat]. rewrite app_nil_r. now destruct cur.
  - rewrite IH by discriminate. cbn [cur_text].
    destruct cur as [c|]; cbn [cur_text app]; [now rewrite <- app_assoc|].
    reflexivity.
Qed.

(** After a node that is not a text node the walk starts afresh. *)
Lemma merge_after_plain (d : bool) (inner : dnode -> dnode)
  (a l : list dnode) (cur : option jsstring) :
  a <> [] -> ends_with_text a = false ->
  merge_siblings d inner (a ++ l) cur
  = merge_siblings d inner a cur ++ merge_siblings d inner l None.
Proof.
  revert cur. induction a as [|x a IH]; intros cur Hne Hend; [contradiction|].
  destruct a as [|y a].
  - destruct x as [v|name attrs children|c]; [discriminate Hend| |];
      cbn [app merge_siblings flush]; now rewrite <- app_assoc.
  - assert (Hend' : ends_with_text (y :: a) = false).
    { unfold ends_with_text in *. cbn [rev] in *.
      destruct (rev a ++ [y]) as [|z r] eqn:E.
      - destruct (rev a); discriminate E.
      - exact Hend. }
    destruct x as [v|name attrs children|c].
    + change ((DText v :: y :: a) ++ l) with (DText v :: (y :: a) ++ l).
      cbn [merge_siblings]. apply IH; [discriminate|exact Hend'].
    + change ((DElem name attrs children :: y :: a) ++ l)
        with (DElem name attrs children :: (y :: a) ++ l).
      cbn [merge_siblings]. rewrite IH by (discriminate || exact Hend').
      now rewrite <- app_assoc.
    + change ((DComment c :: y :: a) ++ l) with (DComment c :: (y :: a) ++ l).
      cbn [merge_siblings]. rewrite IH by (discriminate || exact Hend').
      now rewrite <- app_assoc.
Qed.

(** The text node the walk is at is written before a node that is not
    a text node; [normalizeTextNode] writes it also when it is empty. *)
Lemma merge_before_plain (inner : dnode -> dnode) (b : list dnode)
  (v : jsstring) :
  starts_with_text b = false ->
  merge_siblings false inner b (Some v)
  = DText v :: merge_siblings false inner b None.
Proof.
  destruct b as [|[w|name attrs children|c] b]; intros H;
    [reflexivity|discriminate H|reflexivity|reflexivity].
Qed.

(** X18.  [normalizeTextNode] puts every run of adjacent text nodes
    into one text node that holds their texts, one after the other; a
    text node that stands alone stays, also when it is empty.  It does
    the same with the children of every element, whose name and
    attributes stay, and leaves every other node as it is.
    Afterwards no two text nodes are adjacent, at any depth below the
    nodes it is given; the text content is the same as before; and a
    second call changes nothing. *)
Theorem normalizeTextNode_merges (l : list dnode) :
  normal_siblings false (normalizeTextNode l) false = true /\
  textContent_all (normalizeTextNode l) = textContent_all l /\
  normalizeTextNode (normalizeTextNode l) = normalizeTextNode l /\
  (forall a ts b,
      l = a ++ map DText ts ++ b -> ts <> [] ->
      ends_with_text a = false -> starts_with_text b = false ->
      normalizeTextNode l
      = normalizeTextNode a ++ DText (concat ts) :: normalizeTextNode b) /\
  (forall name attrs children rest,
      l = DElem name attrs children :: rest ->
      normalizeTextNode l
      = DElem name attrs (normalizeTextNode children)
          :: normalizeTextNode rest) /\
  (forall c rest,
      l = DComment c :: rest ->
      normalizeTextNode l = DComment c :: normalizeTextNode rest).
Proof.
  unfold normalizeTextNode. split; [apply merge_siblings_normal|]. split.
  { rewrite merge_textContent; [reflexivity|].
    apply Forall_forall. intros n _. apply merge_node_textContent. }
  split; [apply merge_siblings_id; apply merge_siblings_normal|].
  split; [|split].
  - intros a ts b -> Hts Ha Hb.
    destruct a as [|x a].
    + cbn [app merge_siblings flush].
      rewrite merge_texts by exact Hts.
      now rewrite merge_before_plain by exact Hb.
    + rewrite merge_after_plain by (discriminate || exact Ha).
      f_equal. rewrite merge_texts by exact Hts.
      now rewrite merge_before_plain by exact Hb.
  - intros name attrs children rest ->. reflexivity.
  - intros c rest ->. reflexivity.
Qed.

(** Three text nodes, the second of them empty, become one; the empty
    text node between the two elements stays; the text nodes in the
    element are put together. *)
Example normalizeTextNode_example :
  normalizeTextNode
    [ DText (js "a"); DText []; DText (js "b");
      DElem (js "p") [] [DText (js "c"); DText (js "d")];
      DText [];
      DElem (js "br") [] [] ]
  = [ DText (js "ab");
      DElem (js "p") [] [DText (js "cd")];
      DText [];
      DElem (js "br") [] [] ].
Proof. reflexivity. Qed.

(** X19.  Unwrapping undoes a wrap.  When no two text nodes are
    adjacent in the parent of a text node (and, where
    [Node.normalize()] is used, no text node is empty; where
    [normalizeTextNode] is used, the same holds for the siblings after
    the parent), wrapping a range of the text node and unwrapping the
    marker gives back the parent as it was. *)
Theorem unwrapMatches_restores (ie : bool) (name : jsstring)
  (attrs : list (jsstring * jsstring)) (pre post following : list dnode)
  (txt element className : jsstring) (s e : Z) :
  0 <= s <= e -> e <= jslen txt ->
  normal_siblings (negb ie)
    (DElem name attrs (pre ++ DText txt :: post)
     :: (if ie then following else [])) false = true ->
  exists kept mark rest,
    wrapRangeInTextNode element className txt s e = Ok (kept, mark, rest) /\
    unwrapMatches ie name attrs (pre ++ [kept]) mark (rest :: post) following
    = DElem name attrs (pre ++ DText txt :: post) :: following.
Proof.
  intros Hs He Hn. unfold wrapRangeInTextNode.
  rewrite FragmentsFacts.splitText_ok by lia. cbn [bind].
  rewrite FragmentsFacts.splitText_ok
    by (rewrite FragmentsFacts.jslen_skipn; lia). cbn [bind].
  do 3 eexists. split; [reflexivity|].
  set (a := firstn (Z.to_nat s) txt).
  set (m := firstn (Z.to_nat (e - s)) (skipn (Z.to_nat s) txt)).
  set (b := skipn (Z.to_nat (e - s)) (skipn (Z.to_nat s) txt)).
  assert (Htxt : a ++ m ++ b = txt) by (subst a m b; now rewrite !firstn_skipn).
  unfold normal_siblings in Hn. cbn [siblings_normal normal] in Hn.
  apply andb_true_iff in Hn as [Hp Hf].
  unfold unwrapMatches, createMarkElement. cbn [childNodes].
  destruct ie; cbn [negb] in *.
  - unfold normalizeTextNode. cbn [merge_siblings flush app merge_node].
    rewrite merge_wrapped, Htxt.
    rewrite (merge_siblings_id false _ Hp).
    now rewrite (merge_siblings_id false _ Hf).
  - unfold normalize. cbn [merge_node].
    rewrite merge_wrapped, Htxt.
    now rewrite (merge_siblings_id true _ Hp).
Qed.

Lemma unwrapMatches_restores_witness :
  exists kept mark rest,
    wrapRangeInTextNode [] (js "hit") (js "lorem ipsum") 6 11
      = Ok (kept, mark, rest) /\
    unwrapMatches false (js "p") []
      ([DElem (js "b") [] [DText (js "x")]] ++ [kept]) mark
      (rest :: [DComment (js "c")]) []
    = [DElem (js "p") []
         ([DElem (js "b") [] [DText (js "x")]]
          ++ DText (js "lorem ipsum") :: [DComment (js "c")])].
Proof.
  apply (@unwrapMatches_restores false (js "p") []
           [DElem (js "b") [] [DText (js "x")]] [DComment (js "c")] []
           (js "lorem ipsum") [] (js "hit") 6 11).
  - lia.
  - vm_compute. discriminate.
  - reflexivity.
Defined.

(** The three nodes of a wrap, and the marker element. *)
Example wrapRangeInTextNode_example :
  wrapRangeInTextNode [] (js "hit") (js "lorem ipsum") 6 11
  = Ok (DText (js "lorem "),
        DElem (js "mark")
          [(js "data-markjs", js "true"); (js "class", js "hit")]
          [DText (js "ipsum")],
        DText []).
Proof. reflexivity. Qed.

End DomFacts.

(** ** The contexts of a search *)

Module ContextsFacts.
Import Host HostFacts Contexts.

Section Kept.
Variable node : Type.
Variable same : node -> node -> bool.
Variable contains : node -> node -> bool.
Variable querySelectorAll : jsstring -> list node.
Hypothesis same_eq : forall a b, same a b = true <-> a = b.

Lemma pairs_snoc (R : node -> node -> Prop) (l : list node) (x : node) :
  ForallOrdPairs R l -> Forall (fun a => R a x) l ->
  ForallOrdPairs R (l ++ [x]).
Proof.
  induction 1 as [|a l Ha Hl IH]; intros Hx.
  - cbn. constructor; constructor.
  - inversion Hx; subst. cbn [app]. constructor.
    + apply Forall_app. split; [exact Ha|]. constructor; [assumption|constructor].
    + now apply IH.
Qed.

(** What [keep] keeps true: every node seen so far is a kept node or
    lies in one, and no kept node is equal to, or lies in, one kept
    before it. *)
Lemma keep_invariant (seen filtered : list node) (x : node) :
  Forall (fun y => exists k, In k filtered /\ (k = y \/ contains k y = true))
    seen ->
  ForallOrdPairs (fun a b => a <> b /\ contains a b = false) filtered ->
  Forall (fun y => exists k, In k (keep same contains filtered x)
                             /\ (k = y \/ contains k y = true))
    (seen ++ [x]) /\
  ForallOrdPairs (fun a b => a <> b /\ contains a b = false)
    (keep same contains filtered x).
Proof.
  intros Hseen Hpairs. unfold keep.
  destruct (existsb (fun k => same k x) filtered) eqn:Ex; cbn [negb andb].
  - split; [|exact Hpairs]. apply Forall_app. split; [exact Hseen|].
    constructor; [|constructor].
    apply existsb_exists in Ex as (k & Hk & E). apply same_eq in E.
    exists k. split; [exact Hk|now left].
  - destruct (filter (fun contexts => contains contexts x) filtered)
      as [|k ks] eqn:Ef; cbn [length Nat.ltb Nat.leb negb].
    + split.
      * apply Forall_app. split.
        -- eapply Forall_impl; [|exact Hseen].
           intros y (k & Hk & Hy). exists k. split; [|exact Hy].
           apply in_or_app. now left.
        -- constructor; [|constructor]. exists x. split; [|now left].
           apply in_or_app. right. now left.
      * apply pairs_snoc; [exact Hpairs|].
        apply Forall_forall. intros a Ha. split.
        -- intros ->. assert (E : same x x = true) by now apply same_eq.
           assert (X : existsb (fun k => same k x) filtered = true)
             by (apply existsb_exists; eauto).
           congruence.
        -- destruct (contains a x) eqn:Ec; [|reflexivity].
           assert (X : In a (filter (fun contexts => contains contexts x)
                               filtered))
             by (apply filter_In; split; assumption).
           rewrite Ef in X. destruct X.
    + split; [|exact Hpairs]. apply Forall_app. split; [exact Hseen|].
      constructor; [|constructor].
      assert (X : In k (filter (fun contexts => contains contexts x)
                          filtered)) by (rewrite Ef; now left).
      apply filter_In in X as [Hk Hc].
      exists k. split; [exact Hk|now right].
Qed.

Lemma keep_all (l seen filtered : list node) :
  Forall (fun y => exists k, In k filtered /\ (k = y \/ contains k y = true))
    seen ->
  ForallOrdPairs (fun a b => a <> b /\ contains a b = false) filtered ->
  Forall (fun y => exists k, In k (fold_left (keep same contains) l filtered)
                             /\ (k = y \/ contains k y = true))
    (seen ++ l) /\
  ForallOrdPairs (fun a b => a <> b /\ contains a b = false)
    (fold_left (keep same contains) l filtered).
Proof.
  revert seen filtered. induction l as [|x l IH]; intros seen filtered Hs Hp.
  - cbn. rewrite app_nil_r. split; assumption.
  - cbn [fold_left].
    destruct (keep_invariant x Hs Hp) as [Hs' Hp'].
    destruct (IH (seen ++ [x]) _ Hs' Hp') as [H1 H2].
    rewrite <- app_assoc in H1. split; assumption.
Qed.

(** X21.  No context is lost and none is searched twice through
    another one that stands before it: every node that was asked for
    is one of the contexts [getContexts] returns or lies in one of
    them; and no context that is returned is equal to, or lies in, a
    context returned before it. *)
Theorem getContexts_covers (c : context node) :
  Forall (fun y => exists k,
            In k (getContexts same contains querySelectorAll c)
            /\ (k = y \/ contains k y = true))
    (requested querySelectorAll c) /\
  ForallOrdPairs (fun a b => a <> b /\ contains a b = false)
    (getContexts same contains querySelectorAll c).
Proof.
  unfold getContexts.
  apply (@keep_all (requested querySelectorAll c) [] []); constructor.
Qed.
End Kept.

Lemma getContexts_covers_witness :
  Forall (fun y => exists k,
            In k (getContexts Nat.eqb (fun a b => (b mod a =? 0)%nat)
                    (fun _ => []) (Nodes [4; 2; 6; 4; 3]%nat))
            /\ (k = y \/ (y mod k =? 0)%nat = true))
    [4; 2; 6; 4; 3]%nat /\
  ForallOrdPairs (fun a b => a <> b /\ (b mod a =? 0)%nat = false)
    (getContexts Nat.eqb (fun a b => (b mod a =? 0)%nat)
       (fun _ => []) (Nodes [4; 2; 6; 4; 3]%nat)).
Proof.
  exact (@getContexts_covers nat Nat.eqb (fun a b => (b mod a =? 0)%nat)
           (fun _ => []) Nat.eqb_eq (Nodes [4; 2; 6; 4; 3]%nat)).
Defined.

(** The order of the contexts counts: a context that comes before one
    it lies in is kept beside it. *)
Example getContexts_example :
  getContexts Nat.eqb (fun a b => (b mod a =? 0)%nat) (fun _ => [])
    (Nodes [4; 2; 6; 4; 3]%nat)
  = [4; 2; 3]%nat.
Proof. reflexivity. Qed.

End ContextsFacts.

(** ** The types of the block elements *)

Module TagsFacts.
Import Host HostFacts Tags.






(** With a boundary that names no tags, every block element but [br]
    is a boundary element. *)
Example setType_example :
  let t := setType (fun s => s) {| tagNames := None; extend := false |}
             block_elements in
  get t (js "br") = Some 1 /\ get t (js "p") = Some 2 /\
  get t (js "span") = None.
Proof. repeat split; vm_compute; reflexivity. Qed.

End TagsFacts.

(** ** The groups of a match in one text node *)

Module GroupsDFacts.
Import Host HostFacts Fragments FragmentsFacts PlacementFacts GroupsD.

Section Separate.
Variable filterCb : list (jsstring * nat) -> jsstring -> jsstring -> nat ->
                    bool.
Variables (txt : jsstring) (m : dmatch).
Hypothesis agrees : in_text txt m.

(** What the loop keeps true: the node is the text after the last
    marker, [lastIndex] and [offset] are its place, and the calls so
    far are in order and end there. *)
Let invariant (st : dstate) : Prop :=
  0 <= d_offset st <= jslen txt /\
  d_lastIndex st = d_offset st /\
  d_node st = skipn (Z.to_nat (d_offset st)) txt /\
  forall rest, in_order m (d_offset st) rest ->
               in_order m 0 (d_calls st ++ rest).

Lemma separateGroupsD_step_ok (st : dstate) (i : nat) :
  invariant st ->
  exists st', separateGroupsD_step filterCb m st i = Ok st' /\ invariant st'.
Proof.
  intros (Hoff & Hlast & Hnode & Hcalls). unfold separateGroupsD_step.
  destruct (nth_error (d_groups m) i) as [[[|c g]|]|] eqn:Eg;
    try (exists st; split; [reflexivity|repeat split; assumption || lia]).
  destruct (agrees i Eg ltac:(discriminate)) as (s & e & Ei & Hs & He & Hsub).
  rewrite Ei.
  destruct (Z.geb_spec s (d_lastIndex st)) as [Hge|Hlt].
  - cbn [d_calls d_node d_offset d_lastIndex].
    destruct (filterCb (d_calls st) (c :: g) (d_node st) i).
    + unfold wrapGroups.
      replace (s - d_offset st + (e - s)) with (e - d_offset st) by lia.
      assert (Hlen : jslen (d_node st) = jslen txt - d_offset st)
        by (rewrite Hnode; apply jslen_skipn; lia).
      rewrite wrapRangeInTextNode_ok by lia. cbn [bind].
      eexists. split; [reflexivity|].
      unfold invariant. cbn [d_offset d_lastIndex d_node d_calls].
      assert (Hmarked :
                firstn (Z.to_nat (e - d_offset st - (s - d_offset st)))
                  (skipn (Z.to_nat (s - d_offset st)) (d_node st))
                = c :: g).
      { rewrite Hnode, skipn_skipn.
        replace (Z.to_nat (s - d_offset st) + Z.to_nat (d_offset st))%nat
          with (Z.to_nat s) by lia.
        replace (e - d_offset st - (s - d_offset st)) with (e - s) by lia.
        rewrite <- substring_inside by lia. exact Hsub. }
      repeat split; try lia.
      * destruct (Z.gtb_spec e (d_lastIndex st)); lia.
      * rewrite Hnode, !skipn_skipn. f_equal. lia.
      * intros rest Hrest. rewrite <- app_assoc. apply Hcalls.
        cbn [app in_order]. exists s, e. rewrite Hmarked.
        repeat split; try assumption; lia.
    + eexists. split; [reflexivity|].
      unfold invariant. cbn [d_offset d_lastIndex d_node d_calls].
      repeat split; assumption || lia.
  - eexists. split; [reflexivity|]. repeat split; assumption || lia.
Qed.

Lemma separateGroupsD_loop_ok (n : nat) :
  forall (st : dstate) (i : nat),
    invariant st ->
    exists st', separateGroupsD_loop filterCb m st i n = Ok st'
                /\ invariant st'.
Proof.
  induction n as [|n IH]; intros st i Hinv.
  - exists st. split; [reflexivity|exact Hinv].
  - cbn [separateGroupsD_loop].
    destruct (separateGroupsD_step_ok i Hinv) as (st1 & H1 & Hinv1).
    rewrite H1. cbn [bind]. now apply IH.
Qed.

(** X23.  On a match that agrees with the text of the node,
    [separateGroupsD] does not throw; every marker it makes holds the
    text of the group it is reported for, and the marked groups do not
    overlap and come in the order of the text. *)
Theorem separateGroupsD_markers (r : Cursor.regex) (match0 : jsstring) :
  nth_error (d_groups m) 0 = Some (Some match0) ->
  exists node' r' calls,
    separateGroupsD filterCb txt m r = Ok (node', r', calls) /\
    in_order m 0 calls /\
    exists k, (k <= length txt)%nat /\ node' = skipn k txt.
Proof.
  intros H0. unfold separateGroupsD.
  destruct (@separateGroupsD_loop_ok (length (d_groups m) - 1)
              {| d_node := txt; d_lastIndex := 0; d_offset := 0;
                 d_isWrapped := false; d_end := 0; d_calls := [] |} 1)
    as (st & Hst & Hoff & Hlast & Hnode & Hcalls).
  - unfold invariant. cbn. unfold jslen.
    repeat split; try lia; try (intros rest Hr; exact Hr).
  - rewrite Hst. cbn [bind]. rewrite H0.
    do 3 eexists. split; [reflexivity|]. split.
    + rewrite <- (app_nil_r (d_calls st)). apply Hcalls. exact I.
    + exists (Z.to_nat (d_offset st)). split; [unfold jslen in Hoff; lia|].
      exact Hnode.
Qed.
End Separate.

Lemma separateGroupsD_markers_witness :
  exists node' r' calls,
    separateGroupsD (fun _ _ _ _ => true) (js "lorem ipsum")
      {| d_groups := [Some (js "lorem ipsum"); Some (js "lorem"); None;
                      Some (js "ipsum")];
         d_indices := [Some (0, 11); Some (0, 5); None; Some (6, 11)] |}
      {| Cursor.source := js "(lorem)(x)? (ipsum)"; Cursor.lastIndex := Cursor.Fin 11 |}
    = Ok (node', r', calls) /\
    in_order
      {| d_groups := [Some (js "lorem ipsum"); Some (js "lorem"); None;
                      Some (js "ipsum")];
         d_indices := [Some (0, 11); Some (0, 5); None; Some (6, 11)] |}
      0 calls /\
    exists k, (k <= length (js "lorem ipsum"))%nat
              /\ node' = skipn k (js "lorem ipsum").
Proof.
  apply (@separateGroupsD_markers (fun _ _ _ _ => true) (js "lorem ipsum")
           {| d_groups := [Some (js "lorem ipsum"); Some (js "lorem"); None;
                           Some (js "ipsum")];
              d_indices := [Some (0, 11); Some (0, 5); None; Some (6, 11)] |})
    with (match0 := js "lorem ipsum").
  - intros i g Hg Hne.
    destruct i as [|[|[|[|i]]]]; cbn in Hg; inversion Hg; subst.
    + exists 0, 11. repeat split; try lia; try reflexivity;
        try (vm_compute; discriminate).
    + exists 0, 5. repeat split; try lia; try reflexivity;
        try (vm_compute; discriminate).
    + exists 6, 11. repeat split; try lia; try reflexivity;
        try (vm_compute; discriminate).
    + destruct i; discriminate.
  - reflexivity.
Defined.

(** The two groups of the match are wrapped; the search goes on from
    the start of the node that is left. *)
Example separateGroupsD_example :
  separateGroupsD (fun _ _ _ _ => true) (js "lorem ipsum")
    {| d_groups := [Some (js "lorem ipsum"); Some (js "lorem"); None;
                    Some (js "ipsum")];
       d_indices := [Some (0, 11); Some (0, 5); None; Some (6, 11)] |}
    {| Cursor.source := js "(lorem)(x)? (ipsum)"; Cursor.lastIndex := Cursor.Fin 11 |}
  = Ok ([],
        {| Cursor.source := js "(lorem)(x)? (ipsum)"; Cursor.lastIndex := Cursor.Fin 0 |},
        [(js "lorem", 1%nat); (js "ipsum", 3%nat)]).
Proof. reflexivity. Qed.

End GroupsDFacts.

(** ** The range that is handed to the wrap *)

Module RangeBounds.
Import Host HostFacts Ranges RangeMarkingFacts.

(** X25.  A range that [checkWhitespaceRanges] finds valid lies in the
    text: its start is not negative, its end is after its start and
    not after the end of the text, the text between them holds a
    character that is not white space, and [noMatch] is not called.
    For a range that is not valid [noMatch] is called once, with that
    range. *)
Theorem checkWhitespaceRanges_in_text (r : range) (originalLength : Z)
  (string : jsstring) :
  let w := checkWhitespaceRanges r originalLength string in
  if w_valid w
  then 0 <= w_start w /\ w_start w < w_end w /\ w_end w <= jslen string /\
       has_non_space (substring string (w_start w) (w_end w)) = true /\
       w_noMatch w = []
  else w_noMatch w = [r].
Proof.
  cbv zeta.
  destruct (checkWhitespaceRanges_bounds r originalLength string) as [_ Hend].
  destruct (checkWhitespaceRanges_cases r originalLength string)
    as [(Hv & Hn & Hb & Hs)|[Hv Hn]]; cbv zeta in *; rewrite Hv.
  - repeat split; try assumption; lia.
  - exact Hn.
Qed.

End RangeBounds.
